(** * labdropbox: chunked object storage pipeline

    A shallow embedding of the Go service: the chunker
    (internal/chunker), the data model (internal/models), the three storage
    clients (internal/storage) and the write and read handlers
    (internal/handlers), followed by the properties of the split / upload /
    fetch / verify / reassemble pipeline.

    Conventions of the embedding:
    - a Go [[]byte] is a [list byte]; the nil slice and the empty slice are
      both [[]] (Go gives both length 0 and [append] treats them alike);
    - Go [int64] and [int] (64-bit targets) are [Z] with the wrap-around of
      the arithmetic written out ([wrap64]);
    - a Go [error] is a value of the type [error]: the sentinel values the
      code compares against with [==] are constructors, every other error
      is its message;
    - SHA-256 comes from the Go standard library and is a parameter
      ([Sha256]);
    - a JSON text is kept as the value it was made from; where the code
      decodes one (the cache), the value is decoded as encoding/json does,
      its strings made valid UTF-8 ([json_string]). *)

From Stdlib Require Import ZArith Lia.
From Stdlib.Strings Require Import Byte Ascii String.
From stdpp Require Import gmap strings list pretty sorting.

Open Scope Z_scope.

Global Instance byte_eq_dec : EqDecision byte := Byte.byte_eq_dec.

(** ** Machine integers *)

Definition wrap64 (z : Z) : Z := (z + 2 ^ 63) mod 2 ^ 64 - 2 ^ 63.

Definition max_int64 : Z := 2 ^ 63 - 1.

(** ** Go errors *)

Inductive error : Type :=
  | EOF                       (* io.EOF *)
  | ErrUnexpectedEOF          (* io.ErrUnexpectedEOF *)
  | ErrNoRows                 (* sql.ErrNoRows *)
  | RedisNil                  (* redis.Nil *)
  | Errorf (msg : string).    (* any other error, by its message *)

Global Instance error_eq_dec : EqDecision error.
Proof. solve_decision. Defined.

(** [err.Error()], as [%v] and [%w] print it. *)
Definition Error (e : error) : string :=
  match e with
  | EOF => "EOF"
  | ErrUnexpectedEOF => "unexpected EOF"
  | ErrNoRows => "sql: no rows in result set"
  | RedisNil => "redis: nil"
  | Errorf msg => msg
  end.

(** What a call of the program does: it returns, fails with a Go error,
    panics, or (for the one unbounded loop) is still running when the
    fuel of the model is used up. *)
Inductive outcome (A : Type) : Type :=
  | Done (a : A)
  | Failed (e : error)
  | Panicked (msg : string)
  | OutOfFuel.
Arguments Done {A} a.
Arguments Failed {A} e.
Arguments Panicked {A} msg.
Arguments OutOfFuel {A}.

(** ** SHA-256 (crypto/sha256), a parameter of the development *)

Class Sha256 := Sum256 : list byte → list byte.

(** ** encoding/hex *)

Definition hexdigit (n : N) : ascii :=
  match n with
  | 0 => "0" | 1 => "1" | 2 => "2" | 3 => "3" | 4 => "4" | 5 => "5"
  | 6 => "6" | 7 => "7" | 8 => "8" | 9 => "9" | 10 => "a" | 11 => "b"
  | 12 => "c" | 13 => "d" | 14 => "e" | _ => "f"
  end%char%N.

Definition EncodeToString (bs : list byte) : string :=
  foldr (λ b s, String (hexdigit (Byte.to_N b / 16))
                  (String (hexdigit (Byte.to_N b mod 16)) s)) EmptyString bs.

(** ** unicode/utf8 and the strings of encoding/json

    [json.Marshal] writes a string as valid UTF-8: it decodes the string
    with [utf8.DecodeRuneInString] and writes every byte that starts no
    valid encoding as an escaped U+FFFD; everything else it writes is read
    back by [json.Unmarshal] as it was. *)

Definition byte_in (lo hi : N) (a : ascii) : bool :=
  ((lo <=? N_of_ascii a) && (N_of_ascii a <=? hi))%N.

(** The number of bytes of the encoding [s] starts with, as the tables
    [first] and [acceptRanges] of unicode/utf8 give it (no overlong form,
    no surrogate, nothing above U+10FFFF), or 0 when [s] starts with no
    valid encoding: [RuneError] with size 1. *)
Definition utf8_size (s : string) : nat :=
  match s with
  | EmptyString => 0
  | String b0 s1 =>
    let x := N_of_ascii b0 in
    if (x <? 128)%N then 1
    else if byte_in 194 223 b0 then
      match s1 with
      | String b1 _ => if byte_in 128 191 b1 then 2 else 0
      | _ => 0
      end
    else if byte_in 224 239 b0 then
      match s1 with
      | String b1 (String b2 _) =>
        let lo := if (x =? 224)%N then 160%N else 128%N in
        let hi := if (x =? 237)%N then 159%N else 191%N in
        if byte_in lo hi b1 && byte_in 128 191 b2 then 3 else 0
      | _ => 0
      end
    else if byte_in 240 244 b0 then
      match s1 with
      | String b1 (String b2 (String b3 _)) =>
        let lo := if (x =? 240)%N then 144%N else 128%N in
        let hi := if (x =? 244)%N then 143%N else 191%N in
        if byte_in lo hi b1 && byte_in 128 191 b2 && byte_in 128 191 b3 then 4 else 0
      | _ => 0
      end
    else 0
  end%nat.

(** U+FFFD in UTF-8. *)
Definition RuneError : string :=
  String "239" (String "191" (String "189" EmptyString)).

(** A string after [json.Marshal] and [json.Unmarshal]: [skip] is the
    number of bytes still to copy of the encoding being read. *)
Fixpoint json_string_go (skip : nat) (s : string) : string :=
  match s with
  | EmptyString => EmptyString
  | String a s' =>
    match skip with
    | S k => String a (json_string_go k s')
    | O =>
      match utf8_size s with
      | O => RuneError +:+ json_string_go 0 s'
      | S k => String a (json_string_go k s')
      end
    end
  end.

Definition json_string (s : string) : string := json_string_go 0 s.

(** [utf8.ValidString]: the strings JSON keeps as they are. *)
Definition valid_utf8 (s : string) : Prop := json_string s = s.

(** ** io.Reader and io.ReadFull

    A reader is the bytes it still has to deliver, [pending], followed by
    the error every later [Read] returns, [final]: [EOF] for a stream that
    ends cleanly, anything else for a stream that breaks. *)

Record Reader : Type := mkReader {
  pending : list byte;
  final : error;
}.

(** [io.ReadFull(reader, buffer)] for a buffer of [len] bytes: the bytes
    read ([buffer[:n]]), the error, and the reader afterwards.
    - a buffer of length 0 asks for nothing: [(0, nil)] without a [Read];
    - [len] bytes available: they are read, [err = nil];
    - fewer: all of them are read and the error is the reader's, with [EOF]
      turned into [ErrUnexpectedEOF] when at least one byte was read. *)
Definition ReadFull (r : Reader) (len : nat) : list byte * option error * Reader :=
  if decide (len = 0)%nat then ([], None, r)
  else if decide (len ≤ length (pending r))%nat then
    (take len (pending r), None, mkReader (drop len (pending r)) (final r))
  else
    let err :=
      match final r with
      | EOF => if decide (pending r = []) then EOF else ErrUnexpectedEOF
      | e => e
      end in
    (pending r, Some err, mkReader [] (final r)).

(** The largest allocation the Go runtime accepts, [maxAlloc] of
    runtime/malloc.go: [1 << heapAddrBits], with 48 bits of heap address on
    the 64-bit platforms the service is built for. *)
Definition maxAlloc : Z := 2 ^ 48.

(** [make([]byte, n)] for an [int64] length: the length of the new slice,
    or the run-time panic of [makeslice] when [n] is negative or more than
    the runtime accepts to allocate.  (Running out of memory below that
    limit is a fatal error of the process, not a panic, and is not
    modelled.) *)
Definition make_len (n : Z) : option nat :=
  if decide (n < 0 ∨ maxAlloc < n) then None else Some (Z.to_nat n).

(** ** internal/models *)

Module models.

Record File : Type := mkFile {
  ID : string;
  Name : string;
  Size : Z;          (* int64 *)
  ChunkCount : Z;    (* int *)
  CreatedAt : Z;     (* time.Time, as a timestamp *)
}.

Record Chunk : Type := mkChunk {
  Chunk_ID : string;
  Chunk_FileID : string;
  Chunk_OrderIndex : Z;      (* int *)
  Chunk_Hash : string;
  Chunk_MinioObjectKey : string;
  Chunk_Size : Z;            (* int64 *)
}.

Record ChunkData : Type := mkChunkData {
  Data : list byte;
  OrderIndex : Z;    (* int *)
  Hash : string;
  CD_Size : Z;       (* int64 *)
}.

Global Instance File_eq_dec : EqDecision File.
Proof. solve_decision. Defined.

End models.

(** ** internal/chunker *)

Module chunker.
Import models.

Record Chunker : Type := NewChunker { chunkSize : Z (* int64 *) }.

Section with_hash.
Context {H : Sha256}.

Definition ComputeHash (data : list byte) : string :=
  EncodeToString (Sum256 data).

(** The [for] loop of [ChunkStream]; [fuel] bounds the number of
    iterations the model follows. *)
Fixpoint ChunkStream_loop (fuel : nat) (c : Chunker) (reader : Reader)
    (chunks : list ChunkData) (totalSize : Z) (orderIndex : Z)
    : outcome (list ChunkData * Z) :=
  match fuel with
  | O => OutOfFuel
  | S fuel' =>
    match make_len (chunkSize c) with
    | None => Panicked "runtime error: makeslice: len out of range"
    | Some len =>
      let '(chunkData, err, reader') := ReadFull reader len in
      let n := Z.of_nat (length chunkData) in
      let '(chunks', totalSize', orderIndex') :=
        if decide (n > 0) then
          let hash := ComputeHash chunkData in
          let chunk := mkChunkData chunkData orderIndex hash n in
          (chunks ++ [chunk], wrap64 (totalSize + n), wrap64 (orderIndex + 1))
        else (chunks, totalSize, orderIndex) in
      match err with
      | Some EOF | Some ErrUnexpectedEOF => Done (chunks', totalSize')
      | Some e => Failed (Errorf ("error reading chunk: " +:+ Error e))
      | None => ChunkStream_loop fuel' c reader' chunks' totalSize' orderIndex'
      end
    end
  end.

Definition ChunkStream (fuel : nat) (c : Chunker) (reader : Reader)
    : outcome (list ChunkData * Z) :=
  ChunkStream_loop fuel c reader [] 0 0.

Definition VerifyChunkHash (data : list byte) (expectedHash : string) : bool :=
  let actualHash := ComputeHash data in
  bool_decide (actualHash = expectedHash).

End with_hash.

(** [ReassembleChunks]: the first loop only sizes the buffer, the second
    appends the chunks in slice order. *)
Definition ReassembleChunks (chunks : list (list byte)) : list byte :=
  let totalSize := foldl (λ acc chunk, (acc + length chunk)%nat) 0%nat chunks in
  let result : list byte := [] in
  foldl (λ result chunk, result ++ chunk) result chunks.

End chunker.

(** ** The services behind the storage clients

    The handlers talk to three external services.  Their state, the
    failures they may answer with, the values [uuid.New()] will return and
    the clock are gathered in a [World]; every call made to a service is
    appended to [calls], every [log.Printf] line to [logs]. *)

Inductive Call : Type :=
  | MinioPutObject (key : string) (data : list byte)
  | MinioGetObject (key : string)
  | MinioRemoveObject (key : string)
  | TidbInsertFile (id : string)
  | TidbInsertChunk (id : string)
  | TidbSelectFile (id : string)
  | TidbSelectChunks (fileID : string)
  | RedisGet (key : string)
  | RedisSet (key : string) (ttl : Z)
  | RedisDel (key : string).

Global Instance Call_eq_dec : EqDecision Call.
Proof. solve_decision. Defined.

Definition is_minio_call (c : Call) : bool :=
  match c with
  | MinioPutObject _ _ | MinioGetObject _ | MinioRemoveObject _ => true
  | _ => false
  end.

(** The failure, if any, a service answers a call with (network errors,
    timeouts, ...), by the key or identifier of the call. *)
Record Faults : Type := mkFaults {
  minio_put_fault : string → option error;
  minio_get_fault : string → option error;     (* GetObject *)
  minio_read_fault : string → option error;    (* io.ReadAll of the object *)
  minio_remove_fault : string → option error;
  tidb_insert_fault : string → option error;
  tidb_select_fault : string → option error;
  tidb_rows_fault : string → option error;     (* rows.Err() after iterating *)
  redis_get_fault : string → option error;
  redis_set_fault : string → option error;
  redis_del_fault : string → option error;
}.

Record World : Type := mkWorld {
  bucket : gmap string (list byte);          (* MinIO: object key -> bytes *)
  files : gmap string models.File;           (* TiDB: table files, by primary key *)
  chunks : list models.Chunk;                (* TiDB: rows of table chunks *)
  cache : gmap string (models.File * Z);     (* Redis: key -> (File, TTL in seconds) *)
  faults : Faults;
  uuids : nat → string;                      (* the n-th value of uuid.New() *)
  uuid_next : nat;
  now : Z;                                   (* time.Now() *)
  calls : list Call;
  logs : list string;
}.

Definition set_bucket (f : gmap string (list byte) → gmap string (list byte)) (w : World) : World :=
  mkWorld (f (bucket w)) (files w) (chunks w) (cache w) (faults w)
          (uuids w) (uuid_next w) (now w) (calls w) (logs w).
Definition set_files (f : gmap string models.File → gmap string models.File) (w : World) : World :=
  mkWorld (bucket w) (f (files w)) (chunks w) (cache w) (faults w)
          (uuids w) (uuid_next w) (now w) (calls w) (logs w).
Definition set_chunks (f : list models.Chunk → list models.Chunk) (w : World) : World :=
  mkWorld (bucket w) (files w) (f (chunks w)) (cache w) (faults w)
          (uuids w) (uuid_next w) (now w) (calls w) (logs w).
Definition set_cache (f : gmap string (models.File * Z) → gmap string (models.File * Z)) (w : World) : World :=
  mkWorld (bucket w) (files w) (chunks w) (f (cache w)) (faults w)
          (uuids w) (uuid_next w) (now w) (calls w) (logs w).
Definition set_uuid_next (f : nat → nat) (w : World) : World :=
  mkWorld (bucket w) (files w) (chunks w) (cache w) (faults w)
          (uuids w) (f (uuid_next w)) (now w) (calls w) (logs w).
Definition set_calls (f : list Call → list Call) (w : World) : World :=
  mkWorld (bucket w) (files w) (chunks w) (cache w) (faults w)
          (uuids w) (uuid_next w) (now w) (f (calls w)) (logs w).
Definition set_logs (f : list string → list string) (w : World) : World :=
  mkWorld (bucket w) (files w) (chunks w) (cache w) (faults w)
          (uuids w) (uuid_next w) (now w) (calls w) (f (logs w)).

(** State passing over the world. *)
Definition M (A : Type) : Type := World → A * World.

Global Instance M_ret : MRet M := λ A a w, (a, w).
Global Instance M_bind : MBind M := λ A B k m w, let '(a, w') := m w in k a w'.

Definition call (c : Call) : M unit := λ w, (tt, set_calls (λ cs, cs ++ [c]) w).
Definition Printf (line : string) : M unit := λ w, (tt, set_logs (λ ls, ls ++ [line]) w).
Definition get_world : M World := λ w, (w, w).
Definition modify (f : World → World) : M unit := λ w, (tt, f w).

(** [uuid.New().String()] *)
Definition uuid_New : M string :=
  λ w, (uuids w (uuid_next w), set_uuid_next S w).

(** A Go result pair [(value, err)]. *)
Inductive res (A : Type) : Type :=
  | Ok (a : A)
  | Err (e : error).
Arguments Ok {A} a.
Arguments Err {A} e.

(** ** internal/storage *)

Module storage.
Import models.

(** [CacheTTL = 5 * time.Minute], in seconds. *)
Definition CacheTTL : Z := 5 * 60.

(** *** MinIO

    A call the client library refuses before it sends a request (an object
    name that is empty, too long or not valid UTF-8) is one of the failures
    the fault parameters stand for. *)

Definition UploadChunk (objectKey : string) (data : list byte) : M (option error) :=
  call (MinioPutObject objectKey data);;
  w ← get_world;
  match minio_put_fault (faults w) objectKey with
  | Some err => mret (Some (Errorf ("failed to upload chunk: " +:+ Error err)))
  | None => modify (set_bucket <[objectKey := data]>);; mret None
  end.

Definition DownloadChunk (objectKey : string) : M (res (list byte)) :=
  call (MinioGetObject objectKey);;
  w ← get_world;
  match minio_get_fault (faults w) objectKey with
  | Some err => mret (Err (Errorf ("failed to get object: " +:+ Error err)))
  | None =>
    let read : res (list byte) :=
      match minio_read_fault (faults w) objectKey with
      | Some err => Err err
      | None =>
        match bucket w !! objectKey with
        | Some data => Ok data
        | None => Err (Errorf "The specified key does not exist.")
        end
      end in
    match read with
    | Err err => mret (Err (Errorf ("failed to read object data: " +:+ Error err)))
    | Ok data => mret (Ok data)
    end
  end.

Definition DeleteChunk (objectKey : string) : M (option error) :=
  call (MinioRemoveObject objectKey);;
  w ← get_world;
  match minio_remove_fault (faults w) objectKey with
  | Some err => mret (Some (Errorf ("failed to delete chunk: " +:+ Error err)))
  | None => modify (set_bucket (delete objectKey));; mret None
  end.

(** *** TiDB

    The two tables of migrations/001_init_schema.sql with their key
    constraints: [files.id] and [chunks.id] are primary keys,
    [(file_id, order_index)] is unique in [chunks], and [chunks.file_id]
    references [files.id].  Column widths are not modelled. *)

Definition insert_into_files (file : File) (w : World) : res World :=
  match tidb_insert_fault (faults w) (ID file) with
  | Some err => Err err
  | None =>
    if decide (is_Some (files w !! ID file))
    then Err (Errorf "Error 1062: Duplicate entry for key 'files.PRIMARY'")
    else Ok (set_files <[ID file := file]> w)
  end.

Definition insert_into_chunks (chunk : Chunk) (w : World) : res World :=
  match tidb_insert_fault (faults w) (Chunk_ID chunk) with
  | Some err => Err err
  | None =>
    if decide (Exists (λ c, Chunk_ID c = Chunk_ID chunk) (chunks w))
    then Err (Errorf "Error 1062: Duplicate entry for key 'chunks.PRIMARY'")
    else if decide (Exists (λ c, Chunk_FileID c = Chunk_FileID chunk
                                 ∧ Chunk_OrderIndex c = Chunk_OrderIndex chunk) (chunks w))
    then Err (Errorf "Error 1062: Duplicate entry for key 'chunks.idx_file_order'")
    else if decide (files w !! Chunk_FileID chunk = None)
    then Err (Errorf "Error 1452: Cannot add or update a child row: a foreign key constraint fails")
    else Ok (set_chunks (λ rows, rows ++ [chunk]) w)
  end.

Fixpoint insert_by_order_index (c : Chunk) (l : list Chunk) : list Chunk :=
  match l with
  | [] => [c]
  | d :: l' =>
    if decide (Chunk_OrderIndex c ≤ Chunk_OrderIndex d) then c :: l
    else d :: insert_by_order_index c l'
  end.

(** [SELECT ... FROM chunks WHERE file_id = ? ORDER BY order_index ASC] *)
Definition select_chunks (fileID : string) (rows : list Chunk) : list Chunk :=
  foldr insert_by_order_index []
    (filter (λ c, Chunk_FileID c = fileID) rows).

Definition CreateFile (file : File) : M (option error) :=
  call (TidbInsertFile (ID file));;
  w ← get_world;
  match insert_into_files file w with
  | Err err => mret (Some (Errorf ("failed to insert file: " +:+ Error err)))
  | Ok w' => modify (λ _, w');; mret None
  end.

Definition CreateChunk (chunk : Chunk) : M (option error) :=
  call (TidbInsertChunk (Chunk_ID chunk));;
  w ← get_world;
  match insert_into_chunks chunk w with
  | Err err => mret (Some (Errorf ("failed to insert chunk: " +:+ Error err)))
  | Ok w' => modify (λ _, w');; mret None
  end.

Definition GetFile (fileID : string) : M (res File) :=
  call (TidbSelectFile fileID);;
  w ← get_world;
  let row : res File :=
    match tidb_select_fault (faults w) fileID with
    | Some err => Err err
    | None =>
      match files w !! fileID with
      | Some file => Ok file
      | None => Err ErrNoRows
      end
    end in
  match row with
  | Err ErrNoRows => mret (Err (Errorf ("file not found: " +:+ fileID)))
  | Err err => mret (Err (Errorf ("failed to query file: " +:+ Error err)))
  | Ok file => mret (Ok file)
  end.

Definition GetChunks (fileID : string) : M (res (list Chunk)) :=
  call (TidbSelectChunks fileID);;
  w ← get_world;
  match tidb_select_fault (faults w) fileID with
  | Some err => mret (Err (Errorf ("failed to query chunks: " +:+ Error err)))
  | None =>
    let chunks := select_chunks fileID (chunks w) in
    match tidb_rows_fault (faults w) fileID with
    | Some err => mret (Err (Errorf ("error iterating chunks: " +:+ Error err)))
    | None => mret (Ok chunks)
    end
  end.

(** *** Redis

    The cached value is the JSON text [json.Marshal] makes of a [File].
    The model keeps, for the text, the File it was made from, and decodes
    it when it is read: a File read from the cache is the File stored
    after both steps, with its two strings made valid UTF-8.  (The integers
    and the time are read back as written; [json.Marshal] fails on a File
    only for a time whose year is outside 0..9999, which a [TIMESTAMP]
    never is: times are taken in that range.  A text that is no encoding of
    a File makes [json.Unmarshal] fail; the cache is written by
    [SetFileMetadata] only, so its entries are encodings.) *)

Definition cache_key (fileID : string) : string := "file:" +:+ fileID.

(** [json.Marshal(file)], the text standing for the File it encodes. *)
Definition json_Marshal (file : File) : res File := Ok file.

(** The File a text decodes to. *)
Definition json_File (data : File) : File :=
  mkFile (json_string (ID data)) (json_string (Name data)) (Size data)
         (ChunkCount data) (CreatedAt data).

(** [json.Unmarshal(data, &file)] *)
Definition json_Unmarshal (data : File) : res File := Ok (json_File data).

Definition GetFileMetadata (fileID : string) : M (res (option File)) :=
  let key := cache_key fileID in
  call (RedisGet key);;
  w ← get_world;
  let reply : res File :=
    match redis_get_fault (faults w) key with
    | Some err => Err err
    | None =>
      match cache w !! key with
      | Some (file, _) => Ok file
      | None => Err RedisNil
      end
    end in
  match reply with
  | Err RedisNil => mret (Ok None)
  | Err err => mret (Err (Errorf ("failed to get from cache: " +:+ Error err)))
  | Ok data =>
    match json_Unmarshal data with
    | Err err =>
      mret (Err (Errorf ("failed to unmarshal cached data: " +:+ Error err)))
    | Ok file => mret (Ok (Some file))
    end
  end.

Definition SetFileMetadata (fileID : string) (file : File) : M (option error) :=
  let key := cache_key fileID in
  match json_Marshal file with
  | Err err => mret (Some (Errorf ("failed to marshal file: " +:+ Error err)))
  | Ok data =>
    call (RedisSet key CacheTTL);;
    w ← get_world;
    match redis_set_fault (faults w) key with
    | Some err => mret (Some (Errorf ("failed to set cache: " +:+ Error err)))
    | None => modify (set_cache <[key := (data, CacheTTL)]>);; mret None
    end
  end.

Definition InvalidateFileMetadata (fileID : string) : M (option error) :=
  let key := cache_key fileID in
  call (RedisDel key);;
  w ← get_world;
  match redis_del_fault (faults w) key with
  | Some err => mret (Some (Errorf ("failed to invalidate cache: " +:+ Error err)))
  | None => modify (set_cache (delete key));; mret None
  end.

End storage.

(** ** internal/config *)

Module config.

Record Config : Type := mkConfig { ChunkSizeMB : Z (* int *) }.

Definition GetChunkSizeBytes (c : Config) : Z :=
  wrap64 (wrap64 (ChunkSizeMB c * 1024) * 1024).

End config.

(** ** internal/handlers *)

Module handlers.
Import models.

Definition dquote : string := String "034" EmptyString.
Definition newline : string := String "010" EmptyString.

Record WriteResponse : Type := mkWriteResponse {
  FileID : string;
  FileName : string;
  FileSize : Z;
  WR_ChunkCount : Z;
  Message : string;
}.

Inductive Body : Type :=
  | Text (msg : string)
  | Bytes (data : list byte)
  | Json (r : WriteResponse).

Record Response : Type := mkResponse {
  StatusCode : Z;
  Header : list (string * string);
  ResponseBody : Body;
}.

Definition StatusOK : Z := 200.
Definition StatusCreated : Z := 201.
Definition StatusBadRequest : Z := 400.
Definition StatusNotFound : Z := 404.
Definition StatusInternalServerError : Z := 500.

(** [http.Error(w, msg, code)] *)
Definition http_Error (msg : string) (code : Z) : Response :=
  mkResponse code
    [("Content-Type", "text/plain; charset=utf-8");
     ("X-Content-Type-Options", "nosniff")]
    (Text (msg +:+ newline)).

(** *** write.go *)

Module WriteHandler.

Record WriteHandler : Type := NewWriteHandler { chunker : chunker.Chunker }.

Section with_hash.
Context {H : Sha256}.

Definition chunkStream (wh : WriteHandler) (fuel : nat) (body : Reader)
    : outcome (list ChunkData * Z) :=
  chunker.ChunkStream fuel (chunker wh) body.

Definition objectKey (fileID : string) (orderIndex : Z) : string :=
  "chunks/" +:+ fileID +:+ "/" +:+ pretty orderIndex.

Fixpoint uploadChunks_loop (fileID : string) (chunks : list ChunkData)
    (chunkModels : list Chunk) : M (res (list Chunk)) :=
  match chunks with
  | [] => mret (Ok chunkModels)
  | chunkData :: rest =>
    chunkID ← uuid_New;
    let objectKey := objectKey fileID (OrderIndex chunkData) in
    err ← storage.UploadChunk objectKey (Data chunkData);
    match err with
    | Some err =>
      mret (Err (Errorf ("failed to upload chunk " +:+ pretty (OrderIndex chunkData)
                         +:+ ": " +:+ Error err)))
    | None =>
      let chunk := mkChunk chunkID fileID (OrderIndex chunkData)
                           (Hash chunkData) objectKey (CD_Size chunkData) in
      uploadChunks_loop fileID rest (chunkModels ++ [chunk])
    end
  end.

Definition uploadChunks (fileID : string) (chunks : list ChunkData)
    : M (res (list Chunk)) :=
  uploadChunks_loop fileID chunks [].

Fixpoint createChunks_loop (chunks : list Chunk) : M (option error) :=
  match chunks with
  | [] => mret None
  | chunk :: rest =>
    err ← storage.CreateChunk chunk;
    match err with
    | Some err => mret (Some (Errorf ("failed to create chunk record: " +:+ Error err)))
    | None => createChunks_loop rest
    end
  end.

Definition saveMetadata (file : File) (chunks : list Chunk) : M (option error) :=
  err ← storage.CreateFile file;
  match err with
  | Some err => mret (Some (Errorf ("failed to create file record: " +:+ Error err)))
  | None => createChunks_loop chunks
  end.

Definition invalidateCache (fileID : string) : M (option error) :=
  storage.InvalidateFileMetadata fileID.

(** [PUT /write?name=filename] with the request body [body]. *)
Definition ServeHTTP (wh : WriteHandler) (fuel : nat) (filename : string)
    (body : Reader) : M (outcome Response) :=
  if decide (filename = "") then
    mret (Done (http_Error "missing 'name' query parameter" StatusBadRequest))
  else
    fileID ← uuid_New;
    Printf ("Chunking file: " +:+ filename +:+ " (ID: " +:+ fileID +:+ ")");;
    match chunkStream wh fuel body with
    | OutOfFuel => mret OutOfFuel
    | Panicked msg => mret (Panicked msg)
    | Failed err =>
      mret (Done (http_Error ("failed to chunk file: " +:+ Error err)
                             StatusInternalServerError))
    | Done (chunks, totalSize) =>
      let count := Z.of_nat (length chunks) in
      Printf ("File chunked: " +:+ pretty count +:+ " chunks, total size: "
              +:+ pretty totalSize +:+ " bytes");;
      Printf "Uploading chunks to MinIO...";;
      r ← uploadChunks fileID chunks;
      match r with
      | Err err =>
        mret (Done (http_Error ("failed to upload chunks: " +:+ Error err)
                               StatusInternalServerError))
      | Ok chunkModels =>
        Printf "Saving metadata to TiDB...";;
        w ← get_world;
        let file := mkFile fileID filename totalSize count (now w) in
        err ← saveMetadata file chunkModels;
        match err with
        | Some err =>
          mret (Done (http_Error ("failed to save metadata: " +:+ Error err)
                                 StatusInternalServerError))
        | None =>
          Printf "Invalidating cache...";;
          err ← invalidateCache fileID;
          match err with
          | Some err => Printf ("Warning: failed to invalidate cache: " +:+ Error err)
          | None => mret tt
          end;;
          let response := mkWriteResponse fileID filename totalSize count
                                          "File uploaded successfully" in
          Printf ("File upload completed: " +:+ filename +:+ " (ID: " +:+ fileID +:+ ")");;
          mret (Done (mkResponse StatusCreated
                        [("Content-Type", "application/json")] (Json response)))
        end
      end
    end.

End with_hash.
End WriteHandler.

(** *** The read handler *)

Module ReadHandler.

(** The state shared by the goroutines of [fetchChunksParallel]: the
    pre-sized slice of results and the buffered error channel. *)
Record FanIn : Type := mkFanIn {
  chunkData : list (list byte);
  errChan : list error;
}.

Section with_hash.
Context {H : Sha256}.

Definition getFileMetadata (fileID : string) : M (res (option File)) :=
  r ← storage.GetFileMetadata fileID;
  match r with
  | Err err => mret (Err err)
  | Ok (Some file) =>
    Printf ("Cache HIT for file: " +:+ fileID);;
    mret (Ok (Some file))
  | Ok None =>
    Printf ("Cache MISS for file: " +:+ fileID);;
    r ← storage.GetFile fileID;
    match r with
    | Err err => mret (Err err)
    | Ok file =>
      err ← storage.SetFileMetadata fileID file;
      match err with
      | Some err => Printf ("Warning: failed to update cache: " +:+ Error err)
      | None => mret tt
      end;;
      mret (Ok (Some file))
    end
  end.

Definition getChunkMetadata (fileID : string) : M (res (list Chunk)) :=
  storage.GetChunks fileID.

(** The body of one goroutine: download, verify, then either send an
    error on the channel or store the bytes at the goroutine's own
    index. *)
Definition fetch_unit (idx : nat) (chunkMeta : Chunk) (st : FanIn) : M FanIn :=
  r ← storage.DownloadChunk (Chunk_MinioObjectKey chunkMeta);
  match r with
  | Err err =>
    mret (mkFanIn (chunkData st)
            (errChan st ++ [Errorf ("failed to download chunk " +:+ pretty idx
                                    +:+ ": " +:+ Error err)]))
  | Ok data =>
    if negb (chunker.VerifyChunkHash data (Chunk_Hash chunkMeta)) then
      mret (mkFanIn (chunkData st)
              (errChan st ++ [Errorf ("hash mismatch for chunk " +:+ pretty idx)]))
    else
      mret (mkFanIn (<[idx := data]> (chunkData st)) (errChan st))
  end.

(** The goroutines, in the order [order] in which they complete. *)
Fixpoint run_units (order : list nat) (chunkMetadata : list Chunk) (st : FanIn)
    : M FanIn :=
  match order with
  | [] => mret st
  | idx :: rest =>
    match chunkMetadata !! idx with
    | None => run_units rest chunkMetadata st
    | Some chunkMeta =>
      st' ← fetch_unit idx chunkMeta st;
      run_units rest chunkMetadata st'
    end
  end.

(** [fetchChunksParallel]: one goroutine per chunk, [wg.Wait()], then
    the first error of the channel if there is one.  [order] is the
    order in which the scheduler lets the goroutines complete, a
    permutation of the indices of [chunkMetadata]. *)
Definition fetchChunksParallel (order : list nat) (chunkMetadata : list Chunk)
    : M (res (list (list byte))) :=
  let chunkData0 := replicate (length chunkMetadata) [] in
  st ← run_units order chunkMetadata (mkFanIn chunkData0 []);
  match errChan st with
  | err :: _ => mret (Err err)
  | [] => mret (Ok (chunkData st))
  end.

Definition reassembleFile (chunkData : list (list byte)) : list byte :=
  chunker.ReassembleChunks chunkData.

(** [GET /read/{file_id}]; [sched n] is the completion order of the
    [n] goroutines of the fan-out. *)
Definition ServeHTTP (sched : nat → list nat) (fileID : string) : M Response :=
  if decide (fileID = "") then
    mret (http_Error "missing file_id in path" StatusBadRequest)
  else
    Printf ("Reading file: " +:+ fileID);;
    r ← getFileMetadata fileID;
    match r with
    | Err err =>
      mret (http_Error ("failed to get file metadata: " +:+ Error err)
                       StatusInternalServerError)
    | Ok None => mret (http_Error "file not found" StatusNotFound)
    | Ok (Some file) =>
      r ← getChunkMetadata fileID;
      match r with
      | Err err =>
        mret (http_Error ("failed to get chunks: " +:+ Error err)
                         StatusInternalServerError)
      | Ok chunks =>
        Printf ("Fetching " +:+ pretty (Z.of_nat (length chunks))
                +:+ " chunks in parallel...");;
        r ← fetchChunksParallel (sched (length chunks)) chunks;
        match r with
        | Err err =>
          mret (http_Error ("failed to fetch chunks: " +:+ Error err)
                           StatusInternalServerError)
        | Ok chunkData =>
          Printf "Reassembling chunks...";;
          let fileData := reassembleFile chunkData in
          Printf ("File read completed: " +:+ Name file +:+ " (ID: " +:+ fileID +:+ ")");;
          mret (mkResponse StatusOK
                  [("Content-Type", "application/octet-stream");
                   ("Content-Disposition",
                    "attachment; filename=" +:+ dquote +:+ Name file +:+ dquote);
                   ("Content-Length", pretty (Z.of_nat (length fileData)))]
                  (Bytes fileData))
        end
      end
    end.

End with_hash.
End ReadHandler.

End handlers.

(** * Vocabulary of the properties *)

Module chunker_spec.
Import models chunker.

(** The consecutive slices of [data] of [s] bytes each (the last one
    possibly shorter); [n] bounds their number. *)
Fixpoint segments (n : nat) (s : nat) (data : list byte) : list (list byte) :=
  match n with
  | O => []
  | S n' =>
    match data with
    | [] => []
    | _ => take s data :: segments n' s (drop s data)
    end
  end.

Section with_hash.
Context {H : Sha256}.

(** The chunk records [ChunkStream] builds from the slices, following
    its counter [orderIndex]. *)
Fixpoint chunks_from (segs : list (list byte)) (orderIndex : Z) : list ChunkData :=
  match segs with
  | [] => []
  | d :: rest =>
    mkChunkData d orderIndex (ComputeHash d) (Z.of_nat (length d))
      :: chunks_from rest (wrap64 (orderIndex + 1))
  end.

(** Its running sum [totalSize]. *)
Fixpoint total_from (segs : list (list byte)) (totalSize : Z) : Z :=
  match segs with
  | [] => totalSize
  | d :: rest => total_from rest (wrap64 (totalSize + Z.of_nat (length d)))
  end.

End with_hash.
End chunker_spec.

(** A call returns when it hands a result or a Go error back to its
    caller: it neither panics nor keeps running. *)
Definition returns {A : Type} (o : outcome A) : Prop :=
  match o with
  | Done _ | Failed _ => True
  | Panicked _ | OutOfFuel => False
  end.

(** A stand-in digest for the concrete runs below: the bytes themselves. *)
Definition example_digest : Sha256 := λ data, data.

(** Ten bytes to write. *)
Definition bytes10 : list byte :=
  [x00; x01; x02; x03; x04; x05; x06; x07; x08; x09].

(** Services that never fail. *)
Definition no_faults : Faults :=
  mkFaults (λ _, None) (λ _, None) (λ _, None) (λ _, None) (λ _, None)
           (λ _, None) (λ _, None) (λ _, None) (λ _, None) (λ _, None).

(** The world before anything was written; the identifiers [uuid.New()]
    will return are [uuid-0], [uuid-1], ... *)
Definition empty_world : World :=
  mkWorld ∅ ∅ [] ∅ no_faults (λ n, "uuid-" +:+ pretty n) 0 1700000000 [] [].

Section vocabulary.
Import models handlers handlers.ReadHandler.
Context {H : Sha256}.

(** The upload a chunk gives rise to. *)
Definition put_call (fileID : string) (c : ChunkData) : Call :=
  MinioPutObject ("chunks/" +:+ fileID +:+ "/" +:+ pretty (OrderIndex c)) (Data c).

(** The metadata record of an uploaded chunk. *)
Definition chunk_model (chunkID fileID : string) (c : ChunkData) : Chunk :=
  mkChunk chunkID fileID (OrderIndex c) (Hash c)
          ("chunks/" +:+ fileID +:+ "/" +:+ pretty (OrderIndex c)) (CD_Size c).

(** What [DownloadChunk] answers for a key: it depends on the bucket and
    on the failures of MinIO only. *)
Definition download (w : World) (key : string) : res (list byte) :=
  (storage.DownloadChunk key w).1.

(** A fetch-and-verify unit fails when the download fails or when the
    digest of the downloaded bytes is not the recorded one. *)
Definition unit_fails (w : World) (meta : Chunk) : Prop :=
  match download w (Chunk_MinioObjectKey meta) with
  | Err _ => True
  | Ok data => chunker.ComputeHash data ≠ Chunk_Hash meta
  end.

(** The result a unit ends with. *)
Definition fetch_result (w : World) (idx : nat) (meta : Chunk) : res (list byte) :=
  match download w (Chunk_MinioObjectKey meta) with
  | Err err =>
    Err (Errorf ("failed to download chunk " +:+ pretty idx +:+ ": " +:+ Error err))
  | Ok data =>
    if chunker.VerifyChunkHash data (Chunk_Hash meta) then Ok data
    else Err (Errorf ("hash mismatch for chunk " +:+ pretty idx))
  end.

(** The effect of a completed unit on the shared state. *)
Definition apply_unit (w : World) (metas : list Chunk) (st : FanIn) (idx : nat) : FanIn :=
  match metas !! idx with
  | None => st
  | Some meta =>
    match fetch_result w idx meta with
    | Ok data => mkFanIn (<[idx := data]> (chunkData st)) (errChan st)
    | Err e => mkFanIn (chunkData st) (errChan st ++ [e])
    end
  end.

(** Two worlds with the same objects and the same MinIO failures. *)
Definition same_blobs (w w' : World) : Prop :=
  bucket w = bucket w' ∧ faults w = faults w'.

(** The Blob Store calls a fan-out makes, in completion order. *)
Definition get_calls (metas : list Chunk) (order : list nat) : list Call :=
  omap (λ idx, (λ meta, MinioGetObject (Chunk_MinioObjectKey meta)) <$> metas !! idx) order.

(** The errors sent on the channel, in completion order. *)
Definition unit_error (w : World) (metas : list Chunk) (idx : nat) : option error :=
  match metas !! idx with
  | None => None
  | Some meta =>
    match fetch_result w idx meta with
    | Ok _ => None
    | Err e => Some e
    end
  end.

(** The slice of results once every unit has completed: slot [i] holds
    the verified bytes of chunk [i], or is still empty if its unit failed.
    The completion order does not appear. *)
Definition final_slots (w : World) (metas : list Chunk) : list (list byte) :=
  imap (λ i meta, match fetch_result w i meta with Ok data => data | Err _ => [] end) metas.

(** What the steps of a read before the fan-out leave untouched: the
    objects, the tables, the failures, and the list of Blob Store calls. *)
Definition read_frame (w w' : World) : Prop :=
  bucket w' = bucket w ∧ faults w' = faults w ∧ files w' = files w
  ∧ chunks w' = chunks w
  ∧ filter is_minio_call (calls w') = filter is_minio_call (calls w).

(** The headers and body of a successful read. *)
Definition ok_response (file : File) (fileData : list byte) : Response :=
  mkResponse StatusOK
    [("Content-Type", "application/octet-stream");
     ("Content-Disposition", "attachment; filename=" +:+ dquote +:+ Name file +:+ dquote);
     ("Content-Length", pretty (Z.of_nat (length fileData)))]
    (Bytes fileData).

(** The steps of a read before the fan-out: the response of the failure
    that ended the read, or the File record and the fetch plan. *)
Definition resolve (fileID : string) : M (Response + File * list Chunk) :=
  Printf ("Reading file: " +:+ fileID);;
  r ← getFileMetadata fileID;
  match r with
  | Err err =>
    mret (inl (http_Error ("failed to get file metadata: " +:+ Error err)
                          StatusInternalServerError))
  | Ok None => mret (inl (http_Error "file not found" StatusNotFound))
  | Ok (Some file) =>
    r ← getChunkMetadata fileID;
    match r with
    | Err err =>
      mret (inl (http_Error ("failed to get chunks: " +:+ Error err)
                            StatusInternalServerError))
    | Ok chunks =>
      Printf ("Fetching " +:+ pretty (Z.of_nat (length chunks))
              +:+ " chunks in parallel...");;
      mret (inr (file, chunks))
    end
  end.

(** The steps of a read from the fan-out on. *)
Definition respond (sched : nat → list nat) (fileID : string) (file : File)
    (chunks : list Chunk) : M Response :=
  r ← fetchChunksParallel (sched (length chunks)) chunks;
  match r with
  | Err err =>
    mret (http_Error ("failed to fetch chunks: " +:+ Error err)
                     StatusInternalServerError)
  | Ok chunkData =>
    Printf "Reassembling chunks...";;
    Printf ("File read completed: " +:+ Name file +:+ " (ID: " +:+ fileID +:+ ")");;
    mret (ok_response file (reassembleFile chunkData))
  end.

(** The File record with another chunk count, and the world in which every
    File record, stored or cached, has the chunk count [g] gives for its
    identifier. *)
Definition with_count (k : Z) (f : File) : File :=
  mkFile (ID f) (Name f) (Size f) k (CreatedAt f).

Definition recount_file (g : string → Z) (f : File) : File :=
  with_count (g (ID f)) f.

Definition recount (g : string → Z) (w : World) : World :=
  mkWorld (bucket w) (recount_file g <$> files w) (chunks w)
          (prod_map (recount_file g) id <$> cache w) (faults w)
          (uuids w) (uuid_next w) (now w) (calls w) (logs w).

(** The bucket after the upload of a chunk. *)
Definition put_chunk (fileID : string) (b : gmap string (list byte)) (c : ChunkData)
    : gmap string (list byte) :=
  <[WriteHandler.objectKey fileID (OrderIndex c) := Data c]> b.

(** The tables satisfy the foreign key of [chunks]: every chunk record
    belongs to a stored File record. *)
Definition fk_ok (w : World) : Prop :=
  ∀ c, c ∈ chunks w → is_Some (files w !! Chunk_FileID c).

(** The chunk records of a file and the objects they name are in [w2]
    what they are in [w1]: nothing touched the stored file in between. *)
Definition same_file (fileID : string) (w1 w2 : World) : Prop :=
  storage.select_chunks fileID (chunks w2) = storage.select_chunks fileID (chunks w1)
  ∧ ∀ m, m ∈ storage.select_chunks fileID (chunks w1) →
         bucket w2 !! Chunk_MinioObjectKey m = bucket w1 !! Chunk_MinioObjectKey m.

End vocabulary.

(** ** Concrete worlds *)

(** The world after [PUT /write?name=test.bin] of ten bytes with a chunk
    size of 4, from the empty world: three chunks under the file identifier
    [uuid-0]. *)
Definition written_world : World :=
  (handlers.WriteHandler.ServeHTTP (H := example_digest)
     (handlers.WriteHandler.NewWriteHandler (chunker.NewChunker 4)) 11
     "test.bin" (mkReader bytes10 EOF) empty_world).2.

(** Its chunk records, as a read fetches them. *)
Definition written_chunks : list models.Chunk :=
  storage.select_chunks "uuid-0" (chunks written_world).

(** The same world after the bytes of the second chunk were replaced
    behind the back of the service. *)
Definition corrupted_world : World :=
  set_bucket <["chunks/uuid-0/1" := [xff; xff; xff; xff]]> written_world.

(** The fetches complete in the order they were started. *)
Definition in_order : nat → list nat := λ n, seq 0 n.

(** The File record of the written file. *)
Definition test_file : models.File :=
  models.mkFile "uuid-0" "test.bin" 10 3 1700000000.

(** The world after a first read of the written file: the cache holds its
    File record. *)
Definition read_world : World :=
  (handlers.ReadHandler.ServeHTTP (H := example_digest) in_order "uuid-0"
     written_world).2.

(** The written world with a cache that refuses every write. *)
Definition read_only_cache : Faults :=
  mkFaults (λ _, None) (λ _, None) (λ _, None) (λ _, None) (λ _, None)
           (λ _, None) (λ _, None) (λ _, None)
           (λ _, Some (Errorf "connection refused")) (λ _, None).

Definition flaky_world : World :=
  mkWorld (bucket written_world) (files written_world) (chunks written_world)
          (cache written_world) read_only_cache (uuids written_world)
          (uuid_next written_world) (now written_world) (calls written_world)
          (logs written_world).

(** The written world with the row of the last chunk missing: the File
    record counts three chunks, the table holds two. *)
Definition short_world : World := set_chunks (take 2) written_world.

(** The world [w] with other failures. *)
Definition with_faults (f : Faults) (w : World) : World :=
  mkWorld (bucket w) (files w) (chunks w) (cache w) f (uuids w) (uuid_next w)
          (now w) (calls w) (logs w).

(** A Blob Store that refuses the upload of the second chunk of the first
    file. *)
Definition second_upload_refused : Faults :=
  mkFaults (λ key, if decide (key = "chunks/uuid-0/1")
                   then Some (Errorf "connection refused") else None)
           (λ _, None) (λ _, None) (λ _, None) (λ _, None)
           (λ _, None) (λ _, None) (λ _, None) (λ _, None) (λ _, None).

(** A Metadata Store that refuses the insert of the record with
    identifier [uuid-2], the second chunk record of the first file. *)
Definition second_insert_refused : Faults :=
  mkFaults (λ _, None) (λ _, None) (λ _, None) (λ _, None)
           (λ id, if decide (id = "uuid-2")
                  then Some (Errorf "connection refused") else None)
           (λ _, None) (λ _, None) (λ _, None) (λ _, None) (λ _, None).

(** A cache that cannot be reached. *)
Definition cache_down : Faults :=
  mkFaults (λ _, None) (λ _, None) (λ _, None) (λ _, None) (λ _, None)
           (λ _, None) (λ _, None)
           (λ _, Some (Errorf "connection refused"))
           (λ _, Some (Errorf "connection refused"))
           (λ _, Some (Errorf "connection refused")).

(** The empty world after the insert of the File record [test_file]. *)
Definition file_world : World := (storage.CreateFile test_file empty_world).2.

(** The second of the three chunks of the ten bytes. *)
Definition second_chunk : models.ChunkData :=
  models.mkChunkData [x04; x05; x06; x07] 1
    (chunker.ComputeHash (H := example_digest) [x04; x05; x06; x07]) 4.

(** The write handler with a chunk size of four bytes. *)
Definition small_chunks : handlers.WriteHandler.WriteHandler :=
  handlers.WriteHandler.NewWriteHandler (chunker.NewChunker 4).


(** ** Vocabulary of the further properties *)

Section vocabulary_more.
Import models handlers handlers.ReadHandler.
Context {H : Sha256}.

(** The key of the unique index [idx_file_order] of table [chunks]. *)
Definition chunk_key (c : Chunk) : string * Z :=
  (Chunk_FileID c, Chunk_OrderIndex c).

(** The tables satisfy the constraints of the schema: the foreign key,
    the primary key of [chunks] and its unique index. *)
Definition db_ok (w : World) : Prop :=
  fk_ok w
  ∧ NoDup (Chunk_ID <$> chunks w)
  ∧ NoDup (chunk_key <$> chunks w).

(** The calls made between two worlds. *)
Definition new_calls (w w' : World) : list Call :=
  drop (length (calls w)) (calls w').

(** A call that writes to one of the three services. *)
Definition is_write_call (c : Call) : bool :=
  match c with
  | MinioPutObject _ _ | MinioRemoveObject _ | TidbInsertFile _ | TidbInsertChunk _
  | RedisSet _ _ | RedisDel _ => true
  | _ => false
  end.

(** The identifiers [uuid.New()] is still to return are new: they never
    repeat, none is empty, and none is the identifier of a stored File or
    chunk record. *)
Definition fresh_uuids (w : World) : Prop :=
  (∀ i j, uuids w i = uuids w j → i = j)
  ∧ ∀ k, (uuid_next w ≤ k)%nat →
         uuids w k ≠ ""
         ∧ files w !! uuids w k = None
         ∧ uuids w k ∉ (Chunk_ID <$> chunks w).

(** The identifiers the upload of [n] chunks draws, the first being the
    one after the file identifier. *)
Definition chunk_ids (w : World) (n : nat) : list string :=
  (λ i, uuids w (S (uuid_next w) + i)) <$> seq 0 n.

(** The sum of the recorded sizes of chunk records. *)
Definition total_size (rows : list Chunk) : Z :=
  foldr (λ c acc, Chunk_Size c + acc) 0 rows.

(** The chunks [ChunkStream] cuts [data] into with the chunk size of the
    write handler. *)
Definition chunks_of (wh : WriteHandler.WriteHandler) (data : list byte) : list ChunkData :=
  chunker_spec.chunks_from
    (chunker_spec.segments (length data)
       (Z.to_nat (chunker.chunkSize (WriteHandler.chunker wh))) data) 0.

(** The chunk records a write of [data] in world [w] builds, and its File
    record. *)
Definition rows_of (wh : WriteHandler.WriteHandler) (data : list byte) (w : World)
    : list Chunk :=
  zip_with (λ id c, chunk_model id (uuids w (uuid_next w)) c)
           (chunk_ids w (length (chunks_of wh data))) (chunks_of wh data).

Definition file_of (wh : WriteHandler.WriteHandler) (filename : string)
    (data : list byte) (w : World) : File :=
  mkFile (uuids w (uuid_next w)) filename (Z.of_nat (length data))
         (Z.of_nat (length (chunks_of wh data))) (now w).

(** The calls of a write that goes through: the uploads in the order of
    the chunks, the insert of the File record, the inserts of the chunk
    records in the same order, and the removal of the cache entry. *)
Definition write_calls (wh : WriteHandler.WriteHandler) (data : list byte) (w : World)
    : list Call :=
  let fileID := uuids w (uuid_next w) in
  (put_call fileID <$> chunks_of wh data)
  ++ [TidbInsertFile fileID]
  ++ (TidbInsertChunk <$> chunk_ids w (length (chunks_of wh data)))
  ++ [RedisDel (storage.cache_key fileID)].

(** The strings without the separator of object keys. *)
Fixpoint slash_free (s : string) : bool :=
  match s with
  | EmptyString => true
  | String a s' => negb (Ascii.eqb a "/") && slash_free s'
  end.

(** A request, with the failures of the services while it is served: a
    write of a body under a file name, or a read of a file identifier with
    the completion order of its fetches. *)
Inductive Request : Type :=
  | PutWrite (filename : string) (body : Reader) (fuel : nat) (f : Faults)
  | GetRead (fileID : string) (sched : nat → list nat) (f : Faults).

(** The world after a request was served, and after a sequence of
    requests was served, one after the other. *)
Definition serve (wh : WriteHandler.WriteHandler) (w : World) (req : Request) : World :=
  match req with
  | PutWrite filename body fuel f =>
    (WriteHandler.ServeHTTP wh fuel filename body (with_faults f w)).2
  | GetRead fileID sched f =>
    (ReadHandler.ServeHTTP sched fileID (with_faults f w)).2
  end.

Definition serve_all (wh : WriteHandler.WriteHandler) (reqs : list Request) (w : World)
    : World :=
  foldl (serve wh) w reqs.

(** The file [fileID] is in [w] as it was in [w1]: its File record is
    [file], its chunk records and their objects are those of [w1], the
    cache holds no other File record for it, and the identifiers to come
    are still new. *)
Definition keeps_file (fileID : string) (file : File) (w1 w : World) : Prop :=
  fresh_uuids w
  ∧ same_file fileID w1 w
  ∧ files w !! fileID = Some file
  ∧ ∀ cached ttl, cache w !! storage.cache_key fileID = Some (cached, ttl) → cached = file.

End vocabulary_more.

(** Requests that follow the write of [written_world]: another write, a
    read of the first file while the cache is down, a write whose body
    breaks, a write during which the insert of a record is refused, a read
    of the second file with a cache that refuses writes, a write without a
    name, and a read of the first file that fills the cache. *)
Definition later_requests : list Request :=
  [PutWrite "other.bin" (mkReader [xff; xfe; xfd; xfc; xfb] EOF) 6 no_faults;
   GetRead "uuid-0" in_order cache_down;
   PutWrite "broken.bin" (mkReader bytes10 (Errorf "connection reset by peer")) 11
            no_faults;
   PutWrite "refused.bin" (mkReader bytes10 EOF) 11
            (mkFaults (λ _, None) (λ _, None) (λ _, None) (λ _, None)
                      (λ id, if decide (id = "uuid-10")
                             then Some (Errorf "connection refused") else None)
                      (λ _, None) (λ _, None) (λ _, None) (λ _, None) (λ _, None));
   GetRead "uuid-4" (λ n, reverse (seq 0 n)) read_only_cache;
   PutWrite "" (mkReader bytes10 EOF) 11 no_faults;
   GetRead "uuid-0" in_order no_faults].

(** * Properties of the chunker *)


Section chunker_facts.
Import models chunker chunker_spec.
Context {H : Sha256}.

Lemma wrap64_small z : - 2 ^ 63 ≤ z ≤ max_int64 → wrap64 z = z.
Proof.
  unfold wrap64, max_int64. intros Hz.
  rewrite Z.mod_small by lia. lia.
Qed.

Lemma make_len_pos s : 1 ≤ s ≤ maxAlloc → make_len s = Some (Z.to_nat s).
Proof. intros Hs. unfold make_len. case_decide; [lia | done]. Qed.

(** One pass of the loop on a clean stream, by the three cases of
    [io.ReadFull]. *)
Lemma ReadFull_empty len fin :
  (0 < len)%nat →
  ReadFull (mkReader [] fin) len
  = ([], Some fin, mkReader [] fin).
Proof.
  intros Hlen. unfold ReadFull; simpl.
  case_decide; [lia |]. case_decide; [lia |].
  by destruct fin.
Qed.

Lemma ReadFull_full len data fin :
  (0 < len ≤ length data)%nat →
  ReadFull (mkReader data fin) len
  = (take len data, None, mkReader (drop len data) fin).
Proof.
  intros Hlen. unfold ReadFull; simpl.
  case_decide; [lia |]. case_decide; [done | lia].
Qed.

Lemma ReadFull_short len data :
  (0 < length data < len)%nat →
  ReadFull (mkReader data EOF) len
  = (data, Some ErrUnexpectedEOF, mkReader [] EOF).
Proof.
  intros Hlen. unfold ReadFull; simpl.
  case_decide; [lia |]. case_decide; [lia |].
  case_decide; [subst; simpl in *; lia | done].
Qed.

(** The bound on the number of slices does not matter once it reaches
    the length of the data. *)
Lemma segments_bound s n m (l : list byte) :
  (0 < s)%nat → (length l ≤ n)%nat → (length l ≤ m)%nat →
  segments n s l = segments m s l.
Proof.
  intros Hs. revert m l. induction n as [|n IHn]; intros m l Hn Hm.
  - destruct l; [|simpl in *; lia]. by destruct m.
  - destruct m as [|m]; [destruct l; [done | simpl in *; lia] |].
    simpl. destruct l as [|x l]; [done |]. f_equal.
    apply IHn; rewrite length_drop; simpl in *; lia.
Qed.

(** The loop on a clean stream: it stops within [length data + 1] passes
    and has appended the chunks of the slices of the stream. *)
Lemma ChunkStream_loop_clean fuel c data acc totalSize orderIndex :
  1 ≤ chunkSize c ≤ maxAlloc →
  (length data < fuel)%nat →
  let segs := segments (length data) (Z.to_nat (chunkSize c)) data in
  ChunkStream_loop fuel c (mkReader data EOF) acc totalSize orderIndex
  = Done (acc ++ chunks_from segs orderIndex, total_from segs totalSize).
Proof.
  intros Hs. revert data acc totalSize orderIndex.
  induction fuel as [|fuel IH]; intros data acc totalSize orderIndex Hfuel; [lia |].
  simpl. rewrite make_len_pos by done.
  set (s := Z.to_nat (chunkSize c)). assert (0 < s)%nat by lia.
  destruct data as [|b data].
  - rewrite ReadFull_empty by done. simpl. by rewrite app_nil_r.
  - destruct (decide (s ≤ length (b :: data))%nat) as [Hle|Hgt].
    + rewrite ReadFull_full by lia.
      assert (length (take s (b :: data)) = s) as Hlen
        by (rewrite length_take; lia).
      rewrite Hlen. case_decide; [|lia].
      rewrite IH by (rewrite length_drop; simpl in *; lia).
      simpl length at 3. cbn [segments].
      cbn [chunks_from total_from]. rewrite Hlen.
      rewrite <- app_assoc. simpl.
      rewrite (segments_bound s (length (drop s (b :: data))) (length data))
        by (rewrite ?length_drop; simpl in *; lia).
      by rewrite Hlen.
    + rewrite ReadFull_short by (simpl in *; lia).
      case_decide; [|simpl in *; lia].
      assert (segments (length (b :: data)) s (b :: data) = [b :: data]) as ->.
      { cbn [length segments]. rewrite take_ge, drop_ge by lia.
        by destruct (length data). }
      done.
Qed.

(** *** The slices *)

Lemma segments_concat s n (data : list byte) :
  (0 < s)%nat → (length data ≤ n)%nat → concat (segments n s data) = data.
Proof.
  intros Hs. revert data. induction n as [|n IH]; intros data Hn.
  - by destruct data; [|simpl in *; lia].
  - destruct data as [|b data]; [done |].
    cbn [segments concat]. rewrite IH.
    + apply take_drop.
    + rewrite length_drop. simpl in *. lia.
Qed.

Lemma segments_length s n (data : list byte) :
  (0 < s)%nat → (length data ≤ n)%nat →
  Z.of_nat (length (segments n s data))
  = (Z.of_nat (length data) + Z.of_nat s - 1) / Z.of_nat s.
Proof.
  intros Hs. revert data. induction n as [|n IH]; intros data Hn.
  - destruct data; [|simpl in *; lia]. simpl.
    symmetry. apply Z.div_small. lia.
  - destruct data as [|b data].
    { simpl. symmetry. apply Z.div_small. lia. }
    change (segments (S n) s (b :: data))
      with (take s (b :: data) :: segments n s (drop s (b :: data))).
    assert (0 < length (b :: data))%nat as Hpos by (simpl; lia).
    revert Hn Hpos. generalize (b :: data). clear b data. intros l Hn Hpos.
    rewrite length_cons, Nat2Z.inj_succ, IH by (rewrite length_drop; lia).
    rewrite length_drop.
    destruct (decide (s ≤ length l)%nat) as [Hle|Hgt].
    + replace (Z.of_nat (length l) + Z.of_nat s - 1)
        with (Z.of_nat (length l - s) + Z.of_nat s - 1 + 1 * Z.of_nat s)
        by lia.
      rewrite Z.div_add by lia. lia.
    + replace (length l - s)%nat with 0%nat by lia.
      rewrite (Z.div_small (Z.of_nat 0 + _ - 1)) by lia.
      replace (Z.of_nat (length l) + Z.of_nat s - 1)
        with (Z.of_nat (length l) - 1 + 1 * Z.of_nat s) by lia.
      rewrite Z.div_add by lia.
      rewrite Z.div_small by lia. lia.
Qed.

Lemma segments_sizes s n (data : list byte) i d :
  (0 < s)%nat → (length data ≤ n)%nat →
  segments n s data !! i = Some d →
  (1 ≤ length d ≤ s)%nat
  ∧ (S i < length (segments n s data) → length d = s)%nat.
Proof.
  intros Hs. revert data i. induction n as [|n IH]; intros data i Hn Hi.
  - by destruct data.
  - destruct data as [|b data]; [done |].
    cbn [segments] in *. destruct i as [|i]; simpl in Hi.
    + injection Hi as <-. rewrite length_take. split; [simpl; lia |].
      intros Hmore. simpl in Hmore.
      destruct (decide (s ≤ length (b :: data))%nat); [lia |].
      rewrite drop_ge in Hmore by lia.
      destruct n; simpl in Hmore; lia.
    + apply IH in Hi as [? Hfull]; [|rewrite length_drop; simpl in *; lia].
      split; [done |]. intros Hmore. apply Hfull. simpl in Hmore. lia.
Qed.

Lemma segments_nonempty s n (data : list byte) :
  data ≠ [] → (length data ≤ n)%nat → segments n s data ≠ [].
Proof.
  intros Hne Hn. destruct n as [|n]; destruct data; simpl in *; try done; lia.
Qed.

Lemma segments_total s n (data : list byte) :
  (0 < s)%nat → (length data ≤ n)%nat →
  foldr (λ d acc, Z.of_nat (length d) + acc) 0 (segments n s data)
  = Z.of_nat (length data).
Proof.
  intros Hs Hn.
  rewrite <- (segments_concat s n data) at 2 by done.
  induction (segments n s data) as [|d l IH]; [done |].
  simpl. rewrite length_app. lia.
Qed.

(** *** The chunk records built from the slices *)

Lemma chunks_from_Data segs orderIndex :
  Data <$> chunks_from segs orderIndex = segs.
Proof.
  revert orderIndex. induction segs as [|d segs IH]; intros; [done |].
  simpl. by rewrite IH.
Qed.

Lemma chunks_from_length segs orderIndex :
  length (chunks_from segs orderIndex) = length segs.
Proof. by rewrite <- (chunks_from_Data segs orderIndex) at 2; rewrite length_fmap. Qed.

Lemma chunks_from_lookup segs orderIndex i ch :
  0 ≤ orderIndex →
  orderIndex + Z.of_nat (length segs) ≤ max_int64 →
  chunks_from segs orderIndex !! i = Some ch →
  ∃ d, segs !! i = Some d
       ∧ ch = mkChunkData d (orderIndex + Z.of_nat i) (ComputeHash d)
                          (Z.of_nat (length d)).
Proof.
  revert orderIndex i. induction segs as [|d segs IH]; intros idx i Hlo Hhi Hi; [done |].
  destruct i as [|i]; simpl in Hi.
  - injection Hi as <-. exists d. split; [done |]. f_equal. lia.
  - simpl length in Hhi.
    rewrite wrap64_small in Hi by (unfold max_int64 in *; lia).
    apply IH in Hi as (d' & Hd' & ->); [|lia|lia].
    exists d'. split; [done |]. f_equal. lia.
Qed.

Lemma total_from_sum segs totalSize :
  0 ≤ totalSize →
  totalSize + foldr (λ d acc, Z.of_nat (length d) + acc) 0 segs ≤ max_int64 →
  total_from segs totalSize
  = totalSize + foldr (λ d acc, Z.of_nat (length d) + acc) 0 segs.
Proof.
  revert totalSize. induction segs as [|d segs IH]; intros t Hlo Hhi; simpl in *; [lia |].
  assert (0 ≤ foldr (λ d acc, Z.of_nat (length d) + acc) 0 segs) as Hpos.
  { clear. induction segs; simpl; lia. }
  rewrite wrap64_small by (unfold max_int64 in *; lia).
  rewrite IH by lia. lia.
Qed.

Lemma chunks_from_sizes segs orderIndex :
  foldr (λ ch acc, CD_Size ch + acc) 0 (chunks_from segs orderIndex)
  = foldr (λ d acc, Z.of_nat (length d) + acc) 0 segs.
Proof.
  revert orderIndex. induction segs as [|d segs IH]; intros; [done |].
  simpl. by rewrite IH.
Qed.

(** [ReassembleChunks] is concatenation. *)
Lemma ReassembleChunks_concat (l : list (list byte)) :
  ReassembleChunks l = concat l.
Proof.
  unfold ReassembleChunks.
  assert (∀ acc, foldl (λ result chunk, result ++ chunk) acc l = acc ++ concat l) as Hgen.
  { induction l as [|d l IH]; intros acc; simpl.
    - by rewrite app_nil_r.
    - by rewrite IH, app_assoc. }
  apply Hgen.
Qed.

End chunker_facts.

Section chunker_claims.
Import models chunker chunker_spec.
Context {H : Sha256}.

(** On any stream, clean or broken, a positive chunk size makes the loop
    return within [length + 1] passes. *)
Lemma ChunkStream_loop_returns fuel c r acc totalSize orderIndex :
  1 ≤ chunkSize c ≤ maxAlloc →
  (length (pending r) < fuel)%nat →
  returns (ChunkStream_loop fuel c r acc totalSize orderIndex).
Proof.
  intros Hs. revert r acc totalSize orderIndex.
  induction fuel as [|fuel IH]; intros [data fin] acc totalSize orderIndex Hfuel;
    simpl in Hfuel; [lia |].
  simpl. rewrite make_len_pos by done.
  set (s := Z.to_nat (chunkSize c)). assert (0 < s)%nat by lia.
  unfold ReadFull; simpl.
  case_decide; [lia |]. case_decide.
  - assert (length (take s data) = s) as -> by (rewrite length_take; lia).
    case_decide; [|lia].
    apply IH. simpl. rewrite length_drop. lia.
  - destruct fin; repeat case_decide; done.
Qed.

(** With a chunk size of 0 every pass reads nothing and reports no error:
    the loop is still running whatever the fuel. *)
Lemma ChunkStream_loop_zero fuel c r acc totalSize orderIndex :
  chunkSize c = 0 →
  ChunkStream_loop fuel c r acc totalSize orderIndex = OutOfFuel.
Proof.
  intros Hs. revert acc totalSize orderIndex.
  induction fuel as [|fuel IH]; intros; [done |].
  simpl. rewrite Hs. simpl. apply IH.
Qed.

(** C6. Segment count law: on an input of n bytes and a positive chunk
    size s, [ChunkStream] returns exactly ceil(n / s) chunks when n > 0
    (the count k with (k - 1) * s < n <= k * s), and no chunk with a
    total size of 0 when n = 0.  The chunk size is one the runtime can
    allocate, at most [maxAlloc] bytes: above it the call panics before it
    reads a byte (C10). *)
Theorem ChunkStream_segment_count (c : Chunker) (data : list byte) (fuel : nat) :
  1 ≤ chunkSize c ≤ maxAlloc →
  (length data < fuel)%nat →
  ∃ chunks totalSize,
    ChunkStream fuel c (mkReader data EOF) = Done (chunks, totalSize)
    ∧ (data ≠ [] →
       let n := Z.of_nat (length data) in
       let k := Z.of_nat (length chunks) in
       k = (n + chunkSize c - 1) / chunkSize c
       ∧ (k - 1) * chunkSize c < n ≤ k * chunkSize c)
    ∧ (data = [] → chunks = [] ∧ totalSize = 0).
Proof.
  intros Hs Hfuel. unfold ChunkStream.
  rewrite ChunkStream_loop_clean by done. simpl.
  set (s := Z.to_nat (chunkSize c)). assert (0 < s)%nat as Hs' by lia.
  eexists _, _. split; [done |]. split.
  - intros Hne. rewrite chunks_from_length.
    rewrite (segments_length s) by (done || lia).
    replace (Z.of_nat s) with (chunkSize c) by lia.
    split; [done |].
    set (n := Z.of_nat (length data)).
    pose proof (Z.div_mod (n + chunkSize c - 1) (chunkSize c)) as Hdm.
    pose proof (Z.mod_pos_bound (n + chunkSize c - 1) (chunkSize c)) as Hmod.
    nia.
  - intros ->. done.
Qed.

(** There are no more chunks than bytes. *)
Lemma segments_length_le s n (data : list byte) :
  (0 < s)%nat → (length data ≤ n)%nat →
  (length (segments n s data) ≤ length data)%nat.
Proof.
  intros Hs Hn.
  pose proof (segments_length s n data Hs Hn) as Hlen.
  pose proof (Z.div_mod (Z.of_nat (length data) + Z.of_nat s - 1) (Z.of_nat s)) as Hdm.
  pose proof (Z.mod_pos_bound (Z.of_nat (length data) + Z.of_nat s - 1) (Z.of_nat s)) as Hmod.
  nia.
Qed.

(** C7. For a non-empty input and a positive chunk size s, every chunk
    [ChunkStream] returns but the last has size exactly s, the last has a
    size between 1 and s, the order index of the i-th chunk is i (from 0,
    in input order), and the returned total size is the sum of the chunk
    sizes.  The input fits the Go integer types (at most 2^63 - 1
    bytes), and the chunk size is one the runtime can allocate (at most
    [maxAlloc] bytes: above it the call panics before it reads a byte,
    C10). *)
Theorem ChunkStream_segment_shape (c : Chunker) (data : list byte) (fuel : nat) :
  data ≠ [] →
  1 ≤ chunkSize c ≤ maxAlloc →
  Z.of_nat (length data) ≤ max_int64 →
  (length data < fuel)%nat →
  ∃ chunks totalSize,
    ChunkStream fuel c (mkReader data EOF) = Done (chunks, totalSize)
    ∧ chunks ≠ []
    ∧ concat (Data <$> chunks) = data
    ∧ (∀ i ch, chunks !! i = Some ch →
         OrderIndex ch = Z.of_nat i
         ∧ CD_Size ch = Z.of_nat (length (Data ch))
         ∧ ((S i < length chunks)%nat → CD_Size ch = chunkSize c)
         ∧ ((S i = length chunks)%nat → 1 ≤ CD_Size ch ≤ chunkSize c))
    ∧ totalSize = foldr (λ ch acc, CD_Size ch + acc) 0 chunks.
Proof.
  intros Hne Hs Hmax Hfuel. unfold ChunkStream.
  rewrite ChunkStream_loop_clean by done. simpl.
  set (s := Z.to_nat (chunkSize c)). assert (0 < s)%nat as Hs' by lia.
  set (segs := segments (length data) s data).
  pose proof (segments_length_le s (length data) data Hs' (le_n _)) as Hcount.
  fold segs in Hcount.
  eexists _, _. split; [done |]. split; [|split; [|split]].
  - intros Hnil. apply (f_equal length) in Hnil.
    rewrite chunks_from_length in Hnil.
    apply (segments_nonempty s (length data) data Hne (le_n _)).
    by apply nil_length_inv.
  - rewrite chunks_from_Data. by apply segments_concat.
  - intros i ch Hi.
    apply chunks_from_lookup in Hi as (d & Hd & ->); [|lia|lia].
    rewrite chunks_from_length. simpl.
    apply (segments_sizes s) in Hd as [Hrange Hfull]; [|done|done].
    fold segs in Hfull.
    split; [lia |]. split; [done |]. split; [|lia].
    intros Hmore. rewrite Hfull by done. lia.
  - rewrite total_from_sum.
    + by rewrite chunks_from_sizes.
    + done.
    + unfold segs. rewrite segments_total by done. lia.
Qed.

(** C10 (as the code has it). [ChunkStream] returns on every finite input
    stream, clean or broken, when the chunk size is at least 1 and no more
    than the runtime accepts to allocate.  With a chunk size of exactly 0
    the loop never advances the stream and is still running after any
    number of passes, even on an empty input.  With a negative chunk size,
    or one above the allocation limit of the runtime, the allocation of the
    buffer panics in the first pass, before a byte is read: the call ends,
    abnormally, instead of looping or returning. *)
Theorem ChunkStream_termination (c : Chunker) (r : Reader) (fuel : nat) :
  (1 ≤ chunkSize c ≤ maxAlloc → (length (pending r) < fuel)%nat →
     returns (ChunkStream fuel c r))
  ∧ (chunkSize c = 0 → ChunkStream fuel c r = OutOfFuel)
  ∧ (chunkSize c < 0 ∨ maxAlloc < chunkSize c → (0 < fuel)%nat →
     ChunkStream fuel c r = Panicked "runtime error: makeslice: len out of range").
Proof.
  split; [|split].
  - intros Hs Hfuel. by apply ChunkStream_loop_returns.
  - intros Hs. by apply ChunkStream_loop_zero.
  - intros Hs Hfuel. destruct fuel as [|fuel]; [lia |].
    unfold ChunkStream. simpl. unfold make_len. by rewrite decide_True.
Qed.

End chunker_claims.

(** ** Concrete runs of the chunker *)

Lemma ChunkStream_segment_count_witness :
  (* ten bytes in chunks of four: three chunks *)
  (∃ chunks totalSize,
     chunker.ChunkStream (H := example_digest) 11 (chunker.NewChunker 4)
       (mkReader bytes10 EOF) = Done (chunks, totalSize)
     ∧ Z.of_nat (length chunks) = (10 + 4 - 1) / 4
     ∧ Z.of_nat (length chunks) = 3)
  (* no byte: no chunk *)
  ∧ (∃ chunks totalSize,
       chunker.ChunkStream (H := example_digest) 1 (chunker.NewChunker 4)
         (mkReader [] EOF) = Done (chunks, totalSize)
       ∧ chunks = [] ∧ totalSize = 0).
Proof.
  split.
  - destruct (ChunkStream_segment_count (H := example_digest)
                (chunker.NewChunker 4) bytes10 11)
      as (chunks & totalSize & Hrun & Hpos & _); [cbv [maxAlloc]; simpl; lia | cbv [maxAlloc]; simpl; lia |].
    exists chunks, totalSize. split; [exact Hrun |].
    destruct (Hpos ltac:(discriminate)) as [Hk Hbounds]. simpl in Hk, Hbounds.
    split; [exact Hk | lia].
  - destruct (ChunkStream_segment_count (H := example_digest)
                (chunker.NewChunker 4) [] 1)
      as (chunks & totalSize & Hrun & _ & Hnil); [cbv [maxAlloc]; simpl; lia | cbv [maxAlloc]; simpl; lia |].
    exists chunks, totalSize. split; [exact Hrun | exact (Hnil eq_refl)].
Defined.

Lemma ChunkStream_segment_shape_witness :
  ∃ chunks totalSize,
    chunker.ChunkStream (H := example_digest) 11 (chunker.NewChunker 4)
      (mkReader bytes10 EOF) = Done (chunks, totalSize)
    ∧ chunks ≠ []
    ∧ concat (models.Data <$> chunks) = bytes10
    ∧ (∀ i ch, chunks !! i = Some ch →
         models.OrderIndex ch = Z.of_nat i
         ∧ models.CD_Size ch = Z.of_nat (length (models.Data ch))
         ∧ ((S i < length chunks)%nat → models.CD_Size ch = 4)
         ∧ ((S i = length chunks)%nat → 1 ≤ models.CD_Size ch ≤ 4))
    ∧ totalSize = foldr (λ ch acc, models.CD_Size ch + acc) 0 chunks.
Proof.
  apply (ChunkStream_segment_shape (H := example_digest)
           (chunker.NewChunker 4) bytes10 11);
    [done | cbv [maxAlloc]; simpl; lia | unfold max_int64; simpl; lia | cbv [maxAlloc]; simpl; lia].
Defined.

Lemma ChunkStream_termination_witness :
  returns (chunker.ChunkStream (H := example_digest) 11 (chunker.NewChunker 4)
             (mkReader bytes10 (Errorf "connection reset by peer")))
  ∧ chunker.ChunkStream (H := example_digest) 1000 (chunker.NewChunker 0)
      (mkReader [] EOF) = OutOfFuel
  ∧ chunker.ChunkStream (H := example_digest) 1 (chunker.NewChunker (-1048576))
      (mkReader [] EOF) = Panicked "runtime error: makeslice: len out of range"
  ∧ chunker.ChunkStream (H := example_digest) 11 (chunker.NewChunker (2 ^ 62))
      (mkReader bytes10 EOF) = Panicked "runtime error: makeslice: len out of range".
Proof.
  split; [|split; [|split]].
  - apply (ChunkStream_termination (H := example_digest) (chunker.NewChunker 4)
             (mkReader bytes10 (Errorf "connection reset by peer")) 11);
      cbv [maxAlloc]; simpl; lia.
  - by apply (ChunkStream_termination (H := example_digest) (chunker.NewChunker 0)
                (mkReader [] EOF) 1000).
  - apply (ChunkStream_termination (H := example_digest) (chunker.NewChunker (-1048576))
             (mkReader [] EOF) 1); cbv [maxAlloc]; simpl; lia.
  - apply (ChunkStream_termination (H := example_digest) (chunker.NewChunker (2 ^ 62))
             (mkReader bytes10 EOF) 11); cbv [maxAlloc]; simpl; lia.
Defined.

(** C10 as stated fails for negative sizes: with [CHUNK_SIZE_MB=-1] the
    call on an empty input ends in its first pass, with a panic.  Nor does
    every chunk size of at least 1 make the call return: with
    [CHUNK_SIZE_MB=4398046511104] the chunk size is [1 << 62] and the call
    panics in its first pass, whatever the input. *)
Lemma ChunkStream_negative_size_ends :
  config.GetChunkSizeBytes (config.mkConfig (-1)) = -1048576
  ∧ chunker.ChunkStream (H := example_digest) 1
      (chunker.NewChunker (config.GetChunkSizeBytes (config.mkConfig (-1))))
      (mkReader [] EOF)
    = Panicked "runtime error: makeslice: len out of range"
  ∧ chunker.ChunkStream (H := example_digest) 1
      (chunker.NewChunker (config.GetChunkSizeBytes (config.mkConfig (-1))))
      (mkReader [] EOF)
    ≠ OutOfFuel
  ∧ config.GetChunkSizeBytes (config.mkConfig 4398046511104) = 2 ^ 62
  ∧ 1 ≤ config.GetChunkSizeBytes (config.mkConfig 4398046511104)
  ∧ chunker.ChunkStream (H := example_digest) 11
      (chunker.NewChunker (config.GetChunkSizeBytes (config.mkConfig 4398046511104)))
      (mkReader bytes10 EOF)
    = Panicked "runtime error: makeslice: len out of range".
Proof.
  split; [reflexivity |]. split; [reflexivity |]. split; [discriminate |].
  split; [reflexivity |]. split; [vm_compute; discriminate | reflexivity].
Qed.

(** * Properties of the handlers *)

Ltac unfold_M :=
  unfold mbind, M_bind, mret, M_ret, call, get_world, modify, Printf, uuid_New in *.

Section write_claims.
Import models handlers handlers.WriteHandler.
Context {H : Sha256}.

Lemma UploadChunk_calls key data w :
  calls (storage.UploadChunk key data w).2 = calls w ++ [MinioPutObject key data].
Proof.
  unfold storage.UploadChunk. unfold_M. simpl.
  by destruct (minio_put_fault (faults w) key).
Qed.

Lemma uploadChunks_loop_spec fileID chunks acc w :
  ∃ k : nat,
    (k ≤ length chunks)%nat
    ∧ calls (uploadChunks_loop fileID chunks acc w).2
      = calls w ++ (put_call fileID <$> take k chunks)
    ∧ ∀ chunkModels,
        (uploadChunks_loop fileID chunks acc w).1 = Ok chunkModels →
        k = length chunks
        ∧ ∃ ids, length ids = length chunks
                 ∧ chunkModels
                   = acc ++ zip_with (λ id c, chunk_model id fileID c) ids chunks.
Proof.
  revert acc w. induction chunks as [|c chunks IH]; intros acc w.
  - exists 0%nat. simpl. rewrite app_nil_r. repeat split; [done |].
    injection H0 as <-. exists []. by rewrite app_nil_r.
  - cbn [uploadChunks_loop]. unfold_M. cbn [uuid_New].
    pose proof (UploadChunk_calls (objectKey fileID (OrderIndex c)) (Data c)
                  (set_uuid_next S w)) as Hcalls.
    destruct (storage.UploadChunk (objectKey fileID (OrderIndex c)) (Data c)
                (set_uuid_next S w)) as [[err|] w1] eqn:Hup; simpl in Hcalls.
    + exists 1%nat. simpl. split; [lia |]. split; [by rewrite Hcalls | done].
    + destruct (IH (acc ++ [mkChunk (uuids w (uuid_next w)) fileID (OrderIndex c)
                              (Hash c) (objectKey fileID (OrderIndex c)) (CD_Size c)])
                  w1) as (k & Hk & Hc & Hok).
      exists (S k). simpl. split; [lia |]. split.
      * rewrite Hc, Hcalls. by rewrite <- app_assoc.
      * intros chunkModels Hres. apply Hok in Hres as (-> & ids & Hids & ->).
        split; [done |]. exists (uuids w (uuid_next w) :: ids).
        split; [simpl; lia |]. by rewrite <- app_assoc.
Qed.

(** C2 (as the code has it). For every write and every chunk produced,
    the object key under which the bytes of the chunk are uploaded is
    exactly [chunks/{file_id}/{order_index}]: the uploads made are those of
    the chunks, in order, up to the first upload that fails, and on success
    every chunk was uploaded and its metadata record carries that key. *)
Theorem uploadChunks_object_keys (fileID : string) (chunks : list ChunkData) (w : World) :
  ∃ k : nat,
    (k ≤ length chunks)%nat
    ∧ calls (uploadChunks fileID chunks w).2
      = calls w
        ++ ((λ c, MinioPutObject
                    ("chunks/" +:+ fileID +:+ "/" +:+ pretty (OrderIndex c)) (Data c))
              <$> take k chunks)
    ∧ ∀ chunkModels,
        (uploadChunks fileID chunks w).1 = Ok chunkModels →
        k = length chunks
        ∧ Forall2 (λ c m,
                     Chunk_MinioObjectKey m
                     = "chunks/" +:+ fileID +:+ "/" +:+ pretty (OrderIndex c)
                     ∧ Chunk_FileID m = fileID
                     ∧ Chunk_OrderIndex m = OrderIndex c
                     ∧ Chunk_Hash m = Hash c
                     ∧ Chunk_Size m = CD_Size c)
                  chunks chunkModels.
Proof.
  destruct (uploadChunks_loop_spec fileID chunks [] w) as (k & Hk & Hc & Hok).
  exists k. split; [done |]. split; [done |].
  intros chunkModels Hres. apply Hok in Hres as (-> & ids & Hids & ->).
  split; [done |]. simpl. clear -Hids.
  revert ids Hids. induction chunks as [|c chunks IH]; intros [|id ids] Hids;
    simpl in *; try done.
  constructor; [done |]. apply IH. lia.
Qed.

End write_claims.

(** C2 as stated fails: the key of the upload starts with [chunks/], not
    with [segments/]. *)
Lemma uploadChunks_key_prefix :
  let c := models.mkChunkData [x61] 0 (chunker.ComputeHash (H := example_digest) [x61]) 1 in
  calls (handlers.WriteHandler.uploadChunks "f" [c] empty_world).2
  = [MinioPutObject "chunks/f/0" [x61]]
  ∧ calls (handlers.WriteHandler.uploadChunks "f" [c] empty_world).2
    ≠ [MinioPutObject "segments/f/0" [x61]].
Proof. split; [reflexivity | discriminate]. Qed.

(** ** The fan-out of the read path *)

Section fetch_facts.
Import models handlers handlers.ReadHandler.
Context {H : Sha256}.

Lemma same_blobs_refl w : same_blobs w w.
Proof. done. Qed.

Lemma same_blobs_trans w1 w2 w3 : same_blobs w1 w2 → same_blobs w2 w3 → same_blobs w1 w3.
Proof. unfold same_blobs. intros [-> ->] [-> ->]. done. Qed.

Lemma download_same_blobs w w' key : same_blobs w w' → download w key = download w' key.
Proof.
  intros [Hb Hf]. unfold download, storage.DownloadChunk. unfold_M. simpl.
  rewrite Hb, Hf. by repeat case_match.
Qed.

Lemma fetch_result_same_blobs w w' idx meta :
  same_blobs w w' → fetch_result w idx meta = fetch_result w' idx meta.
Proof. intros Hs. unfold fetch_result. by rewrite (download_same_blobs w w'). Qed.

Lemma unit_fails_same_blobs w w' meta :
  same_blobs w w' → unit_fails w meta ↔ unit_fails w' meta.
Proof. intros Hs. unfold unit_fails. by rewrite (download_same_blobs w w'). Qed.

Lemma DownloadChunk_world key w :
  (storage.DownloadChunk key w).2 = set_calls (λ cs, cs ++ [MinioGetObject key]) w.
Proof.
  unfold storage.DownloadChunk. unfold_M. simpl. by repeat case_match.
Qed.

Lemma fetch_unit_spec w0 metas idx meta st w :
  metas !! idx = Some meta →
  same_blobs w0 w →
  fetch_unit idx meta st w
  = (apply_unit w0 metas st idx,
     set_calls (λ cs, cs ++ [MinioGetObject (Chunk_MinioObjectKey meta)]) w).
Proof.
  intros Hmeta Hs. unfold fetch_unit, apply_unit. rewrite Hmeta.
  rewrite (fetch_result_same_blobs w0 w) by done.
  unfold fetch_result, download. unfold_M.
  pose proof (DownloadChunk_world (Chunk_MinioObjectKey meta) w) as Hw.
  destruct (storage.DownloadChunk (Chunk_MinioObjectKey meta) w) as [[data|err] w1];
    simpl in *; subst w1; [|done].
  by destruct (chunker.VerifyChunkHash data (Chunk_Hash meta)).
Qed.

Lemma get_calls_minio metas order :
  filter is_minio_call (get_calls metas order) = get_calls metas order.
Proof.
  unfold get_calls. induction order as [|i l IH]; [done |].
  cbn [omap list_omap]. destruct (metas !! i) as [m|]; simpl; [|done].
  rewrite filter_cons_True by done. by f_equal.
Qed.

Lemma run_units_spec w0 order metas st w :
  same_blobs w0 w →
  run_units order metas st w
  = (foldl (apply_unit w0 metas) st order,
     set_calls (λ cs, cs ++ get_calls metas order) w).
Proof.
  revert st w. induction order as [|idx order IH]; intros st w Hs.
  - simpl. unfold_M. f_equal. destruct w; unfold set_calls; simpl.
    by rewrite app_nil_r.
  - cbn [run_units foldl]. unfold get_calls. cbn [omap].
    destruct (metas !! idx) as [meta|] eqn:Hmeta; simpl.
    + unfold_M. rewrite (fetch_unit_spec w0 metas) by done.
      rewrite IH by (destruct Hs; by split).
      f_equal. destruct w; unfold set_calls, get_calls; simpl.
      rewrite Hmeta. simpl. by rewrite <- app_assoc.
    + rewrite IH by done. f_equal.
      * assert (apply_unit w0 metas st idx = st) as ->; [|done].
        unfold apply_unit. by rewrite Hmeta.
      * unfold get_calls. simpl. by rewrite Hmeta.
Qed.

(** [apply_unit] never resizes the slice of results. *)
Lemma foldl_apply_unit_length w metas order st :
  length (chunkData (foldl (apply_unit w metas) st order)) = length (chunkData st).
Proof.
  revert st. induction order as [|idx order IH]; intros st; [done |].
  simpl. rewrite IH. unfold apply_unit.
  repeat case_match; simpl; by rewrite ?length_insert.
Qed.

(** The slot at index [i] after the units of [order] have completed: the
    verified bytes of chunk [i] if its unit ran and succeeded, and what the
    slot held before otherwise. *)
Lemma foldl_apply_unit_lookup w metas order st i :
  chunkData (foldl (apply_unit w metas) st order) !! i
  = match metas !! i with
    | Some meta =>
      match fetch_result w i meta with
      | Ok data =>
        if decide (i ∈ order ∧ (i < length (chunkData st))%nat) then Some data
        else chunkData st !! i
      | Err _ => chunkData st !! i
      end
    | None => chunkData st !! i
    end.
Proof.
  revert st. induction order as [|idx order IH]; intros st.
  - simpl. destruct (metas !! i) as [meta|]; [|done].
    by destruct (fetch_result w i meta).
  - cbn [foldl]. rewrite IH.
    assert (length (chunkData (apply_unit w metas st idx)) = length (chunkData st))
      as Hlen by apply (foldl_apply_unit_length w metas [idx] st).
    rewrite Hlen.
    destruct (decide (idx = i)) as [->|Hne].
    + unfold apply_unit.
      destruct (metas !! i) as [meta|] eqn:Hmeta; [|done].
      destruct (fetch_result w i meta) as [data|e] eqn:Hres; simpl; [|done].
      destruct (decide (i < length (chunkData st))%nat) as [Hlt|Hge].
      * rewrite list_lookup_insert_eq by done.
        rewrite (decide_True (P := i ∈ i :: order ∧ _))
          by (split; [apply elem_of_cons; by left | done]).
        by destruct (decide _).
      * rewrite list_insert_ge by lia.
        rewrite !decide_False by (intros [_ ?]; lia). done.
    + assert (chunkData (apply_unit w metas st idx) !! i = chunkData st !! i) as ->.
      { unfold apply_unit. destruct (metas !! idx) as [meta'|]; [|done].
        destruct (fetch_result w idx meta'); simpl; [|done].
        by rewrite list_lookup_insert_ne. }
      destruct (metas !! i) as [meta|]; [|done].
      destruct (fetch_result w i meta) as [data|e]; [|done].
      apply decide_ext. rewrite elem_of_cons. split.
      * intros [Hin ?]. split; [by right | done].
      * intros [[Heq|Hin] ?]; [by subst | by split].
Qed.

Lemma foldl_apply_unit_errChan w metas order st :
  errChan (foldl (apply_unit w metas) st order)
  = errChan st ++ omap (unit_error w metas) order.
Proof.
  revert st. induction order as [|idx order IH]; intros st; simpl.
  - by rewrite app_nil_r.
  - rewrite IH. unfold apply_unit, unit_error.
    destruct (metas !! idx) as [meta|]; [|done].
    destruct (fetch_result w idx meta); simpl; [done |].
    by rewrite <- app_assoc.
Qed.

Lemma unit_fails_fetch_result w idx meta :
  unit_fails w meta ↔ ∃ e, fetch_result w idx meta = Err e.
Proof.
  unfold unit_fails, fetch_result, chunker.VerifyChunkHash.
  destruct (download w (Chunk_MinioObjectKey meta)) as [data|err].
  - case_bool_decide; split; try done.
    + by intros [e ?].
    + intros _. by eexists.
  - split; [intros _; by eexists | done].
Qed.

Lemma unit_ok_fetch_result w idx meta :
  ¬ unit_fails w meta →
  ∃ data, fetch_result w idx meta = Ok data
          ∧ download w (Chunk_MinioObjectKey meta) = Ok data
          ∧ chunker.ComputeHash data = Chunk_Hash meta.
Proof.
  unfold unit_fails, fetch_result, chunker.VerifyChunkHash.
  destruct (download w (Chunk_MinioObjectKey meta)) as [data|err]; [|done].
  intros Hok. exists data. case_bool_decide; [done |]. by destruct Hok.
Qed.

Lemma foldl_apply_unit_permutation w metas order :
  order ≡ₚ seq 0 (length metas) →
  chunkData (foldl (apply_unit w metas) (mkFanIn (replicate (length metas) []) []) order)
  = final_slots w metas.
Proof.
  intros Hperm. apply list_eq. intros i.
  rewrite foldl_apply_unit_lookup. unfold final_slots. simpl.
  rewrite list_lookup_imap, length_replicate.
  destruct (metas !! i) as [meta|] eqn:Hmeta; simpl.
  - apply lookup_lt_Some in Hmeta as Hlt.
    destruct (fetch_result w i meta).
    + case_decide as Hin; [done |]. exfalso. apply Hin. split; [|done].
      rewrite Hperm. apply elem_of_seq. lia.
    + by apply lookup_replicate_2.
  - apply lookup_ge_None in Hmeta. apply lookup_replicate_None. lia.
Qed.

(** [fetchChunksParallel], with the goroutines put away. *)
Lemma fetchChunksParallel_spec order metas w :
  fetchChunksParallel order metas w
  = (match omap (unit_error w metas) order with
     | e :: _ => Err e
     | [] => Ok (chunkData (foldl (apply_unit w metas)
                              (mkFanIn (replicate (length metas) []) []) order))
     end,
     set_calls (λ cs, cs ++ get_calls metas order) w).
Proof.
  unfold fetchChunksParallel. unfold_M.
  rewrite (run_units_spec w) by apply same_blobs_refl.
  rewrite foldl_apply_unit_errChan. simpl.
  by destruct (omap (unit_error w metas) order).
Qed.

Lemma download_ok_bucket w key data :
  download w key = Ok data → bucket w !! key = Some data.
Proof.
  unfold download, storage.DownloadChunk. unfold_M. unfold set_calls. simpl.
  destruct (minio_get_fault (faults w) key); [done |].
  destruct (minio_read_fault (faults w) key); [done |].
  destruct (bucket w !! key); [|done]. by intros [= ->].
Qed.

(** A fan-out that returns data returns, slot by slot, the object stored
    under the key of the chunk record, and that object has the recorded
    hash. *)
Lemma fetchChunksParallel_ok_slots order metas w slots :
  order ≡ₚ seq 0 (length metas) →
  (ReadHandler.fetchChunksParallel order metas w).1 = Ok slots →
  Forall2 (λ meta data,
             bucket w !! Chunk_MinioObjectKey meta = Some data
             ∧ chunker.ComputeHash data = Chunk_Hash meta)
          metas slots.
Proof.
  intros Hperm. rewrite fetchChunksParallel_spec. cbn [fst].
  destruct (omap (unit_error w metas) order) as [|e es] eqn:Herr; [|done].
  intros [= <-]. rewrite foldl_apply_unit_permutation by done.
  apply Forall2_same_length_lookup. split; [by unfold final_slots; rewrite length_imap |].
  intros i meta data Hmeta Hdata.
  unfold final_slots in Hdata. rewrite list_lookup_imap, Hmeta in Hdata.
  simpl in Hdata. injection Hdata as <-.
  assert (unit_error w metas i = None) as Hnone.
  { destruct (unit_error w metas i) as [e|] eqn:He; [|done].
    assert (e ∈ omap (unit_error w metas) order) as Hin.
    { apply list_elem_of_omap. exists i. split; [|done].
      rewrite Hperm. apply elem_of_seq. apply lookup_lt_Some in Hmeta. lia. }
    rewrite Herr in Hin. by apply not_elem_of_nil in Hin. }
  unfold unit_error in Hnone. rewrite Hmeta in Hnone.
  destruct (fetch_result w i meta) as [d|] eqn:Hres; [|done].
  unfold fetch_result in Hres.
  destruct (download w (Chunk_MinioObjectKey meta)) as [d'|] eqn:Hd; [|done].
  unfold chunker.VerifyChunkHash in Hres. case_bool_decide; [|done].
  injection Hres as <-. split; [by apply download_ok_bucket | done].
Qed.

(** One failing unit makes the fan-out fail, whatever the completion
    order. *)
Lemma fetchChunksParallel_fails order metas w :
  order ≡ₚ seq 0 (length metas) →
  (∃ i meta, metas !! i = Some meta ∧ unit_fails w meta) →
  ∃ e, (fetchChunksParallel order metas w).1 = Err e.
Proof.
  intros Hperm (i & meta & Hmeta & Hfail).
  rewrite fetchChunksParallel_spec. cbn [fst].
  apply (unit_fails_fetch_result w i) in Hfail as [e He].
  assert (e ∈ omap (unit_error w metas) order) as Hin.
  { apply list_elem_of_omap. exists i. split.
    - rewrite Hperm. apply elem_of_seq. apply lookup_lt_Some in Hmeta. lia.
    - unfold unit_error. by rewrite Hmeta, He. }
  destruct (omap (unit_error w metas) order) as [|e' es]; [|by eexists].
  by apply not_elem_of_nil in Hin.
Qed.

(** Without a failing unit the fan-out returns every slot filled. *)
Lemma fetchChunksParallel_succeeds order metas w :
  order ≡ₚ seq 0 (length metas) →
  (∀ i meta, metas !! i = Some meta → ¬ unit_fails w meta) →
  ∃ slots,
    (fetchChunksParallel order metas w).1 = Ok slots
    ∧ length slots = length metas
    ∧ ∀ i meta, metas !! i = Some meta →
        ∃ data, slots !! i = Some data
                ∧ (storage.DownloadChunk (Chunk_MinioObjectKey meta) w).1 = Ok data
                ∧ chunker.ComputeHash data = Chunk_Hash meta.
Proof.
  intros Hperm Hok. rewrite fetchChunksParallel_spec. cbn [fst].
  assert (omap (unit_error w metas) order = []) as ->.
  { clear Hperm. induction order as [|i order IH]; [done |].
    cbn [omap list_omap]. fold (omap (unit_error w metas) order). rewrite IH.
    unfold unit_error. destruct (metas !! i) as [meta|] eqn:Hmeta; [|done].
    destruct (unit_ok_fetch_result w i meta (Hok i meta Hmeta)) as (data & -> & _).
    done. }
  eexists. split; [done |].
  rewrite foldl_apply_unit_permutation by done. unfold final_slots.
  split; [by rewrite length_imap |].
  intros i meta Hmeta.
  destruct (unit_ok_fetch_result w i meta (Hok i meta Hmeta)) as (data & Hres & Hd & Hh).
  exists data. rewrite list_lookup_imap, Hmeta. simpl. by rewrite Hres.
Qed.

(** Two completion orders give the same answer: the same data, or an
    error in both. *)
Lemma fetchChunksParallel_agree metas w order1 order2 :
  order1 ≡ₚ seq 0 (length metas) →
  order2 ≡ₚ seq 0 (length metas) →
  (∀ data, (fetchChunksParallel order1 metas w).1 = Ok data ↔
           (fetchChunksParallel order2 metas w).1 = Ok data)
  ∧ ((∃ e, (fetchChunksParallel order1 metas w).1 = Err e) ↔
     (∃ e, (fetchChunksParallel order2 metas w).1 = Err e)).
Proof.
  intros Hp1 Hp2.
  rewrite !fetchChunksParallel_spec. cbn [fst].
  rewrite !foldl_apply_unit_permutation by done.
  assert (omap (unit_error w metas) order1 = [] ↔
          omap (unit_error w metas) order2 = []) as Hnil.
  { assert (omap (unit_error w metas) order1 ≡ₚ omap (unit_error w metas) order2) as Hp
      by (by rewrite Hp1, Hp2).
    split; intros Hn; rewrite Hn in Hp.
    - symmetry in Hp. by apply Permutation_nil_r in Hp.
    - by apply Permutation_nil_r in Hp. }
  destruct (omap (unit_error w metas) order1) as [|e1 es1];
    destruct (omap (unit_error w metas) order2) as [|e2 es2]; try done.
  - by pose proof (proj1 Hnil eq_refl).
  - by pose proof (proj2 Hnil eq_refl).
  - split; [done |]. split; intros _; by eexists.
Qed.

End fetch_facts.

(** ** The read handler *)

Section read_facts.
Import models handlers handlers.ReadHandler.
Context {H : Sha256}.

Lemma read_frame_same_blobs w w' : read_frame w w' → same_blobs w w'.
Proof. intros (? & ? & _). by split. Qed.

Ltac unfold_read :=
  unfold getFileMetadata, getChunkMetadata, storage.GetFileMetadata, storage.GetFile,
    storage.SetFileMetadata, storage.GetChunks; unfold_M; simpl.

Ltac frame_solve :=
  unfold read_frame; simpl; rewrite ?filter_app; simpl; rewrite ?app_nil_r; done.

Lemma getFileMetadata_frame fileID w :
  read_frame w (getFileMetadata fileID w).2.
Proof.
  unfold_read.
  destruct (redis_get_fault (faults w) (storage.cache_key fileID)) as [[]|];
    simpl; try frame_solve.
  - destruct (tidb_select_fault (faults w) fileID) as [[]|]; simpl; try frame_solve.
    destruct (files w !! fileID); simpl; try frame_solve.
    destruct (redis_set_fault (faults w) (storage.cache_key fileID)); simpl; frame_solve.
  - destruct (cache w !! storage.cache_key fileID) as [[file ttl]|]; simpl; try frame_solve.
    destruct (tidb_select_fault (faults w) fileID) as [[]|]; simpl; try frame_solve.
    destruct (files w !! fileID); simpl; try frame_solve.
    destruct (redis_set_fault (faults w) (storage.cache_key fileID)); simpl; frame_solve.
Qed.

(** [getFileMetadata] never returns [(nil, nil)]: a file missing from the
    store comes back as an error. *)
Lemma getFileMetadata_not_nil fileID w :
  (getFileMetadata fileID w).1 ≠ Ok None.
Proof.
  unfold_read.
  destruct (redis_get_fault (faults w) (storage.cache_key fileID)) as [[]|];
    simpl; try done.
  - destruct (tidb_select_fault (faults w) fileID) as [[]|]; simpl; try done.
    destruct (files w !! fileID); simpl; try done.
    by destruct (redis_set_fault (faults w) (storage.cache_key fileID)).
  - destruct (cache w !! storage.cache_key fileID) as [[file ttl]|]; simpl; try done.
    destruct (tidb_select_fault (faults w) fileID) as [[]|]; simpl; try done.
    destruct (files w !! fileID); simpl; try done.
    by destruct (redis_set_fault (faults w) (storage.cache_key fileID)).
Qed.

Lemma getChunkMetadata_spec fileID w :
  read_frame w (getChunkMetadata fileID w).2
  ∧ ∀ metas, (getChunkMetadata fileID w).1 = Ok metas →
             metas = storage.select_chunks fileID (chunks w).
Proof.
  unfold_read.
  destruct (tidb_select_fault (faults w) fileID); simpl; [split; [frame_solve | done] |].
  destruct (tidb_rows_fault (faults w) fileID); simpl; (split; [frame_solve |]);
    [done | by intros ? [= <-]].
Qed.

Lemma read_frame_trans w1 w2 w3 : read_frame w1 w2 → read_frame w2 w3 → read_frame w1 w3.
Proof.
  unfold read_frame. intros (-> & -> & -> & -> & ->) (-> & -> & -> & -> & ->). done.
Qed.

Lemma read_frame_logs f w : read_frame w (set_logs f w).
Proof. done. Qed.

(** The two ways a read with a file identifier goes: it fails before the
    fan-out, without a Blob Store call, or it runs the fan-out over the
    chunk records of the file and answers from its result. *)
Lemma ServeHTTP_inv sched fileID w :
  fileID ≠ "" →
  let resp := (ServeHTTP sched fileID w).1 in
  let w' := (ServeHTTP sched fileID w).2 in
  (∃ msg, resp = http_Error msg StatusInternalServerError ∧ read_frame w w')
  ∨ (∃ file w2,
       read_frame w w2
       ∧ let metas := storage.select_chunks fileID (chunks w) in
         let order := sched (length metas) in
         filter is_minio_call (calls w')
         = filter is_minio_call (calls w) ++ get_calls metas order
         ∧ match (fetchChunksParallel order metas w2).1 with
           | Err e =>
             resp = http_Error ("failed to fetch chunks: " +:+ Error e)
                               StatusInternalServerError
           | Ok slots => resp = ok_response file (chunker.ReassembleChunks slots)
           end).
Proof.
  intros Hid. unfold ServeHTTP. rewrite decide_False by done.
  unfold_M. cbn [fst snd].
  set (w0 := set_logs (λ ls, ls ++ ["Reading file: " +:+ fileID]) w).
  pose proof (getFileMetadata_frame fileID w0) as Hf1.
  pose proof (getFileMetadata_not_nil fileID w0) as Hnn.
  destruct (getFileMetadata fileID w0) as [[[file|]|err] w1]; simpl in Hf1, Hnn.
  - pose proof (getChunkMetadata_spec fileID w1) as [Hf2 Hsel].
    destruct (getChunkMetadata fileID w1) as [[metas|err] w2]; simpl in Hf2, Hsel.
    + right. rewrite (Hsel metas eq_refl).
      assert (chunks w = chunks w1) as -> by (by destruct Hf1 as (_ & _ & _ & -> & _)).
      set (ms := storage.select_chunks fileID (chunks w1)).
      exists file,
        (set_logs (λ ls, ls ++ ["Fetching " +:+ pretty (Z.of_nat (length ms))
                                +:+ " chunks in parallel..."]) w2).
      split.
      { eapply read_frame_trans; [exact Hf1 |].
        eapply read_frame_trans; [exact Hf2 | apply read_frame_logs]. }
      cbv zeta. rewrite !fetchChunksParallel_spec. cbn [fst snd].
      destruct Hf1 as (_ & _ & _ & _ & Hc1), Hf2 as (_ & _ & _ & _ & Hc2).
      destruct (omap _ (sched (length ms))) as [|e es]; simpl;
        (split; [|done]);
        rewrite filter_app, Hc2; simpl in Hc1; rewrite Hc1;
        f_equal; apply get_calls_minio.
    + left. eexists. split; [done |].
      eapply read_frame_trans; [exact Hf1 | exact Hf2].
  - done.
  - left. eexists. split; [done | exact Hf1].
Qed.

(** [ServeHTTP] is [resolve] followed by [respond]. *)
Lemma ServeHTTP_resolve sched fileID w :
  fileID ≠ "" →
  ServeHTTP sched fileID w
  = (r ← resolve fileID;
     match r with
     | inl resp => mret resp
     | inr (file, metas) => respond sched fileID file metas
     end) w.
Proof.
  intros Hid. unfold ServeHTTP, resolve, respond. rewrite decide_False by done.
  unfold_M. cbv beta iota zeta.
  destruct (getFileMetadata fileID _) as [[[file|]|err] w1]; cbv beta iota zeta;
    [|done|done].
  destruct (getChunkMetadata fileID w1) as [[metas|err] w2]; cbv beta iota zeta;
    [|done].
  destruct (fetchChunksParallel _ metas _) as [[slots|err] w3]; cbv beta iota zeta; done.
Qed.

(** A failing unit among the chunk records of the file makes the read
    answer 500. *)
Lemma ServeHTTP_fails_on_bad_chunk sched fileID w :
  fileID ≠ "" →
  (∀ n, sched n ≡ₚ seq 0 n) →
  (∃ i meta, storage.select_chunks fileID (chunks w) !! i = Some meta
             ∧ unit_fails w meta) →
  ∃ msg, (ServeHTTP sched fileID w).1 = http_Error msg StatusInternalServerError.
Proof.
  intros Hid Hsched (i & meta & Hmeta & Hfail).
  destruct (ServeHTTP_inv sched fileID w Hid)
    as [(msg & Hresp & _)|(file & w2 & Hframe & _ & Hfetch)]; [by eexists |].
  destruct (fetchChunksParallel_fails
              (sched (length (storage.select_chunks fileID (chunks w))))
              (storage.select_chunks fileID (chunks w)) w2 (Hsched _)) as [e He].
  { exists i, meta. split; [done |].
    by apply (unit_fails_same_blobs w w2 meta (read_frame_same_blobs _ _ Hframe)). }
  rewrite He in Hfetch. by eexists.
Qed.

(** A read that answers 200 returns the concatenation of the objects
    stored under the keys of the chunk records, each with the recorded
    hash. *)
Lemma ServeHTTP_ok_verified sched fileID w :
  fileID ≠ "" →
  (∀ n, sched n ≡ₚ seq 0 n) →
  StatusCode (ServeHTTP sched fileID w).1 = StatusOK →
  ∃ slots,
    ResponseBody (ServeHTTP sched fileID w).1 = Bytes (concat slots)
    ∧ Forall2 (λ meta data,
                 bucket w !! Chunk_MinioObjectKey meta = Some data
                 ∧ chunker.ComputeHash data = Chunk_Hash meta)
              (storage.select_chunks fileID (chunks w)) slots.
Proof.
  intros Hid Hsched Hok.
  destruct (ServeHTTP_inv sched fileID w Hid)
    as [(msg & Hresp & _)|(file & w2 & Hframe & _ & Hfetch)].
  { exfalso. by rewrite Hresp in Hok. }
  destruct (fetchChunksParallel _ _ w2).1 as [slots|e] eqn:Hslots;
    [|exfalso; by rewrite Hfetch in Hok].
  exists slots. rewrite Hfetch. simpl. rewrite ReassembleChunks_concat.
  split; [done |].
  apply fetchChunksParallel_ok_slots in Hslots; [|apply Hsched].
  destruct Hframe as (Hb & _). by rewrite Hb in Hslots.
Qed.

(** The response of a read does not depend on the completion order of its
    fetches: the status is the same, and so is the whole response when the
    read succeeds. *)
Lemma ServeHTTP_order_independent sched1 sched2 fileID w :
  (∀ n, sched1 n ≡ₚ seq 0 n) →
  (∀ n, sched2 n ≡ₚ seq 0 n) →
  StatusCode (ServeHTTP sched1 fileID w).1 = StatusCode (ServeHTTP sched2 fileID w).1
  ∧ (StatusCode (ServeHTTP sched1 fileID w).1 = StatusOK →
     (ServeHTTP sched1 fileID w).1 = (ServeHTTP sched2 fileID w).1).
Proof.
  intros Hs1 Hs2.
  destruct (decide (fileID = "")) as [Hempty|Hid].
  { unfold ServeHTTP. by rewrite !decide_True. }
  rewrite !ServeHTTP_resolve by done. unfold_M.
  destruct (resolve fileID w) as [[resp|[file metas]] w2]; cbv beta iota zeta; [done |].
  unfold respond. unfold_M.
  destruct (fetchChunksParallel_agree metas w2 (sched1 (length metas))
              (sched2 (length metas)) (Hs1 _) (Hs2 _)) as [Hdata Herr].
  destruct (fetchChunksParallel (sched1 (length metas)) metas w2) as [[d1|e1] w3];
    destruct (fetchChunksParallel (sched2 (length metas)) metas w2) as [[d2|e2] w4];
    cbn [fst snd] in *.
  - pose proof (proj1 (Hdata d1) eq_refl) as [= <-]. done.
  - by pose proof (proj1 (Hdata d1) eq_refl).
  - by pose proof (proj2 (Hdata d2) eq_refl).
  - done.
Qed.

End read_facts.

Section fetch_claims.
Import models handlers handlers.ReadHandler.
Context {H : Sha256}.

(** C5. If any fetch-and-verify unit of the fan-out fails (the download
    fails, or the SHA-256 digest of the downloaded bytes is not the recorded
    hash), [fetchChunksParallel] returns an error and no data, whatever the
    order in which the units complete, and the read answers 500; if no unit
    fails the fan-out returns the slice of results with every slot filled
    with the verified bytes of its chunk.  A read that answers 200 returns
    only objects whose digest is the recorded one: corrupted data is never
    returned. *)
Theorem fetchChunksParallel_all_or_nothing
    (order : list nat) (metas : list Chunk) (w : World)
    (sched : nat → list nat) (fileID : string) :
  order ≡ₚ seq 0 (length metas) →
  (∀ n, sched n ≡ₚ seq 0 n) →
  fileID ≠ "" →
  ((∃ i meta, metas !! i = Some meta ∧ unit_fails w meta) →
     ∃ e, (fetchChunksParallel order metas w).1 = Err e)
  ∧ ((∀ i meta, metas !! i = Some meta → ¬ unit_fails w meta) →
     ∃ slots,
       (fetchChunksParallel order metas w).1 = Ok slots
       ∧ length slots = length metas
       ∧ ∀ i meta, metas !! i = Some meta →
           ∃ data, slots !! i = Some data
                   ∧ (storage.DownloadChunk (Chunk_MinioObjectKey meta) w).1 = Ok data
                   ∧ chunker.ComputeHash data = Chunk_Hash meta)
  ∧ ((∃ i meta, storage.select_chunks fileID (chunks w) !! i = Some meta
                ∧ unit_fails w meta) →
     ∃ msg, (ServeHTTP sched fileID w).1 = http_Error msg StatusInternalServerError)
  ∧ (StatusCode (ServeHTTP sched fileID w).1 = StatusOK →
     ∃ slots,
       ResponseBody (ServeHTTP sched fileID w).1 = Bytes (concat slots)
       ∧ Forall2 (λ meta data,
                    bucket w !! Chunk_MinioObjectKey meta = Some data
                    ∧ chunker.ComputeHash data = Chunk_Hash meta)
                 (storage.select_chunks fileID (chunks w)) slots).
Proof.
  intros Hperm Hsched Hid. split; [|split; [|split]].
  - by apply fetchChunksParallel_fails.
  - by apply fetchChunksParallel_succeeds.
  - by apply ServeHTTP_fails_on_bad_chunk.
  - by apply ServeHTTP_ok_verified.
Qed.

(** C9. Order independence of fetch completion: for every fetch plan and
    every two orders in which the units complete, the slice of results they
    fill is the same, so is its reassembly, and the fan-out returns the same
    data or fails in both; the read answers with the same status under both
    orders and, when it succeeds, with the same response. *)
Theorem fetch_order_independence
    (metas : list Chunk) (w : World) (order1 order2 : list nat)
    (sched1 sched2 : nat → list nat) (fileID : string) :
  order1 ≡ₚ seq 0 (length metas) →
  order2 ≡ₚ seq 0 (length metas) →
  (∀ n, sched1 n ≡ₚ seq 0 n) →
  (∀ n, sched2 n ≡ₚ seq 0 n) →
  let st0 := mkFanIn (replicate (length metas) []) [] in
  let slots1 := chunkData (run_units order1 metas st0 w).1 in
  let slots2 := chunkData (run_units order2 metas st0 w).1 in
  slots1 = slots2
  ∧ reassembleFile slots1 = reassembleFile slots2
  ∧ (∀ data, (fetchChunksParallel order1 metas w).1 = Ok data ↔
             (fetchChunksParallel order2 metas w).1 = Ok data)
  ∧ ((∃ e, (fetchChunksParallel order1 metas w).1 = Err e) ↔
     (∃ e, (fetchChunksParallel order2 metas w).1 = Err e))
  ∧ StatusCode (ServeHTTP sched1 fileID w).1 = StatusCode (ServeHTTP sched2 fileID w).1
  ∧ (StatusCode (ServeHTTP sched1 fileID w).1 = StatusOK →
     (ServeHTTP sched1 fileID w).1 = (ServeHTTP sched2 fileID w).1).
Proof.
  intros Hp1 Hp2 Hs1 Hs2. cbv zeta.
  rewrite !(run_units_spec w) by apply same_blobs_refl. cbn [fst].
  rewrite !foldl_apply_unit_permutation by done.
  split; [done |]. split; [done |].
  destruct (fetchChunksParallel_agree metas w order1 order2 Hp1 Hp2) as [Hdata Herr].
  destruct (ServeHTTP_order_independent sched1 sched2 fileID w Hs1 Hs2) as [Hst Hresp].
  done.
Qed.

End fetch_claims.

(** ** Concrete runs of the handlers *)

Lemma written_chunks_keys :
  models.Chunk_MinioObjectKey <$> written_chunks
  = ["chunks/uuid-0/0"; "chunks/uuid-0/1"; "chunks/uuid-0/2"].
Proof. reflexivity. Qed.

Lemma fetchChunksParallel_all_or_nothing_witness :
  (* one corrupted object: the fan-out and the read fail *)
  ((∃ e, (handlers.ReadHandler.fetchChunksParallel (H := example_digest)
            [2; 0; 1]%nat written_chunks corrupted_world).1 = Err e)
   ∧ (∃ msg, (handlers.ReadHandler.ServeHTTP (H := example_digest)
                (λ n, reverse (seq 0 n)) "uuid-0" corrupted_world).1
             = handlers.http_Error msg handlers.StatusInternalServerError))
  (* no corruption: every slot is filled and the read returns the objects *)
  ∧ ((∃ slots,
        (handlers.ReadHandler.fetchChunksParallel (H := example_digest)
           [2; 0; 1]%nat written_chunks written_world).1 = Ok slots
        ∧ length slots = length written_chunks
        ∧ ∀ i meta, written_chunks !! i = Some meta →
            ∃ data, slots !! i = Some data
                    ∧ (storage.DownloadChunk (models.Chunk_MinioObjectKey meta)
                         written_world).1 = Ok data
                    ∧ chunker.ComputeHash (H := example_digest) data
                      = models.Chunk_Hash meta)
     ∧ (∃ slots,
          handlers.ResponseBody
            (handlers.ReadHandler.ServeHTTP (H := example_digest)
               (λ n, reverse (seq 0 n)) "uuid-0" written_world).1
          = handlers.Bytes (concat slots)
          ∧ Forall2 (λ meta data,
                       bucket written_world !! models.Chunk_MinioObjectKey meta
                       = Some data
                       ∧ chunker.ComputeHash (H := example_digest) data
                         = models.Chunk_Hash meta)
                    (storage.select_chunks "uuid-0" (chunks written_world)) slots)).
Proof.
  assert ([2; 0; 1]%nat ≡ₚ seq 0 (length written_chunks)) as Hperm
    by (refine (bool_decide_unpack _ _); vm_compute; exact I).
  assert (∀ n, reverse (seq 0 n) ≡ₚ seq 0 n) as Hsched
    by (intros n; apply reverse_Permutation).
  assert ("uuid-0" ≠ "") as Hid by discriminate.
  destruct (fetchChunksParallel_all_or_nothing (H := example_digest)
              [2; 0; 1]%nat written_chunks corrupted_world
              (λ n, reverse (seq 0 n)) "uuid-0" Hperm Hsched Hid)
    as (Hbad & _ & Hbad' & _).
  destruct (fetchChunksParallel_all_or_nothing (H := example_digest)
              [2; 0; 1]%nat written_chunks written_world
              (λ n, reverse (seq 0 n)) "uuid-0" Hperm Hsched Hid)
    as (_ & Hgood & _ & Hgood').
  split; [split | split].
  - apply Hbad. exists 1%nat. eexists. split; [reflexivity |].
    vm_compute. discriminate.
  - apply Hbad'. exists 1%nat. eexists. split; [vm_compute; reflexivity |].
    vm_compute. discriminate.
  - apply Hgood.
    intros [|[|[|i]]] meta Hmeta; vm_compute in Hmeta; try discriminate Hmeta;
      injection Hmeta as <-; vm_compute; intros Hne; by apply Hne.
  - apply Hgood'. vm_compute. reflexivity.
Defined.

Lemma fetch_order_independence_witness :
  (* one corrupted object: the same slots, and an error under both orders *)
  (let st0 := handlers.ReadHandler.mkFanIn (replicate (length written_chunks) []) [] in
   let slots1 := handlers.ReadHandler.chunkData
                   (handlers.ReadHandler.run_units (H := example_digest)
                      [0; 1; 2]%nat written_chunks st0 corrupted_world).1 in
   let slots2 := handlers.ReadHandler.chunkData
                   (handlers.ReadHandler.run_units (H := example_digest)
                      [2; 0; 1]%nat written_chunks st0 corrupted_world).1 in
   slots1 = slots2
   ∧ handlers.ReadHandler.reassembleFile slots1
     = handlers.ReadHandler.reassembleFile slots2
   ∧ ((∃ e, (handlers.ReadHandler.fetchChunksParallel (H := example_digest)
               [0; 1; 2]%nat written_chunks corrupted_world).1 = Err e) ↔
      (∃ e, (handlers.ReadHandler.fetchChunksParallel (H := example_digest)
               [2; 0; 1]%nat written_chunks corrupted_world).1 = Err e))
   ∧ handlers.StatusCode
       (handlers.ReadHandler.ServeHTTP (H := example_digest) in_order "uuid-0"
          corrupted_world).1
     = handlers.StatusCode
         (handlers.ReadHandler.ServeHTTP (H := example_digest)
            (λ n, reverse (seq 0 n)) "uuid-0" corrupted_world).1)
  (* no corruption: the same data and the same response under both orders *)
  ∧ ((∀ data,
        (handlers.ReadHandler.fetchChunksParallel (H := example_digest)
           [0; 1; 2]%nat written_chunks written_world).1 = Ok data ↔
        (handlers.ReadHandler.fetchChunksParallel (H := example_digest)
           [2; 0; 1]%nat written_chunks written_world).1 = Ok data)
     ∧ (handlers.ReadHandler.ServeHTTP (H := example_digest) in_order "uuid-0"
          written_world).1
       = (handlers.ReadHandler.ServeHTTP (H := example_digest)
            (λ n, reverse (seq 0 n)) "uuid-0" written_world).1).
Proof.
  assert ([0; 1; 2]%nat ≡ₚ seq 0 (length written_chunks)) as Hp1
    by (refine (bool_decide_unpack _ _); vm_compute; exact I).
  assert ([2; 0; 1]%nat ≡ₚ seq 0 (length written_chunks)) as Hp2
    by (refine (bool_decide_unpack _ _); vm_compute; exact I).
  assert (∀ n, in_order n ≡ₚ seq 0 n) as Hs1 by (intros n; reflexivity).
  assert (∀ n, reverse (seq 0 n) ≡ₚ seq 0 n) as Hs2
    by (intros n; apply reverse_Permutation).
  split.
  - destruct (fetch_order_independence (H := example_digest)
                written_chunks corrupted_world [0; 1; 2]%nat [2; 0; 1]%nat
                in_order (λ n, reverse (seq 0 n)) "uuid-0" Hp1 Hp2 Hs1 Hs2)
      as (Hslots & Hbytes & _ & Herr & Hstatus & _).
    cbv zeta. split; [exact Hslots |]. split; [exact Hbytes |].
    split; [exact Herr | exact Hstatus].
  - destruct (fetch_order_independence (H := example_digest)
                written_chunks written_world [0; 1; 2]%nat [2; 0; 1]%nat
                in_order (λ n, reverse (seq 0 n)) "uuid-0" Hp1 Hp2 Hs1 Hs2)
      as (_ & _ & Hdata & _ & _ & Hresp).
    split; [exact Hdata |]. apply Hresp. vm_compute. reflexivity.
Defined.

Section read_claims.
Import models handlers handlers.ReadHandler.
Context {H : Sha256}.

(** C3, as the code behaves.  A read of an identifier with no File record
    in the store and no cache entry makes no Blob Store call, but what it
    answers is status 500, the status of every internal failure, never the
    404 the handler keeps for a missing file: [GetFile] reports the missing
    row as an error, so the handler's test for a nil file is never reached.
    When no service fails the body is the message below. *)
Theorem ServeHTTP_unknown_file (sched : nat → list nat) (fileID : string) (w : World) :
  fileID ≠ "" →
  files w !! fileID = None →
  cache w !! storage.cache_key fileID = None →
  let resp := (ServeHTTP sched fileID w).1 in
  let w' := (ServeHTTP sched fileID w).2 in
  StatusCode resp = StatusInternalServerError
  ∧ StatusCode resp ≠ StatusNotFound
  ∧ filter is_minio_call (calls w') = filter is_minio_call (calls w)
  ∧ (faults w = no_faults →
     resp = http_Error ("failed to get file metadata: file not found: " +:+ fileID)
                       StatusInternalServerError).
Proof.
  intros Hid Hfile Hcache. unfold ServeHTTP. rewrite decide_False by done.
  unfold getFileMetadata, storage.GetFileMetadata, storage.GetFile. unfold_M.
  unfold set_calls, set_logs. simpl.
  destruct (redis_get_fault (faults w) (storage.cache_key fileID)) as [e|] eqn:Hrg;
    simpl; [|rewrite Hcache; simpl].
  1: destruct e; simpl.
  all: try (destruct (tidb_select_fault (faults w) fileID) as [e|] eqn:Hts;
            simpl; [destruct e; simpl | rewrite Hfile; simpl]).
  all: repeat split; try done.
  all: try (by rewrite ?filter_app; simpl; rewrite ?app_nil_r).
  all: intros Hnf; rewrite Hnf in *; simpl in *; discriminate.
Qed.

(** C8. Cache-aside metadata resolution.  On a cache hit the File record
    of the cache is used (as its JSON decodes) and the Metadata Store is not
    queried: the only call is the one to the cache.  On a miss the store is
    queried and, when the file is there, it is returned and written to the
    cache under the fixed TTL of five minutes; when that write fails the
    failure is logged and the record is returned all the same. *)
Theorem getFileMetadata_cache_aside (fileID : string) (file : File) (w : World) :
  let key := storage.cache_key fileID in
  let r := (getFileMetadata fileID w).1 in
  let w' := (getFileMetadata fileID w).2 in
  redis_get_fault (faults w) key = None →
  ((∃ ttl, cache w !! key = Some (file, ttl)) →
     r = Ok (Some (storage.json_File file))
     ∧ calls w' = calls w ++ [RedisGet key]
     ∧ cache w' = cache w)
  ∧ (cache w !! key = None →
     tidb_select_fault (faults w) fileID = None →
     files w !! fileID = Some file →
     r = Ok (Some file)
     ∧ calls w' = calls w ++ [RedisGet key; TidbSelectFile fileID;
                               RedisSet key storage.CacheTTL]
     ∧ storage.CacheTTL = 300
     ∧ match redis_set_fault (faults w) key with
       | None =>
         cache w' = <[key := (file, storage.CacheTTL)]> (cache w)
         ∧ logs w' = logs w ++ ["Cache MISS for file: " +:+ fileID]
       | Some err =>
         cache w' = cache w
         ∧ logs w' = logs w ++ ["Cache MISS for file: " +:+ fileID;
                                 "Warning: failed to update cache: "
                                 +:+ "failed to set cache: " +:+ Error err]
       end).
Proof.
  intros key r w' Hrg. subst r w'.
  unfold getFileMetadata, storage.GetFileMetadata, storage.GetFile,
    storage.SetFileMetadata. unfold_M.
  unfold set_calls, set_logs, set_cache. simpl. fold key. rewrite Hrg. split.
  - intros [ttl Hhit]. rewrite Hhit. simpl.
    done.
  - intros Hmiss Hts Hfile. rewrite Hmiss. simpl. rewrite Hts, Hfile. simpl.
    destruct (redis_set_fault (faults w) key) as [err|]; simpl;
      rewrite <- ?app_assoc; done.
Qed.

(** *** The chunk count of the File record is not consulted *)

Lemma recount_same_blobs g w : same_blobs w (recount g w).
Proof. done. Qed.

Lemma GetFileMetadata_recount g fileID w :
  ∃ k, storage.GetFileMetadata fileID (recount g w)
       = (match (storage.GetFileMetadata fileID w).1 with
          | Ok (Some file) => Ok (Some (with_count k file))
          | r => r
          end,
          recount g (storage.GetFileMetadata fileID w).2).
Proof.
  unfold storage.GetFileMetadata. unfold_M.
  unfold set_calls, recount. simpl. rewrite lookup_fmap.
  destruct (redis_get_fault (faults w) (storage.cache_key fileID)) as [e|]; simpl.
  - exists 0. by destruct e.
  - destruct (cache w !! storage.cache_key fileID) as [[file ttl]|]; simpl.
    + by exists (g (ID file)).
    + by exists 0.
Qed.

Lemma GetFile_recount g fileID w :
  storage.GetFile fileID (recount g w)
  = (match (storage.GetFile fileID w).1 with
     | Ok file => Ok (recount_file g file)
     | Err e => Err e
     end,
     recount g (storage.GetFile fileID w).2).
Proof.
  unfold storage.GetFile. unfold_M.
  unfold set_calls, recount. simpl. rewrite lookup_fmap.
  destruct (tidb_select_fault (faults w) fileID) as [e|]; simpl.
  - by destruct e.
  - by destruct (files w !! fileID).
Qed.

Lemma SetFileMetadata_recount g fileID file w :
  storage.SetFileMetadata fileID (recount_file g file) (recount g w)
  = ((storage.SetFileMetadata fileID file w).1,
     recount g (storage.SetFileMetadata fileID file w).2).
Proof.
  unfold storage.SetFileMetadata. unfold_M.
  unfold set_calls, set_cache, recount. simpl.
  destruct (redis_set_fault (faults w) (storage.cache_key fileID)); simpl; [done |].
  by rewrite fmap_insert.
Qed.

Lemma getFileMetadata_recount g fileID w :
  ∃ k, getFileMetadata fileID (recount g w)
       = (match (getFileMetadata fileID w).1 with
          | Ok (Some file) => Ok (Some (with_count k file))
          | r => r
          end,
          recount g (getFileMetadata fileID w).2).
Proof.
  unfold getFileMetadata. unfold_M. cbv beta.
  destruct (GetFileMetadata_recount g fileID w) as [k ->].
  destruct (storage.GetFileMetadata fileID w) as [[[file|]|err] w1];
    cbv beta iota zeta; cbn [fst snd]; try (by exists k).
  change (set_logs ?f (recount g w1)) with (recount g (set_logs f w1)).
  rewrite GetFile_recount.
  destruct (storage.GetFile fileID _) as [[file|err] w2];
    cbv beta iota zeta; cbn [fst snd]; [|by exists 0].
  rewrite SetFileMetadata_recount. exists (g (ID file)).
  destruct (storage.SetFileMetadata fileID file w2) as [[err|] w3];
    cbv beta iota zeta; cbn [fst snd]; done.
Qed.

Lemma getChunkMetadata_recount g fileID w :
  getChunkMetadata fileID (recount g w)
  = ((getChunkMetadata fileID w).1, recount g (getChunkMetadata fileID w).2).
Proof.
  unfold getChunkMetadata, storage.GetChunks. unfold_M.
  unfold set_calls, recount. simpl.
  destruct (tidb_select_fault (faults w) fileID); simpl; [done |].
  by destruct (tidb_rows_fault (faults w) fileID).
Qed.

Lemma fetchChunksParallel_recount g order metas w :
  fetchChunksParallel order metas (recount g w)
  = ((fetchChunksParallel order metas w).1,
     recount g (fetchChunksParallel order metas w).2).
Proof.
  rewrite !fetchChunksParallel_spec. cbn [fst snd].
  assert (∀ i meta, fetch_result (recount g w) i meta = fetch_result w i meta) as Hres
    by (intros; symmetry; apply fetch_result_same_blobs, recount_same_blobs).
  assert (∀ st i, apply_unit (recount g w) metas st i = apply_unit w metas st i) as Happ.
  { intros. unfold apply_unit. destruct (metas !! i); [|done]. by rewrite Hres. }
  assert (∀ i, unit_error (recount g w) metas i = unit_error w metas i) as Herr.
  { intros. unfold unit_error. destruct (metas !! i); [|done]. by rewrite Hres. }
  f_equal.
  rewrite (list_omap_ext _ (unit_error w metas) _ order)
    by (apply Forall2_same_length_lookup_2; [done |]; intros ??? ? ?; simplify_eq;
        apply Herr).
  destruct (omap (unit_error w metas) order); [|done]. do 2 f_equal.
  generalize (mkFanIn (replicate (length metas) []) []).
  induction order as [|i order IH]; intros st; [done |].
  simpl. by rewrite Happ, IH.
Qed.

(** C4 (as the code has it). The read does not compare the length of the
    list of chunk records with the chunk count of the File record: its
    response, its Blob Store fetches, every call it makes and every line it
    logs are the same whatever chunk count the File record holds, in the
    store or in the cache. *)
Theorem ServeHTTP_ignores_chunk_count
    (g : string → Z) (sched : nat → list nat) (fileID : string) (w : World) :
  ServeHTTP sched fileID (recount g w)
  = ((ServeHTTP sched fileID w).1, recount g (ServeHTTP sched fileID w).2).
Proof.
  unfold ServeHTTP. case_decide; [done |]. unfold_M.
  change (set_logs (λ ls, ls ++ ["Reading file: " +:+ fileID]) (recount g w))
    with (recount g (set_logs (λ ls, ls ++ ["Reading file: " +:+ fileID]) w)).
  destruct (getFileMetadata_recount g fileID
              (set_logs (λ ls, ls ++ ["Reading file: " +:+ fileID]) w)) as [k ->].
  destruct (getFileMetadata fileID _) as [[[file|]|err] w1]; cbn [fst snd]; try done.
  rewrite getChunkMetadata_recount.
  destruct (getChunkMetadata fileID w1) as [[metas|err] w2]; cbn [fst snd]; [|done].
  match goal with
  | |- context [fetchChunksParallel ?o ?m (set_logs ?f (recount g w2))] =>
    change (set_logs f (recount g w2)) with (recount g (set_logs f w2))
  end.
  rewrite fetchChunksParallel_recount.
  destruct (fetchChunksParallel _ metas _) as [[slots|err] w3]; cbn [fst snd]; done.
Qed.

End read_claims.

Lemma ServeHTTP_unknown_file_witness :
  let resp := (handlers.ReadHandler.ServeHTTP (H := example_digest) in_order "nope"
                 written_world).1 in
  let w' := (handlers.ReadHandler.ServeHTTP (H := example_digest) in_order "nope"
               written_world).2 in
  handlers.StatusCode resp = handlers.StatusInternalServerError
  ∧ handlers.StatusCode resp ≠ handlers.StatusNotFound
  ∧ filter is_minio_call (calls w') = filter is_minio_call (calls written_world)
  ∧ resp = handlers.http_Error "failed to get file metadata: file not found: nope"
                               handlers.StatusInternalServerError.
Proof.
  destruct (ServeHTTP_unknown_file (H := example_digest) in_order "nope" written_world)
    as (Hcode & Hnot404 & Hcalls & Hbody);
    [discriminate | vm_compute; reflexivity | vm_compute; reflexivity |].
  cbv zeta. split; [exact Hcode |]. split; [exact Hnot404 |].
  split; [exact Hcalls |]. apply Hbody. vm_compute. reflexivity.
Defined.

Lemma getFileMetadata_cache_aside_witness :
  (* second read: a hit, the store is not queried *)
  ((handlers.ReadHandler.getFileMetadata "uuid-0" read_world).1 = Ok (Some test_file)
   ∧ calls (handlers.ReadHandler.getFileMetadata "uuid-0" read_world).2
     = calls read_world ++ [RedisGet "file:uuid-0"]
   ∧ cache (handlers.ReadHandler.getFileMetadata "uuid-0" read_world).2
     = cache read_world)
  (* first read: a miss, the store is queried and the cache filled *)
  ∧ ((handlers.ReadHandler.getFileMetadata "uuid-0" written_world).1 = Ok (Some test_file)
     ∧ calls (handlers.ReadHandler.getFileMetadata "uuid-0" written_world).2
       = calls written_world ++ [RedisGet "file:uuid-0"; TidbSelectFile "uuid-0";
                                 RedisSet "file:uuid-0" storage.CacheTTL]
     ∧ storage.CacheTTL = 300
     ∧ cache (handlers.ReadHandler.getFileMetadata "uuid-0" written_world).2
       = <["file:uuid-0" := (test_file, storage.CacheTTL)]> (cache written_world)
     ∧ logs (handlers.ReadHandler.getFileMetadata "uuid-0" written_world).2
       = logs written_world ++ ["Cache MISS for file: uuid-0"])
  (* a miss when the cache refuses the write: logged, the record is returned *)
  ∧ ((handlers.ReadHandler.getFileMetadata "uuid-0" flaky_world).1 = Ok (Some test_file)
     ∧ calls (handlers.ReadHandler.getFileMetadata "uuid-0" flaky_world).2
       = calls flaky_world ++ [RedisGet "file:uuid-0"; TidbSelectFile "uuid-0";
                               RedisSet "file:uuid-0" storage.CacheTTL]
     ∧ storage.CacheTTL = 300
     ∧ cache (handlers.ReadHandler.getFileMetadata "uuid-0" flaky_world).2
       = cache flaky_world
     ∧ logs (handlers.ReadHandler.getFileMetadata "uuid-0" flaky_world).2
       = logs flaky_world
         ++ ["Cache MISS for file: uuid-0";
             "Warning: failed to update cache: failed to set cache: connection refused"]).
Proof.
  assert (redis_get_fault (faults read_world) (storage.cache_key "uuid-0") = None)
    as Hrg1 by (vm_compute; reflexivity).
  assert (redis_get_fault (faults written_world) (storage.cache_key "uuid-0") = None)
    as Hrg2 by (vm_compute; reflexivity).
  assert (redis_get_fault (faults flaky_world) (storage.cache_key "uuid-0") = None)
    as Hrg3 by (vm_compute; reflexivity).
  split; [|split].
  - refine (proj1 (getFileMetadata_cache_aside "uuid-0" test_file read_world Hrg1) _).
    exists 300. vm_compute. reflexivity.
  - assert (redis_set_fault (faults written_world) (storage.cache_key "uuid-0") = None)
      as Hset by (vm_compute; reflexivity).
    pose proof (proj2 (getFileMetadata_cache_aside "uuid-0" test_file written_world Hrg2))
      as Hmiss.
    cbv zeta in Hmiss. rewrite Hset in Hmiss.
    apply Hmiss; vm_compute; reflexivity.
  - assert (redis_set_fault (faults flaky_world) (storage.cache_key "uuid-0")
            = Some (Errorf "connection refused"))
      as Hset by (vm_compute; reflexivity).
    pose proof (proj2 (getFileMetadata_cache_aside "uuid-0" test_file flaky_world Hrg3))
      as Hmiss.
    cbv zeta in Hmiss. rewrite Hset in Hmiss.
    apply Hmiss; vm_compute; reflexivity.
Defined.

(** C4 as stated fails: with three chunks counted and two chunk records the
    read fetches the two objects and answers 200 with their bytes. *)
Lemma ServeHTTP_count_mismatch_tolerated :
  let resp := (handlers.ReadHandler.ServeHTTP (H := example_digest) in_order "uuid-0"
                 short_world).1 in
  let w' := (handlers.ReadHandler.ServeHTTP (H := example_digest) in_order "uuid-0"
               short_world).2 in
  models.ChunkCount <$> files short_world !! "uuid-0" = Some 3
  ∧ length (storage.select_chunks "uuid-0" (chunks short_world)) = 2%nat
  ∧ handlers.StatusCode resp = handlers.StatusOK
  ∧ handlers.ResponseBody resp
    = handlers.Bytes [x00; x01; x02; x03; x04; x05; x06; x07]
  ∧ filter is_minio_call (drop (length (calls short_world)) (calls w'))
    = [MinioGetObject "chunks/uuid-0/0"; MinioGetObject "chunks/uuid-0/1"].
Proof. repeat split; reflexivity. Qed.

(** ** A write followed by a read *)

Section roundtrip_facts.
Import models handlers.
Context {H : Sha256}.

(** What a successful [uploadChunks] leaves: the objects of the chunks in
    the bucket, and one record per chunk. *)
Lemma uploadChunks_loop_ok fileID cs acc w chunkModels w' :
  WriteHandler.uploadChunks_loop fileID cs acc w = (Ok chunkModels, w') →
  bucket w' = foldl (put_chunk fileID) (bucket w) cs
  ∧ files w' = files w ∧ chunks w' = chunks w ∧ faults w' = faults w
  ∧ ∃ ids, length ids = length cs
           ∧ chunkModels = acc ++ zip_with (λ id c, chunk_model id fileID c) ids cs.
Proof.
  revert acc w. induction cs as [|c cs IH]; intros acc w Hrun.
  - injection Hrun as <- <-. repeat split; try done. exists []. by rewrite app_nil_r.
  - cbn [WriteHandler.uploadChunks_loop] in Hrun. unfold_M.
    unfold storage.UploadChunk in Hrun. unfold_M.
    unfold set_uuid_next, set_calls, set_bucket in Hrun. simpl in Hrun.
    destruct (minio_put_fault (faults w) (WriteHandler.objectKey fileID (OrderIndex c)));
      [done |].
    apply IH in Hrun as (Hb & Hf & Hc & Hfa & ids & Hids & ->). simpl in *.
    repeat split; try done.
    exists (uuids w (uuid_next w) :: ids). split; [simpl; lia |].
    by rewrite <- app_assoc.
Qed.

Lemma objectKey_inj fileID a b :
  WriteHandler.objectKey fileID a = WriteHandler.objectKey fileID b → a = b.
Proof.
  unfold WriteHandler.objectKey. intros Heq.
  do 3 apply String.app_inj in Heq. by apply (inj pretty) in Heq.
Qed.

Lemma foldl_put_chunk_other fileID cs b key :
  (∀ c, c ∈ cs → WriteHandler.objectKey fileID (OrderIndex c) ≠ key) →
  foldl (put_chunk fileID) b cs !! key = b !! key.
Proof.
  revert b. induction cs as [|c cs IH]; intros b Hne; [done |].
  simpl. rewrite IH by (intros c' Hin; apply Hne; by right).
  unfold put_chunk. apply lookup_insert_ne. apply Hne. by left.
Qed.

Lemma foldl_put_chunk_lookup fileID cs b i c :
  NoDup (OrderIndex <$> cs) →
  cs !! i = Some c →
  foldl (put_chunk fileID) b cs !! WriteHandler.objectKey fileID (OrderIndex c)
  = Some (Data c).
Proof.
  revert b i. induction cs as [|c0 cs IH]; intros b i Hnd Hi; [done |].
  rewrite fmap_cons in Hnd. apply NoDup_cons in Hnd as [Hnotin Hnd].
  destruct i as [|i]; simpl in *.
  - injection Hi as <-. rewrite foldl_put_chunk_other.
    + unfold put_chunk. apply lookup_insert_eq.
    + intros c' Hin Heq. apply objectKey_inj in Heq.
      apply Hnotin. rewrite <- Heq. apply list_elem_of_fmap. by exists c'.
  - by apply (IH _ i).
Qed.

(** What a successful [saveMetadata] leaves: the File record under a key
    that was free, and the chunk records appended to their table. *)
Lemma createChunks_loop_ok ms w w' :
  WriteHandler.createChunks_loop ms w = (None, w') →
  chunks w' = chunks w ++ ms ∧ bucket w' = bucket w ∧ faults w' = faults w.
Proof.
  revert w. induction ms as [|m ms IH]; intros w Hrun.
  - injection Hrun as <-. by rewrite app_nil_r.
  - cbn [WriteHandler.createChunks_loop] in Hrun.
    unfold storage.CreateChunk, storage.insert_into_chunks in Hrun. unfold_M.
    unfold set_calls, set_chunks in Hrun. simpl in Hrun.
    destruct (tidb_insert_fault (faults w) (Chunk_ID m)); [done |].
    repeat (case_decide; [done |]). simpl in Hrun.
    apply IH in Hrun as (-> & -> & ->). simpl. by rewrite <- app_assoc.
Qed.

Lemma saveMetadata_ok file ms w w' :
  WriteHandler.saveMetadata file ms w = (None, w') →
  files w !! ID file = None
  ∧ chunks w' = chunks w ++ ms ∧ bucket w' = bucket w ∧ faults w' = faults w.
Proof.
  unfold WriteHandler.saveMetadata, storage.CreateFile, storage.insert_into_files.
  unfold_M. unfold set_calls, set_files. simpl. intros Hrun.
  destruct (tidb_insert_fault (faults w) (ID file)); [done |].
  case_decide as Hdup; [done |]. simpl in Hrun.
  apply createChunks_loop_ok in Hrun as (-> & -> & ->). simpl.
  split; [|done]. by apply eq_None_not_Some.
Qed.

(** A write that answers 201: what it stored. *)
Lemma WriteHandler_ServeHTTP_created wh fuel filename data w wresp w1 :
  1 ≤ chunker.chunkSize (WriteHandler.chunker wh) ≤ maxAlloc →
  (length data < fuel)%nat →
  WriteHandler.ServeHTTP wh fuel filename (mkReader data EOF) w = (Done wresp, w1) →
  StatusCode wresp = StatusCreated →
  let fileID := uuids w (uuid_next w) in
  let segs := chunker_spec.segments (length data)
                (Z.to_nat (chunker.chunkSize (WriteHandler.chunker wh))) data in
  let cs := chunker_spec.chunks_from segs 0 in
  ∃ ids r,
    length ids = length cs
    ∧ ResponseBody wresp = Json r
    ∧ FileID r = fileID
    ∧ files w !! fileID = None
    ∧ chunks w1 = chunks w ++ zip_with (λ id c, chunk_model id fileID c) ids cs
    ∧ bucket w1 = foldl (put_chunk fileID) (bucket w) cs
    ∧ faults w1 = faults w.
Proof.
  intros Hs Hfuel Hrun Hcode.
  unfold WriteHandler.ServeHTTP in Hrun.
  case_decide; [by injection Hrun as <- <- |].
  unfold WriteHandler.chunkStream, chunker.ChunkStream in Hrun.
  rewrite ChunkStream_loop_clean in Hrun by done.
  unfold_M. cbv beta iota zeta in Hrun.
  unfold WriteHandler.uploadChunks in Hrun.
  match type of Hrun with
  | context [WriteHandler.uploadChunks_loop ?f ?cs ?acc ?w0] =>
    destruct (WriteHandler.uploadChunks_loop f cs acc w0) as [[ms|err] wa] eqn:Hup
  end; [|by injection Hrun as <- <-].
  apply uploadChunks_loop_ok in Hup as (Hb & Hf & Hc & Hfa & ids & Hids & ->).
  cbv beta iota zeta in Hrun.
  match type of Hrun with
  | context [WriteHandler.saveMetadata ?f ?ms ?w0] =>
    destruct (WriteHandler.saveMetadata f ms w0) as [[err|] wb] eqn:Hsave
  end; [by injection Hrun as <- <- |].
  apply saveMetadata_ok in Hsave as (Hfree & Hc' & Hb' & Hfa').
  cbv beta iota zeta in Hrun.
  unfold WriteHandler.invalidateCache, storage.InvalidateFileMetadata in Hrun.
  unfold_M. unfold set_calls, set_cache, set_logs, set_uuid_next in *.
  simpl in *.
  exists ids. eexists.
  destruct (redis_del_fault (faults wb) _); simpl in Hrun;
    injection Hrun as <- <-; simpl;
    rewrite Hfa', Hfa, Hb', Hb, Hc', Hc, Hf in *; done.
Qed.

(** *** Reading the chunk records back *)

Lemma insert_sorted_records k (ms : list Chunk) :
  (∀ i m, ms !! i = Some m → Chunk_OrderIndex m = k + Z.of_nat i) →
  foldr storage.insert_by_order_index [] ms = ms.
Proof.
  revert k. induction ms as [|m ms IH]; intros k Hidx; [done |].
  simpl. rewrite (IH (k + 1)).
  - destruct ms as [|m' ms]; [done |]. simpl.
    pose proof (Hidx 0%nat m eq_refl). pose proof (Hidx 1%nat m' eq_refl).
    case_decide; [done | lia].
  - intros i m' Hi. rewrite (Hidx (S i) m') by done. lia.
Qed.

Lemma select_chunks_fresh fileID (old ms : list Chunk) :
  (∀ c, c ∈ old → Chunk_FileID c ≠ fileID) →
  (∀ m, m ∈ ms → Chunk_FileID m = fileID) →
  (∀ i m, ms !! i = Some m → Chunk_OrderIndex m = Z.of_nat i) →
  storage.select_chunks fileID (old ++ ms) = ms.
Proof.
  intros Hold Hms Hidx. unfold storage.select_chunks.
  rewrite filter_app.
  assert (filter (λ c, Chunk_FileID c = fileID) old = []) as ->.
  { clear -Hold. induction old as [|c old IH]; [done |].
    rewrite filter_cons_False by (apply Hold; by left).
    apply IH. intros c' Hin. apply Hold. by right. }
  assert (filter (λ c, Chunk_FileID c = fileID) ms = ms) as ->.
  { clear -Hms. induction ms as [|m ms IH]; [done |].
    rewrite filter_cons_True by (apply Hms; by left).
    f_equal. apply IH. intros m' Hin. apply Hms. by right. }
  simpl. apply (insert_sorted_records 0). intros i m Hi. rewrite (Hidx i m Hi). lia.
Qed.

Lemma chunks_from_indexed segs i c :
  Z.of_nat (length segs) ≤ max_int64 →
  chunker_spec.chunks_from segs 0 !! i = Some c →
  OrderIndex c = Z.of_nat i.
Proof.
  intros Hmax Hi. apply chunks_from_lookup in Hi as (d & _ & ->); [done | done | lia].
Qed.

Lemma same_file_refl fileID w : same_file fileID w w.
Proof. by split. Qed.

(** A write that answered 201 followed, at once or later while the stored
    file is untouched, by a read of the identifier it returned: if the read
    answers 200, its body is the bytes written. *)
Lemma write_then_read wh fuel filename data w sched wresp w1 r w2 :
  1 ≤ chunker.chunkSize (WriteHandler.chunker wh) ≤ maxAlloc →
  Z.of_nat (length data) ≤ max_int64 →
  (length data < fuel)%nat →
  fk_ok w →
  (∀ n, sched n ≡ₚ seq 0 n) →
  WriteHandler.ServeHTTP wh fuel filename (mkReader data EOF) w = (Done wresp, w1) →
  StatusCode wresp = StatusCreated →
  ResponseBody wresp = Json r →
  same_file (FileID r) w1 w2 →
  StatusCode (ReadHandler.ServeHTTP sched (FileID r) w2).1 = StatusOK →
  ResponseBody (ReadHandler.ServeHTTP sched (FileID r) w2).1 = Bytes data.
Proof.
  intros Hs Hmax Hfuel Hfk Hsched Hwrite Hcreated Hbody Hsame Hok.
  destruct (WriteHandler_ServeHTTP_created wh fuel filename data w wresp w1
              Hs Hfuel Hwrite Hcreated)
    as (ids & r' & Hids & Hbody' & Hfid & Hfree & Hchunks & Hbucket & Hfaults).
  rewrite Hbody in Hbody'. injection Hbody' as <-.
  set (s := Z.to_nat (chunker.chunkSize (WriteHandler.chunker wh))) in *.
  assert (0 < s)%nat as Hs' by lia.
  set (segs := chunker_spec.segments (length data) s data) in *.
  set (cs := chunker_spec.chunks_from segs 0) in *.
  set (fileID := uuids w (uuid_next w)) in *.
  set (ms := zip_with (λ id c, chunk_model id fileID c) ids cs) in *.
  rewrite Hfid in *. clear Hfid.
  assert (Z.of_nat (length segs) ≤ max_int64) as Hcount.
  { pose proof (segments_length_le s (length data) data Hs' (le_n _)) as Hle.
    fold segs in Hle. lia. }
  assert (∀ i c, cs !! i = Some c → OrderIndex c = Z.of_nat i) as Hidx
    by (intros i c; by apply chunks_from_indexed).
  assert (∀ i m, ms !! i = Some m →
            ∃ id c, cs !! i = Some c ∧ m = chunk_model id fileID c) as Hms.
  { intros i m Hi. unfold ms in Hi. apply lookup_zip_with_Some in Hi
      as (id & c & -> & _ & Hc). by exists id, c. }
  destruct (decide (fileID = "")) as [Hempty|Hid].
  { exfalso. revert Hok. unfold ReadHandler.ServeHTTP. by rewrite decide_True. }
  destruct (ServeHTTP_inv sched fileID w2 Hid)
    as [(msg & Hresp & _)|(file & w3 & Hframe & _ & Hfetch)].
  { exfalso. by rewrite Hresp in Hok. }
  assert (storage.select_chunks fileID (chunks w1) = ms) as Hsel.
  { rewrite Hchunks. apply select_chunks_fresh.
    - intros c Hin Heq. destruct (Hfk c Hin) as [f Hf]. by rewrite Heq, Hfree in Hf.
    - intros m Hin. apply list_elem_of_lookup in Hin as [i Hi].
      by destruct (Hms i m Hi) as (id & c & _ & ->).
    - intros i m Hi. destruct (Hms i m Hi) as (id & c & Hc & ->). simpl. by apply Hidx. }
  destruct Hsame as [Hsame_rows Hsame_objs]. rewrite Hsel in Hsame_rows, Hsame_objs.
  rewrite Hsame_rows in Hfetch.
  destruct (ReadHandler.fetchChunksParallel (sched (length ms)) ms w3).1
    as [slots|e] eqn:Hslots; [|exfalso; by rewrite Hfetch in Hok].
  rewrite Hfetch. simpl. f_equal.
  apply fetchChunksParallel_ok_slots in Hslots; [|apply Hsched].
  assert (slots = Data <$> cs) as ->.
  { apply list_eq_same_length with (length cs).
    - by rewrite length_fmap.
    - apply Forall2_length in Hslots. rewrite <- Hslots. unfold ms.
      rewrite length_zip_with. lia.
    - intros i d d' Hlt Hd Hd'.
      rewrite list_lookup_fmap in Hd'.
      destruct (cs !! i) as [c|] eqn:Hc; [|done]. injection Hd' as <-.
      destruct (ids !! i) as [id|] eqn:Hidl;
        [|apply lookup_ge_None in Hidl; lia].
      assert (ms !! i = Some (chunk_model id fileID c)) as Hm.
      { unfold ms. apply lookup_zip_with_Some. by exists id, c. }
      destruct (Forall2_lookup_lr _ _ _ _ _ _ Hslots Hm Hd) as [Hb _].
      destruct Hframe as (Hbw & _). rewrite Hbw in Hb.
      rewrite Hsame_objs in Hb by (apply list_elem_of_lookup; by exists i).
      rewrite Hbucket in Hb. simpl in Hb.
      change ("chunks/" +:+ fileID +:+ "/" +:+ pretty (OrderIndex c))
        with (WriteHandler.objectKey fileID (OrderIndex c)) in Hb.
      rewrite (foldl_put_chunk_lookup fileID cs (bucket w) i c) in Hb; [congruence | | done].
      apply NoDup_alt. intros i1 i2 x Hi1 Hi2.
      rewrite list_lookup_fmap in Hi1, Hi2.
      destruct (cs !! i1) as [c1|] eqn:Hc1; [|done].
      destruct (cs !! i2) as [c2|] eqn:Hc2; [|done].
      simpl in *. apply Hidx in Hc1, Hc2. simplify_eq. lia. }
  rewrite ReassembleChunks_concat. unfold cs. rewrite chunks_from_Data.
  by apply segments_concat.
Qed.

(** *** The foreign key is an invariant of the write path *)

Lemma fk_ok_ext w w' :
  files w' = files w → chunks w' = chunks w → fk_ok w → fk_ok w'.
Proof. unfold fk_ok. intros -> ->. done. Qed.

Lemma fk_ok_empty : fk_ok empty_world.
Proof. intros c Hin. by apply not_elem_of_nil in Hin. Qed.

Lemma uploadChunks_loop_tables fileID cs acc w :
  files (WriteHandler.uploadChunks_loop fileID cs acc w).2 = files w
  ∧ chunks (WriteHandler.uploadChunks_loop fileID cs acc w).2 = chunks w.
Proof.
  revert acc w. induction cs as [|c cs IH]; intros acc w; [done |].
  cbn [WriteHandler.uploadChunks_loop]. unfold storage.UploadChunk. unfold_M.
  unfold set_uuid_next, set_calls, set_bucket. simpl.
  destruct (minio_put_fault (faults w) _); [done |].
  match goal with
  | |- context [WriteHandler.uploadChunks_loop fileID cs ?a ?w0] =>
    destruct (IH a w0) as [-> ->]
  end.
  done.
Qed.

Lemma createChunks_loop_fk ms w :
  fk_ok w → fk_ok (WriteHandler.createChunks_loop ms w).2.
Proof.
  revert w. induction ms as [|m ms IH]; intros w Hfk; [done |].
  cbn [WriteHandler.createChunks_loop].
  unfold storage.CreateChunk, storage.insert_into_chunks. unfold_M.
  unfold set_calls, set_chunks. simpl.
  destruct (tidb_insert_fault (faults w) (Chunk_ID m)); [done |].
  repeat (case_decide; [done |]). simpl.
  apply IH. intros c Hin. simpl in *.
  apply elem_of_app in Hin as [Hin|Hin].
  - by apply Hfk.
  - apply list_elem_of_singleton in Hin as ->.
    destruct (files w !! Chunk_FileID m); [by eexists | done].
Qed.

Lemma saveMetadata_fk file ms w :
  fk_ok w → fk_ok (WriteHandler.saveMetadata file ms w).2.
Proof.
  intros Hfk. unfold WriteHandler.saveMetadata, storage.CreateFile,
    storage.insert_into_files. unfold_M. unfold set_calls, set_files. simpl.
  destruct (tidb_insert_fault (faults w) (ID file)); [done |].
  case_decide; [done |]. simpl.
  apply createChunks_loop_fk. intros c Hin. simpl in *.
  apply lookup_insert_is_Some'. right. by apply Hfk.
Qed.

(** Whatever a write answers, it leaves tables that satisfy the foreign
    key if it found them so. *)
Lemma WriteHandler_ServeHTTP_fk wh fuel filename body w :
  fk_ok w → fk_ok (WriteHandler.ServeHTTP wh fuel filename body w).2.
Proof.
  intros Hfk. unfold WriteHandler.ServeHTTP.
  case_decide; [done |]. unfold_M. cbv beta iota zeta.
  destruct (WriteHandler.chunkStream wh fuel body) as [[cs total]|e|msg|];
    cbv beta iota zeta; try done.
  unfold WriteHandler.uploadChunks.
  match goal with
  | |- context [WriteHandler.uploadChunks_loop ?f cs ?a ?w0] =>
    pose proof (uploadChunks_loop_tables f cs a w0) as [Hf Hc];
    destruct (WriteHandler.uploadChunks_loop f cs a w0) as [[ms|err] wa]
  end; cbv beta iota zeta; simpl in Hf, Hc.
  2: by apply (fk_ok_ext w).
  match goal with
  | |- context [WriteHandler.saveMetadata ?f ms ?w0] =>
    pose proof (saveMetadata_fk f ms w0) as Hsave;
    destruct (WriteHandler.saveMetadata f ms w0) as [[err|] wb]
  end; cbv beta iota zeta; simpl in Hsave.
  1: by apply Hsave, (fk_ok_ext w).
  assert (fk_ok wb) as Hwb by (by apply Hsave, (fk_ok_ext w)).
  unfold WriteHandler.invalidateCache, storage.InvalidateFileMetadata. unfold_M.
  unfold set_calls, set_cache, set_logs. simpl.
  by destruct (redis_del_fault (faults wb) _).
Qed.

End roundtrip_facts.

Section roundtrip_claims.
Import models handlers.
Context {H : Sha256}.

(** C1. Round-trip: for every byte sequence, the empty one included, and
    every positive chunk size the runtime can allocate (at most [maxAlloc]
    bytes: above it the buffer of [ChunkStream] cannot be made, see C10),
    [ChunkStream] followed by [ReassembleChunks] over the data of the chunks
    it returned gives back the bytes; the chunks are returned in the order
    of their order index.  Hence a write
    that answered 201 followed, at once or later while the chunk records and
    objects of the file are untouched, by a read of the identifier it
    returned that answers 200 returns the bytes written, whatever the order
    in which the fetches complete.  (The order index and the write need the
    input to fit the Go integer types; the tables are assumed to satisfy
    their foreign key, which the write path maintains.) *)
Theorem chunk_reassemble_roundtrip
    (wh : WriteHandler.WriteHandler) (fuel : nat) (data : list byte) :
  1 ≤ chunker.chunkSize (WriteHandler.chunker wh) ≤ maxAlloc →
  (length data < fuel)%nat →
  (∃ chunks totalSize,
     chunker.ChunkStream fuel (WriteHandler.chunker wh) (mkReader data EOF)
     = Done (chunks, totalSize)
     ∧ chunker.ReassembleChunks (Data <$> chunks) = data
     ∧ (Z.of_nat (length data) ≤ max_int64 →
        OrderIndex <$> chunks = Z.of_nat <$> seq 0 (length chunks)))
  ∧ (∀ filename w sched wresp w1 r w2,
       Z.of_nat (length data) ≤ max_int64 →
       fk_ok w →
       (∀ n, sched n ≡ₚ seq 0 n) →
       WriteHandler.ServeHTTP wh fuel filename (mkReader data EOF) w = (Done wresp, w1) →
       StatusCode wresp = StatusCreated →
       ResponseBody wresp = Json r →
       same_file (FileID r) w1 w2 →
       StatusCode (ReadHandler.ServeHTTP sched (FileID r) w2).1 = StatusOK →
       ResponseBody (ReadHandler.ServeHTTP sched (FileID r) w2).1 = Bytes data).
Proof.
  intros Hs Hfuel. split.
  - unfold chunker.ChunkStream. rewrite ChunkStream_loop_clean by done. simpl.
    set (s := Z.to_nat (chunker.chunkSize (WriteHandler.chunker wh))).
    assert (0 < s)%nat as Hs' by lia.
    set (segs := chunker_spec.segments (length data) s data).
    eexists _, _. split; [done |]. split.
    + rewrite ReassembleChunks_concat, chunks_from_Data. by apply segments_concat.
    + intros Hmax.
      assert (Z.of_nat (length segs) ≤ max_int64) as Hcount.
      { pose proof (segments_length_le s (length data) data Hs' (le_n _)) as Hle.
        fold segs in Hle. lia. }
      apply list_eq. intros i.
      rewrite !list_lookup_fmap.
      destruct (chunker_spec.chunks_from segs 0 !! i) as [c|] eqn:Hc; simpl.
      * apply lookup_lt_Some in Hc as Hlt.
        rewrite lookup_seq_lt by done. simpl. f_equal.
        by apply (chunks_from_indexed segs).
      * apply lookup_ge_None in Hc. by rewrite lookup_seq_ge.
  - intros filename w sched wresp w1 r w2 Hmax Hfk Hsched Hwrite Hcreated Hbody Hsame Hok.
    by apply (write_then_read wh fuel filename data w sched wresp w1 r w2).
Qed.

End roundtrip_claims.

Lemma chunk_reassemble_roundtrip_witness :
  (∃ chunks totalSize,
     chunker.ChunkStream (H := example_digest) 11 (chunker.NewChunker 4)
       (mkReader bytes10 EOF) = Done (chunks, totalSize)
     ∧ chunker.ReassembleChunks (models.Data <$> chunks) = bytes10
     ∧ models.OrderIndex <$> chunks = Z.of_nat <$> seq 0 (length chunks))
  (* the first read after the write *)
  ∧ handlers.ResponseBody
      (handlers.ReadHandler.ServeHTTP (H := example_digest) in_order "uuid-0"
         written_world).1
    = handlers.Bytes bytes10
  (* a second read, fetches completing in reverse *)
  ∧ handlers.ResponseBody
      (handlers.ReadHandler.ServeHTTP (H := example_digest)
         (λ n, reverse (seq 0 n)) "uuid-0" read_world).1
    = handlers.Bytes bytes10.
Proof.
  destruct (chunk_reassemble_roundtrip (H := example_digest)
              (handlers.WriteHandler.NewWriteHandler (chunker.NewChunker 4)) 11 bytes10)
    as [Hsplit Hread]; [cbv [maxAlloc]; simpl; lia | cbv [maxAlloc]; simpl; lia |].
  assert (Z.of_nat (length bytes10) ≤ max_int64) as Hmax
    by (unfold max_int64; simpl; lia).
  split.
  { destruct Hsplit as (chunks & totalSize & Hrun & Hback & Hindex).
    exists chunks, totalSize. split; [exact Hrun |]. split; [exact Hback |].
    exact (Hindex Hmax). }
  set (r := handlers.mkWriteResponse "uuid-0" "test.bin" 10 3
              "File uploaded successfully").
  set (wresp := handlers.mkResponse handlers.StatusCreated
                  [("Content-Type", "application/json")] (handlers.Json r)).
  change "uuid-0" with (handlers.FileID r).
  assert (handlers.WriteHandler.ServeHTTP (H := example_digest)
            (handlers.WriteHandler.NewWriteHandler (chunker.NewChunker 4)) 11
            "test.bin" (mkReader bytes10 EOF) empty_world
          = (Done wresp, written_world)) as Hwrite by (vm_compute; reflexivity).
  split.
  - apply (Hread "test.bin" empty_world in_order wresp written_world r written_world
             Hmax fk_ok_empty (λ n, reflexivity _) Hwrite eq_refl eq_refl).
    + apply same_file_refl.
    + vm_compute. reflexivity.
  - apply (Hread "test.bin" empty_world (λ n, reverse (seq 0 n)) wresp written_world r
             read_world Hmax fk_ok_empty (λ n, reverse_Permutation _) Hwrite
             eq_refl eq_refl).
    + split; [vm_compute; reflexivity |].
      intros m Hin. apply list_elem_of_lookup in Hin as [i Hi].
      destruct i as [|[|[|i]]]; vm_compute in Hi; try discriminate Hi;
        injection Hi as <-; vm_compute; reflexivity.
    + vm_compute. reflexivity.
Defined.

(** * Further properties of the chunker *)

Section chunker_more.
Import models chunker chunker_spec.
Context {H : Sha256}.

(** The slice at position [i] is the [s] bytes of the data from offset
    [i * s] on (fewer at the end of the data). *)
Lemma segments_lookup s n (data : list byte) i d :
  (0 < s)%nat → (length data ≤ n)%nat →
  segments n s data !! i = Some d →
  d = take s (drop (i * s) data).
Proof.
  intros Hs. revert data i. induction n as [|n IH]; intros data i Hn Hi.
  - by destruct data.
  - destruct data as [|b data]; [done |].
    cbn [segments] in Hi. destruct i as [|i]; simpl in Hi.
    + by injection Hi as <-.
    + apply IH in Hi; [|rewrite length_drop; simpl in *; lia].
      by rewrite Hi, drop_drop.
Qed.

Lemma chunks_from_lookup_data segs orderIndex i ch :
  chunks_from segs orderIndex !! i = Some ch →
  segs !! i = Some (Data ch)
  ∧ Hash ch = ComputeHash (Data ch)
  ∧ CD_Size ch = Z.of_nat (length (Data ch)).
Proof.
  revert orderIndex i. induction segs as [|d segs IH]; intros idx i Hi; [done |].
  destruct i as [|i]; simpl in Hi.
  - by injection Hi as <-.
  - by apply IH in Hi.
Qed.

Lemma ChunkStream_loop_broken fuel c data fin acc totalSize orderIndex :
  1 ≤ chunkSize c ≤ maxAlloc →
  (length data < fuel)%nat →
  fin ≠ EOF →
  fin ≠ ErrUnexpectedEOF →
  ChunkStream_loop fuel c (mkReader data fin) acc totalSize orderIndex
  = Failed (Errorf ("error reading chunk: " +:+ Error fin)).
Proof.
  intros Hs Hfuel Hne1 Hne2. revert data Hfuel acc totalSize orderIndex.
  induction fuel as [|fuel IH]; intros data Hfuel acc totalSize orderIndex; [lia |].
  simpl. rewrite make_len_pos by done.
  set (s := Z.to_nat (chunkSize c)). assert (0 < s)%nat by lia.
  unfold ReadFull; simpl.
  case_decide; [lia |]. case_decide.
  - assert (length (take s data) = s) as -> by (rewrite length_take; lia).
    case_decide; [|lia]. apply IH. rewrite length_drop. lia.
  - destruct fin; try done; by case_decide.
Qed.

Lemma ChunkStream_loop_truncated fuel c data acc totalSize orderIndex :
  ChunkStream_loop fuel c (mkReader data ErrUnexpectedEOF) acc totalSize orderIndex
  = ChunkStream_loop fuel c (mkReader data EOF) acc totalSize orderIndex.
Proof.
  revert data acc totalSize orderIndex.
  induction fuel as [|fuel IH]; intros data acc totalSize orderIndex; [done |].
  simpl. destruct (make_len (chunkSize c)) as [len|]; [|done].
  unfold ReadFull; simpl.
  destruct (decide (len = 0%nat)); simpl; [apply IH |].
  destruct (decide (len ≤ length data)%nat); simpl.
  - destruct (decide (Z.of_nat (length (take len data)) > 0)); simpl; apply IH.
  - destruct (decide (data = [])); simpl; [by subst |].
    by destruct (decide (Z.of_nat (length data) > 0)).
Qed.

(** X1. A stream that breaks with an error other than the two end-of-file
    errors makes [ChunkStream] fail with that error wrapped, whatever was
    read before: the chunks already built are not returned.  (For a chunk
    size the runtime can allocate, from 1 to [maxAlloc] bytes.) *)
Theorem ChunkStream_broken_stream (c : Chunker) (data : list byte) (fin : error)
    (fuel : nat) :
  1 ≤ chunkSize c ≤ maxAlloc →
  (length data < fuel)%nat →
  fin ≠ EOF →
  fin ≠ ErrUnexpectedEOF →
  ChunkStream fuel c (mkReader data fin)
  = Failed (Errorf ("error reading chunk: " +:+ Error fin)).
Proof. intros. by apply ChunkStream_loop_broken. Qed.

(** X2. A stream cut short (its reader ends with [io.ErrUnexpectedEOF]) is
    taken for a complete one: [ChunkStream] returns what it returns on the
    same bytes followed by a clean end, for every chunk size and every
    number of passes. *)
Theorem ChunkStream_truncated_stream (c : Chunker) (data : list byte) (fuel : nat) :
  ChunkStream fuel c (mkReader data ErrUnexpectedEOF)
  = ChunkStream fuel c (mkReader data EOF).
Proof. apply ChunkStream_loop_truncated. Qed.

(** X3. The chunk at position [i] holds the bytes of the input from offset
    [i * s] up to [(i + 1) * s] (or the end of the input), and its recorded
    size is their number.  (For a chunk size [s] the runtime can allocate,
    from 1 to [maxAlloc] bytes.) *)
Theorem ChunkStream_chunk_slices (c : Chunker) (data : list byte) (fuel : nat) :
  1 ≤ chunkSize c ≤ maxAlloc →
  (length data < fuel)%nat →
  ∃ chunks totalSize,
    ChunkStream fuel c (mkReader data EOF) = Done (chunks, totalSize)
    ∧ ∀ i ch, chunks !! i = Some ch →
        Data ch = take (Z.to_nat (chunkSize c)) (drop (i * Z.to_nat (chunkSize c)) data)
        ∧ CD_Size ch = Z.of_nat (length (Data ch)).
Proof.
  intros Hs Hfuel. unfold ChunkStream.
  rewrite ChunkStream_loop_clean by done. simpl.
  eexists _, _. split; [done |]. intros i ch Hi.
  apply chunks_from_lookup_data in Hi as (Hseg & _ & Hsize).
  split; [|done].
  apply (segments_lookup _ (length data)); [lia | done | done].
Qed.

(** X4. Every chunk [ChunkStream] returns carries the hash of its own data
    and passes [VerifyChunkHash] against it.  (For a chunk size the runtime
    can allocate, from 1 to [maxAlloc] bytes.) *)
Theorem ChunkStream_chunks_verify (c : Chunker) (data : list byte) (fuel : nat) :
  1 ≤ chunkSize c ≤ maxAlloc →
  (length data < fuel)%nat →
  ∃ chunks totalSize,
    ChunkStream fuel c (mkReader data EOF) = Done (chunks, totalSize)
    ∧ ∀ ch, ch ∈ chunks →
        Hash ch = ComputeHash (Data ch)
        ∧ VerifyChunkHash (Data ch) (Hash ch) = true.
Proof.
  intros Hs Hfuel. unfold ChunkStream.
  rewrite ChunkStream_loop_clean by done. simpl.
  eexists _, _. split; [done |]. intros ch Hin.
  apply list_elem_of_lookup in Hin as [i Hi].
  apply chunks_from_lookup_data in Hi as (_ & Hhash & _).
  split; [done |]. unfold VerifyChunkHash. by rewrite Hhash, bool_decide_eq_true.
Qed.

End chunker_more.

Section hash_more.
Import chunker.
Context {H : Sha256}.

Lemma hexdigit_inj (n m : N) :
  (n < 16)%N → (m < 16)%N → hexdigit n = hexdigit m → n = m.
Proof.
  intros Hn Hm.
  assert (n = 0 ∨ n = 1 ∨ n = 2 ∨ n = 3 ∨ n = 4 ∨ n = 5 ∨ n = 6 ∨ n = 7 ∨ n = 8
          ∨ n = 9 ∨ n = 10 ∨ n = 11 ∨ n = 12 ∨ n = 13 ∨ n = 14 ∨ n = 15)%N as Hcn by lia.
  assert (m = 0 ∨ m = 1 ∨ m = 2 ∨ m = 3 ∨ m = 4 ∨ m = 5 ∨ m = 6 ∨ m = 7 ∨ m = 8
          ∨ m = 9 ∨ m = 10 ∨ m = 11 ∨ m = 12 ∨ m = 13 ∨ m = 14 ∨ m = 15)%N as Hcm by lia.
  clear Hn Hm.
  repeat (destruct Hcn as [->|Hcn]); try subst n;
    repeat (destruct Hcm as [->|Hcm]); try subst m; simpl; congruence.
Qed.

Lemma byte_of_nibbles (a b : byte) :
  (Byte.to_N a / 16 = Byte.to_N b / 16)%N →
  (Byte.to_N a mod 16 = Byte.to_N b mod 16)%N →
  a = b.
Proof.
  intros Hhi Hlo.
  assert (Byte.to_N a = Byte.to_N b) as Heq.
  { rewrite (N.div_mod (Byte.to_N a) 16), (N.div_mod (Byte.to_N b) 16) by lia.
    by rewrite Hhi, Hlo. }
  pose proof (Byte.of_to_N a) as Ha. pose proof (Byte.of_to_N b) as Hb.
  rewrite Heq in Ha. congruence.
Qed.

Lemma EncodeToString_inj (a b : list byte) :
  EncodeToString a = EncodeToString b → a = b.
Proof.
  revert b. induction a as [|x a IH]; intros [|y b] Heq; simpl in Heq; try done.
  injection Heq as Hhi Hlo Hrest.
  pose proof (Byte.to_N_bounded x). pose proof (Byte.to_N_bounded y).
  f_equal; [|by apply IH].
  apply byte_of_nibbles; apply hexdigit_inj; try done.
  - apply N.Div0.div_lt_upper_bound; lia.
  - apply N.Div0.div_lt_upper_bound; lia.
  - by apply N.mod_lt.
  - by apply N.mod_lt.
Qed.

Lemma EncodeToString_length (a : list byte) :
  String.length (EncodeToString a) = (2 * length a)%nat.
Proof. induction a as [|x a IH]; simpl; [done |]. rewrite IH. lia. Qed.

(** X5. Comparing hashes is comparing digests: [VerifyChunkHash] accepts
    data against the hash computed from other data exactly when the two
    have the same SHA-256 digest, hex encoding losing nothing; and a hash
    is twice as long as the digest (64 characters for the 32 bytes of
    SHA-256). *)
Theorem VerifyChunkHash_digest (data data' : list byte) :
  (VerifyChunkHash data (ComputeHash data') = true ↔ Sum256 data = Sum256 data')
  ∧ String.length (ComputeHash data) = (2 * length (Sum256 data))%nat.
Proof.
  split; [|apply EncodeToString_length].
  unfold VerifyChunkHash, ComputeHash. rewrite bool_decide_eq_true. split.
  - apply EncodeToString_inj.
  - by intros ->.
Qed.

(** X6. [ReassembleChunks] fills exactly the buffer it sized: the length of
    its result is the sum of the lengths of the chunks (empty and nil
    chunks adding nothing), and reassembling two lists of chunks one after
    the other is appending their reassemblies. *)
Theorem ReassembleChunks_length_app (chunks chunks' : list (list byte)) :
  length (ReassembleChunks chunks)
  = foldl (λ totalSize chunk, (totalSize + length chunk)%nat) 0%nat chunks
  ∧ ReassembleChunks (chunks ++ chunks')
    = ReassembleChunks chunks ++ ReassembleChunks chunks'.
Proof.
  rewrite !ReassembleChunks_concat. split; [|apply concat_app].
  assert (∀ n, foldl (λ totalSize chunk, (totalSize + length chunk)%nat) n chunks
               = (n + length (concat chunks))%nat) as Hgen.
  { induction chunks as [|d l IH]; intros n; simpl; [lia |].
    rewrite IH, length_app. lia. }
  by rewrite Hgen.
Qed.

End hash_more.

(** * Further properties of the storage clients *)

Section storage_more.
Import models.


(** X9. TiDB client, table [files]: a File record inserted under a free
    identifier is read back as it is (the conversions of the column types
    are not modelled); an insert under an identifier already taken fails
    and leaves the table as it was; reading an identifier that is not there
    is the error [file not found: <id>]. *)
Theorem tidb_create_get_file (file : File) (w : World) :
  tidb_insert_fault (faults w) (ID file) = None →
  tidb_select_fault (faults w) (ID file) = None →
  let ins := storage.CreateFile file w in
  match files w !! ID file with
  | None =>
    ins.1 = None
    ∧ (storage.GetFile (ID file) ins.2).1 = Ok file
    ∧ (storage.GetFile (ID file) w).1
      = Err (Errorf ("file not found: " +:+ ID file))
    ∧ ∃ err, (storage.CreateFile file ins.2).1 = Some err
  | Some old =>
    (∃ err, ins.1 = Some err)
    ∧ files ins.2 = files w
    ∧ (storage.GetFile (ID file) ins.2).1 = Ok old
  end.
Proof.
  intros Hins Hsel.
  unfold storage.CreateFile, storage.insert_into_files, storage.GetFile. unfold_M.
  unfold set_calls, set_files. simpl. rewrite Hins, Hsel.
  destruct (files w !! ID file) as [old|] eqn:Hold; simpl.
  - rewrite Hsel, Hold. simpl. split; [by eexists | done].
  - rewrite Hins, Hsel. simpl. rewrite lookup_insert_eq. simpl.
    repeat split; try done. by eexists.
Qed.

End storage_more.

Section tables_more.
Import models handlers.
Context {H : Sha256}.

Lemma insert_by_order_index_perm c l :
  storage.insert_by_order_index c l ≡ₚ c :: l.
Proof.
  induction l as [|d l IH]; simpl; [done |].
  case_decide; [done |]. rewrite IH. apply Permutation_swap.
Qed.

Lemma insert_by_order_index_sorted c l :
  StronglySorted (λ a b, Chunk_OrderIndex a ≤ Chunk_OrderIndex b) l →
  StronglySorted (λ a b, Chunk_OrderIndex a ≤ Chunk_OrderIndex b)
                 (storage.insert_by_order_index c l).
Proof.
  induction 1 as [|d l Hsorted IH Hall]; simpl.
  - repeat constructor.
  - case_decide as Hle.
    + constructor; [by constructor |]. constructor; [done |].
      eapply Forall_impl; [exact Hall |]. simpl. intros x Hx. lia.
    + constructor; [done |].
      rewrite insert_by_order_index_perm. constructor; [lia | done].
Qed.

Lemma select_chunks_perm fileID rows :
  storage.select_chunks fileID rows ≡ₚ filter (λ c, Chunk_FileID c = fileID) rows.
Proof.
  unfold storage.select_chunks.
  induction (filter (λ c, Chunk_FileID c = fileID) rows) as [|c l IH]; [done |].
  simpl. by rewrite insert_by_order_index_perm, IH.
Qed.

Lemma select_chunks_sorted fileID rows :
  StronglySorted (λ a b, Chunk_OrderIndex a ≤ Chunk_OrderIndex b)
                 (storage.select_chunks fileID rows).
Proof.
  unfold storage.select_chunks.
  induction (filter (λ c, Chunk_FileID c = fileID) rows) as [|c l IH]; simpl.
  - constructor.
  - by apply insert_by_order_index_sorted.
Qed.

(** Under the unique index no two rows of a file have the same order
    index. *)
Lemma select_chunks_distinct fileID rows :
  NoDup (chunk_key <$> rows) →
  NoDup (Chunk_OrderIndex <$> storage.select_chunks fileID rows).
Proof.
  intros Hnd. rewrite select_chunks_perm.
  induction rows as [|c rows IH]; [constructor |].
  rewrite fmap_cons in Hnd. apply NoDup_cons in Hnd as [Hnotin Hnd].
  destruct (decide (Chunk_FileID c = fileID)) as [Heq|Hne].
  - rewrite filter_cons_True by done. rewrite fmap_cons. apply NoDup_cons.
    split; [|by apply IH].
    intros Hin. apply list_elem_of_fmap in Hin as (c' & Hidx & Hin).
    apply list_elem_of_filter in Hin as [Hfid Hin].
    apply Hnotin. apply list_elem_of_fmap. exists c'. split; [|done].
    unfold chunk_key. by rewrite Hidx, Heq, Hfid.
  - rewrite filter_cons_False by done. by apply IH.
Qed.

(** X10. [GetChunks] returns the rows of the file, all of them and no
    others, in ascending order of their order index (strictly ascending
    under the unique index of the table), and changes nothing in the
    tables. *)
Theorem GetChunks_sorted_rows (fileID : string) (w : World) :
  tidb_select_fault (faults w) fileID = None →
  tidb_rows_fault (faults w) fileID = None →
  ∃ rows,
    (storage.GetChunks fileID w).1 = Ok rows
    ∧ rows ≡ₚ filter (λ c, Chunk_FileID c = fileID) (chunks w)
    ∧ StronglySorted (λ a b, Chunk_OrderIndex a ≤ Chunk_OrderIndex b) rows
    ∧ (NoDup (chunk_key <$> chunks w) → NoDup (Chunk_OrderIndex <$> rows))
    ∧ chunks (storage.GetChunks fileID w).2 = chunks w
    ∧ files (storage.GetChunks fileID w).2 = files w.
Proof.
  intros Hsel Hrows. unfold storage.GetChunks. unfold_M. unfold set_calls. simpl.
  rewrite Hsel, Hrows. simpl. eexists. split; [done |].
  split; [apply select_chunks_perm |]. split; [apply select_chunks_sorted |].
  split; [apply select_chunks_distinct | done].
Qed.

(** X11. [CreateChunk] enforces the constraints of table [chunks]: the
    row is appended exactly when its identifier is new, its pair of file
    identifier and order index is new and its file is stored; otherwise the
    insert fails and the table is as before.  Either way the tables still
    satisfy their constraints. *)
Theorem CreateChunk_constraints (chunk : Chunk) (w : World) :
  tidb_insert_fault (faults w) (Chunk_ID chunk) = None →
  db_ok w →
  let ins := storage.CreateChunk chunk w in
  db_ok ins.2
  ∧ (ins.1 = None ↔
     (Chunk_ID chunk ∉ (Chunk_ID <$> chunks w))
     ∧ (chunk_key chunk ∉ (chunk_key <$> chunks w))
     ∧ is_Some (files w !! Chunk_FileID chunk))
  ∧ chunks ins.2 = match ins.1 with
                   | None => chunks w ++ [chunk]
                   | Some _ => chunks w
                   end
  ∧ files ins.2 = files w.
Proof.
  intros Hins (Hfk & Hids & Hkeys).
  unfold storage.CreateChunk, storage.insert_into_chunks. unfold_M.
  unfold set_calls, set_chunks. simpl. rewrite Hins.
  case_decide as Hid; simpl.
  { split; [done |]. split; [|done]. split; [done |]. intros (Hn & _). exfalso.
    apply Hn. apply Exists_exists in Hid as (c & Hin & Heq).
    apply list_elem_of_fmap. by exists c. }
  case_decide as Hkey; simpl.
  { split; [done |]. split; [|done]. split; [done |]. intros (_ & Hn & _). exfalso.
    apply Hn. apply Exists_exists in Hkey as (c & Hin & Hf & Hi).
    apply list_elem_of_fmap. exists c. split; [|done]. unfold chunk_key. by rewrite Hf, Hi. }
  case_decide as Hfile; simpl.
  { split; [done |]. split; [|done]. split; [done |]. intros (_ & _ & Hn).
    rewrite Hfile in Hn. by destruct Hn. }
  assert (Chunk_ID chunk ∉ (Chunk_ID <$> chunks w)) as Hid'.
  { intros Hin. apply Hid. apply list_elem_of_fmap in Hin as (c & Heq & Hin).
    apply Exists_exists. by exists c. }
  assert (chunk_key chunk ∉ (chunk_key <$> chunks w)) as Hkey'.
  { intros Hin. apply Hkey. apply list_elem_of_fmap in Hin as (c & Heq & Hin).
    apply Exists_exists. exists c. split; [done |]. by injection Heq as -> ->. }
  split; [|split; [|done]].
  - split; [|split]; simpl.
    + intros c Hin. simpl in Hin. apply elem_of_app in Hin as [Hin|Hin]; [by apply Hfk |].
      apply list_elem_of_singleton in Hin as ->. simpl.
      destruct (files w !! Chunk_FileID chunk); [by eexists | done].
    + rewrite fmap_app. simpl. apply NoDup_app. split; [done |]. split.
      * intros x Hx Hx'. apply list_elem_of_singleton in Hx'. by subst.
      * apply NoDup_singleton.
    + rewrite fmap_app. simpl. apply NoDup_app. split; [done |]. split.
      * intros x Hx Hx'. apply list_elem_of_singleton in Hx'. by subst.
      * apply NoDup_singleton.
  - split; [|done]. intros _. split; [done |]. split; [done |].
    destruct (files w !! Chunk_FileID chunk); [by eexists | done].
Qed.

End tables_more.

(** * Further properties of the write handler *)

Section write_more.
Import models handlers.
Context {H : Sha256}.

(** What [uploadChunks] never touches. *)
Lemma uploadChunks_loop_frame fileID cs acc w :
  let w' := (WriteHandler.uploadChunks_loop fileID cs acc w).2 in
  files w' = files w ∧ chunks w' = chunks w ∧ cache w' = cache w
  ∧ faults w' = faults w ∧ uuids w' = uuids w ∧ now w' = now w ∧ logs w' = logs w.
Proof.
  revert acc w. induction cs as [|c cs IH]; intros acc w; cbv zeta; [done |].
  cbn [WriteHandler.uploadChunks_loop]. unfold storage.UploadChunk. unfold_M.
  unfold set_uuid_next, set_calls, set_bucket. simpl.
  destruct (minio_put_fault (faults w) _); [done |].
  match goal with
  | |- context [WriteHandler.uploadChunks_loop fileID cs ?a ?w0] =>
    destruct (IH a w0) as (-> & -> & -> & -> & -> & -> & ->)
  end.
  done.
Qed.

(** With no upload refused, [uploadChunks] uploads every chunk and returns
    one record per chunk, with the identifiers drawn in order. *)
Lemma uploadChunks_loop_succeeds fileID cs acc w :
  (∀ c, c ∈ cs →
     minio_put_fault (faults w) (WriteHandler.objectKey fileID (OrderIndex c)) = None) →
  let run := WriteHandler.uploadChunks_loop fileID cs acc w in
  run.1 = Ok (acc ++ zip_with (λ id c, chunk_model id fileID c)
                       ((λ i, uuids w (uuid_next w + i)%nat) <$> seq 0 (length cs)) cs)
  ∧ bucket run.2 = foldl (put_chunk fileID) (bucket w) cs
  ∧ calls run.2 = calls w ++ (put_call fileID <$> cs)
  ∧ uuid_next run.2 = (uuid_next w + length cs)%nat.
Proof.
  revert acc w. induction cs as [|c cs IH]; intros acc w Hall; cbv zeta.
  - simpl. rewrite !app_nil_r. split; [done |]. split; [done |]. split; [done | lia].
  - cbn [WriteHandler.uploadChunks_loop]. unfold storage.UploadChunk. unfold_M.
    unfold set_uuid_next, set_calls, set_bucket. simpl.
    rewrite Hall by (by left). simpl.
    match goal with
    | |- context [WriteHandler.uploadChunks_loop fileID cs ?a ?w0] =>
      destruct (IH a w0) as (Hres & Hb & Hc & Hn)
    end.
    { intros c' Hin. simpl. apply Hall. by right. }
    simpl in *. rewrite Hres, Hb, Hc, Hn.
    split; [|split; [done |split; [by rewrite <- app_assoc | lia]]].
    rewrite <- app_assoc. simpl. do 3 f_equal.
    + unfold chunk_model. by rewrite Nat.add_0_r.
    + f_equal. change (list_fmap nat string ?f ?l) with (f <$> l).
      rewrite <- fmap_S_seq, <- list_fmap_compose.
      apply list_fmap_ext. intros i x Hx. simpl. f_equal. lia.
Qed.

(** [CreateChunk] keeps the constraints of the tables, whatever it
    answers. *)
Lemma CreateChunk_db_ok chunk w :
  db_ok w → db_ok (storage.CreateChunk chunk w).2.
Proof.
  intros (Hfk & Hids & Hkeys).
  unfold storage.CreateChunk, storage.insert_into_chunks. unfold_M.
  unfold set_calls, set_chunks. simpl.
  destruct (tidb_insert_fault (faults w) (Chunk_ID chunk)); [done |].
  case_decide as Hid; [done |]. case_decide as Hkey; [done |].
  case_decide as Hfile; [done |]. simpl.
  split; [|split]; simpl.
  - intros c Hin. simpl in Hin. apply elem_of_app in Hin as [Hin|Hin]; [by apply Hfk |].
    apply list_elem_of_singleton in Hin as ->. simpl.
    destruct (files w !! Chunk_FileID chunk); [by eexists | done].
  - rewrite fmap_app. simpl. apply NoDup_app. split; [done |]. split.
    + intros x Hx Hx'. apply list_elem_of_singleton in Hx'. subst x.
      apply Hid. apply list_elem_of_fmap in Hx as (c & Heq & Hin).
      apply Exists_exists. by exists c.
    + apply NoDup_singleton.
  - rewrite fmap_app. simpl. apply NoDup_app. split; [done |]. split.
    + intros x Hx Hx'. apply list_elem_of_singleton in Hx'. subst x.
      apply Hkey. apply list_elem_of_fmap in Hx as (c & Heq & Hin).
      apply Exists_exists. exists c. split; [done |]. by injection Heq as -> ->.
    + apply NoDup_singleton.
Qed.

Lemma createChunks_loop_db_ok ms w :
  db_ok w → db_ok (WriteHandler.createChunks_loop ms w).2.
Proof.
  revert w. induction ms as [|m ms IH]; intros w Hdb; [done |].
  cbn [WriteHandler.createChunks_loop]. unfold_M.
  pose proof (CreateChunk_db_ok m w Hdb) as Hdb'.
  destruct (storage.CreateChunk m w) as [[err|] w1]; simpl in *; [done |].
  by apply IH.
Qed.

Lemma saveMetadata_db_ok file ms w :
  db_ok w → db_ok (WriteHandler.saveMetadata file ms w).2.
Proof.
  intros (Hfk & Hids & Hkeys). unfold WriteHandler.saveMetadata, storage.CreateFile,
    storage.insert_into_files. unfold_M. unfold set_calls, set_files. simpl.
  destruct (tidb_insert_fault (faults w) (ID file)); [done |].
  case_decide; [done |]. simpl.
  apply createChunks_loop_db_ok. split; [|done].
  intros c Hin. simpl in *. apply lookup_insert_is_Some'. right. by apply Hfk.
Qed.

(** What the inserts of [saveMetadata] never touch, and the calls they
    make. *)
Lemma createChunks_loop_frame ms w :
  let w' := (WriteHandler.createChunks_loop ms w).2 in
  bucket w' = bucket w ∧ files w' = files w ∧ cache w' = cache w
  ∧ faults w' = faults w ∧ logs w' = logs w
  ∧ uuids w' = uuids w ∧ uuid_next w' = uuid_next w ∧ now w' = now w
  ∧ ∃ k, calls w' = calls w ++ ((λ m, TidbInsertChunk (Chunk_ID m)) <$> take k ms).
Proof.
  revert w. induction ms as [|m ms IH]; intros w; cbv zeta.
  - simpl. repeat split; try done. exists 0%nat. by rewrite app_nil_r.
  - cbn [WriteHandler.createChunks_loop].
    unfold storage.CreateChunk, storage.insert_into_chunks. unfold_M.
    unfold set_calls, set_chunks. simpl.
    assert (∀ w0 : World,
              bucket w0 = bucket w → files w0 = files w → cache w0 = cache w →
              faults w0 = faults w → logs w0 = logs w →
              uuids w0 = uuids w → uuid_next w0 = uuid_next w → now w0 = now w →
              calls w0 = calls w ++ [TidbInsertChunk (Chunk_ID m)] →
              bucket w0 = bucket w ∧ files w0 = files w ∧ cache w0 = cache w
              ∧ faults w0 = faults w ∧ logs w0 = logs w
              ∧ uuids w0 = uuids w ∧ uuid_next w0 = uuid_next w ∧ now w0 = now w
              ∧ ∃ k, calls w0
                     = calls w ++ ((λ m, TidbInsertChunk (Chunk_ID m)) <$> take k (m :: ms)))
      as Hstop.
    { intros w0 ? ? ? ? ? ? ? ? Hc. repeat split; try done. exists 1%nat. by rewrite Hc. }
    destruct (tidb_insert_fault (faults w) (Chunk_ID m)); [by apply Hstop |].
    case_decide; [by apply Hstop |]. case_decide; [by apply Hstop |].
    case_decide; [by apply Hstop |]. simpl.
    match goal with
    | |- context [WriteHandler.createChunks_loop ms ?w0] =>
      destruct (IH w0) as (-> & -> & -> & -> & -> & -> & -> & -> & k & ->)
    end.
    simpl. repeat split; try done. exists (S k). simpl. by rewrite <- app_assoc.
Qed.

(** The inserts succeed when no insert is refused and every row passes the
    constraints. *)
Lemma createChunks_loop_succeeds ms w :
  (∀ m, m ∈ ms → tidb_insert_fault (faults w) (Chunk_ID m) = None) →
  (∀ m, m ∈ ms → is_Some (files w !! Chunk_FileID m)) →
  NoDup ((Chunk_ID <$> chunks w) ++ (Chunk_ID <$> ms)) →
  NoDup ((chunk_key <$> chunks w) ++ (chunk_key <$> ms)) →
  let run := WriteHandler.createChunks_loop ms w in
  run.1 = None
  ∧ chunks run.2 = chunks w ++ ms
  ∧ calls run.2 = calls w ++ ((λ m, TidbInsertChunk (Chunk_ID m)) <$> ms).
Proof.
  revert w. induction ms as [|m ms IH]; intros w Hfault Hfile Hids Hkeys; cbv zeta.
  - simpl. by rewrite !app_nil_r.
  - cbn [WriteHandler.createChunks_loop].
    unfold storage.CreateChunk, storage.insert_into_chunks. unfold_M.
    unfold set_calls, set_chunks. simpl.
    rewrite Hfault by (by left).
    rewrite fmap_cons in Hids. rewrite fmap_cons in Hkeys.
    rewrite decide_False.
    2:{ intros Hex. apply Exists_exists in Hex as (c & Hin & Heq).
        apply NoDup_app in Hids as (_ & Hdisj & _).
        apply (Hdisj (Chunk_ID m)); [|by left].
        apply list_elem_of_fmap. by exists c. }
    rewrite decide_False.
    2:{ intros Hex. apply Exists_exists in Hex as (c & Hin & Hf & Hi).
        apply NoDup_app in Hkeys as (_ & Hdisj & _).
        apply (Hdisj (chunk_key m)); [|by left].
        apply list_elem_of_fmap. exists c. split; [|done].
        unfold chunk_key. by rewrite Hf, Hi. }
    rewrite decide_False.
    2:{ intros Hnone. destruct (Hfile m) as [f Hf]; [by left |]. by rewrite Hnone in Hf. }
    simpl.
    match goal with
    | |- context [WriteHandler.createChunks_loop ms ?w0] =>
      destruct (IH w0) as (-> & -> & ->)
    end; simpl.
    + intros m' Hin. apply Hfault. by right.
    + intros m' Hin. apply Hfile. by right.
    + rewrite fmap_app. simpl. rewrite <- app_assoc. done.
    + rewrite fmap_app. simpl. rewrite <- app_assoc. done.
    + by rewrite <- !app_assoc.
Qed.

Lemma saveMetadata_succeeds file ms w :
  tidb_insert_fault (faults w) (ID file) = None →
  (∀ m, m ∈ ms → tidb_insert_fault (faults w) (Chunk_ID m) = None) →
  files w !! ID file = None →
  (∀ m, m ∈ ms → Chunk_FileID m = ID file) →
  NoDup ((Chunk_ID <$> chunks w) ++ (Chunk_ID <$> ms)) →
  NoDup ((chunk_key <$> chunks w) ++ (chunk_key <$> ms)) →
  let run := WriteHandler.saveMetadata file ms w in
  run.1 = None
  ∧ files run.2 = <[ID file := file]> (files w)
  ∧ chunks run.2 = chunks w ++ ms
  ∧ calls run.2
    = calls w ++ TidbInsertFile (ID file) :: ((λ m, TidbInsertChunk (Chunk_ID m)) <$> ms)
  ∧ bucket run.2 = bucket w ∧ cache run.2 = cache w ∧ faults run.2 = faults w
  ∧ logs run.2 = logs w ∧ uuids run.2 = uuids w ∧ uuid_next run.2 = uuid_next w
  ∧ now run.2 = now w.
Proof.
  intros Hfile Hrows Hnew Hbelong Hids Hkeys. cbv zeta.
  unfold WriteHandler.saveMetadata, storage.CreateFile, storage.insert_into_files.
  unfold_M. unfold set_calls, set_files. simpl. rewrite Hfile.
  rewrite decide_False by (rewrite Hnew; by intros [? ?]). simpl.
  match goal with
  | |- context [WriteHandler.createChunks_loop ms ?w0] =>
    pose proof (createChunks_loop_succeeds ms w0) as Hok;
    pose proof (createChunks_loop_frame ms w0) as Hframe;
    destruct (WriteHandler.createChunks_loop ms w0) as [r w1]
  end.
  simpl in Hok, Hframe. cbn [fst snd].
  destruct Hok as (-> & -> & ->); try done.
  { intros m Hm. rewrite (Hbelong m Hm). rewrite lookup_insert_eq. by eexists. }
  destruct Hframe as (-> & -> & -> & -> & -> & -> & -> & -> & _).
  rewrite <- app_assoc. done.
Qed.

(** The identifiers a write draws are new and distinct. *)
Lemma chunk_ids_length w n : length (chunk_ids w n) = n.
Proof. unfold chunk_ids. by rewrite length_fmap, length_seq. Qed.

Lemma chunk_ids_fresh w n :
  fresh_uuids w →
  NoDup (chunk_ids w n)
  ∧ (∀ id, id ∈ chunk_ids w n → id ∉ (Chunk_ID <$> chunks w))
  ∧ uuids w (uuid_next w) ∉ chunk_ids w n.
Proof.
  intros [Hinj Hnew]. unfold chunk_ids. split; [|split].
  - apply NoDup_fmap_2_strong; [|apply NoDup_seq].
    intros i j _ _ Heq. apply Hinj in Heq. lia.
  - intros id Hin. apply list_elem_of_fmap in Hin as (i & -> & _).
    apply Hnew. lia.
  - intros Hin. apply list_elem_of_fmap in Hin as (i & Heq & _).
    apply Hinj in Heq. lia.
Qed.

Lemma chunks_of_indexed wh data i c :
  1 ≤ chunker.chunkSize (WriteHandler.chunker wh) ≤ maxAlloc →
  Z.of_nat (length data) ≤ max_int64 →
  chunks_of wh data !! i = Some c →
  OrderIndex c = Z.of_nat i.
Proof.
  intros Hs Hmax. apply chunks_from_indexed.
  pose proof (segments_length_le (Z.to_nat (chunker.chunkSize (WriteHandler.chunker wh)))
                (length data) data) as Hle.
  specialize (Hle ltac:(lia) (le_n _)). lia.
Qed.

Lemma chunks_of_NoDup wh data :
  1 ≤ chunker.chunkSize (WriteHandler.chunker wh) ≤ maxAlloc →
  Z.of_nat (length data) ≤ max_int64 →
  NoDup (OrderIndex <$> chunks_of wh data).
Proof.
  intros Hs Hmax. apply NoDup_alt. intros i j x Hi Hj.
  rewrite list_lookup_fmap in Hi, Hj.
  destruct (chunks_of wh data !! i) as [a|] eqn:Ha; [|done].
  destruct (chunks_of wh data !! j) as [b|] eqn:Hb; [|done].
  apply (chunks_of_indexed wh data i a Hs Hmax) in Ha.
  apply (chunks_of_indexed wh data j b Hs Hmax) in Hb.
  simpl in Hi, Hj. injection Hi as <-. injection Hj as Hj. lia.
Qed.

Lemma rows_of_length wh data w : length (rows_of wh data w) = length (chunks_of wh data).
Proof. unfold rows_of. rewrite length_zip_with, chunk_ids_length. lia. Qed.

Lemma rows_of_ids wh data w :
  Chunk_ID <$> rows_of wh data w = chunk_ids w (length (chunks_of wh data)).
Proof.
  unfold rows_of. apply fmap_zip_with_l; [done |]. by rewrite chunk_ids_length.
Qed.

Lemma rows_of_keys wh data w :
  chunk_key <$> rows_of wh data w
  = (λ i, (uuids w (uuid_next w), i)) <$> (OrderIndex <$> chunks_of wh data).
Proof.
  unfold rows_of. rewrite <- list_fmap_compose.
  apply list_eq. intros i. rewrite !list_lookup_fmap, lookup_zip_with.
  destruct (chunk_ids w (length (chunks_of wh data)) !! i) as [id|] eqn:Hid; simpl.
  - by destruct (chunks_of wh data !! i).
  - apply lookup_ge_None in Hid. rewrite chunk_ids_length in Hid.
    by rewrite (proj2 (lookup_ge_None _ _) Hid).
Qed.

Lemma rows_of_lookup wh data w i m :
  rows_of wh data w !! i = Some m →
  ∃ c, chunks_of wh data !! i = Some c
       ∧ m = chunk_model (uuids w (S (uuid_next w) + i)) (uuids w (uuid_next w)) c.
Proof.
  unfold rows_of. intros Hm.
  apply lookup_zip_with_Some in Hm as (id & c & -> & Hid & Hc).
  exists c. split; [done |]. unfold chunk_ids in Hid.
  rewrite list_lookup_fmap in Hid.
  apply lookup_lt_Some in Hc as Hlt. rewrite lookup_seq_lt in Hid by done.
  by injection Hid as <-.
Qed.

(** The constraints of the tables hold for the rows of a write. *)
Lemma rows_of_constraints wh data w :
  1 ≤ chunker.chunkSize (WriteHandler.chunker wh) ≤ maxAlloc →
  Z.of_nat (length data) ≤ max_int64 →
  fresh_uuids w →
  db_ok w →
  files w !! uuids w (uuid_next w) = None
  ∧ (∀ m, m ∈ rows_of wh data w → Chunk_FileID m = uuids w (uuid_next w))
  ∧ NoDup ((Chunk_ID <$> chunks w) ++ (Chunk_ID <$> rows_of wh data w))
  ∧ NoDup ((chunk_key <$> chunks w) ++ (chunk_key <$> rows_of wh data w)).
Proof.
  intros Hs Hmax Hfresh (Hfk & Hids & Hkeys).
  destruct (chunk_ids_fresh w (length (chunks_of wh data)) Hfresh) as (Hnd & Hnew & _).
  assert (files w !! uuids w (uuid_next w) = None) as Hfile.
  { destruct Hfresh as [_ Hnew']. by apply Hnew'. }
  split; [done |]. split; [|split].
  - intros m Hm. apply list_elem_of_lookup in Hm as [i Hm].
    by apply rows_of_lookup in Hm as (c & _ & ->).
  - rewrite rows_of_ids. apply NoDup_app. split; [done |]. split; [|done].
    intros id Hold Hin. by apply (Hnew id Hin).
  - rewrite rows_of_keys. apply NoDup_app. split; [done |]. split.
    + intros key Hold Hin.
      apply list_elem_of_fmap in Hin as (i & -> & _).
      apply list_elem_of_fmap in Hold as (c & Hkey & Hc).
      destruct (Hfk c Hc) as [f Hf]. injection Hkey as Hkey _.
      rewrite <- Hkey, Hfile in Hf. done.
    + apply NoDup_fmap_2; [by intros a b [= ->] |]. by apply chunks_of_NoDup.
Qed.

(** The run of a write no service refuses, from a world in which the
    identifiers to come are new and the tables satisfy their
    constraints. *)
Lemma WriteHandler_ServeHTTP_run wh fuel filename data w :
  filename ≠ "" →
  1 ≤ chunker.chunkSize (WriteHandler.chunker wh) ≤ maxAlloc →
  Z.of_nat (length data) ≤ max_int64 →
  (length data < fuel)%nat →
  (∀ key, minio_put_fault (faults w) key = None) →
  (∀ id, tidb_insert_fault (faults w) id = None) →
  fresh_uuids w →
  db_ok w →
  let fileID := uuids w (uuid_next w) in
  let cs := chunks_of wh data in
  let run := WriteHandler.ServeHTTP wh fuel filename (mkReader data EOF) w in
  run.1 = Done (mkResponse StatusCreated [("Content-Type", "application/json")]
                  (Json (mkWriteResponse fileID filename (Z.of_nat (length data))
                           (Z.of_nat (length cs)) "File uploaded successfully")))
  ∧ bucket run.2 = foldl (put_chunk fileID) (bucket w) cs
  ∧ files run.2 = <[fileID := file_of wh filename data w]> (files w)
  ∧ chunks run.2 = chunks w ++ rows_of wh data w
  ∧ cache run.2 = match redis_del_fault (faults w) (storage.cache_key fileID) with
                  | Some _ => cache w
                  | None => delete (storage.cache_key fileID) (cache w)
                  end
  ∧ calls run.2 = calls w ++ write_calls wh data w
  ∧ faults run.2 = faults w
  ∧ uuids run.2 = uuids w
  ∧ uuid_next run.2 = S (uuid_next w + length cs).
Proof.
  intros Hname Hs Hmax Hfuel Hput Hins Hfresh Hdb. cbv zeta.
  unfold WriteHandler.ServeHTTP. rewrite decide_False by done.
  unfold WriteHandler.chunkStream, chunker.ChunkStream.
  rewrite ChunkStream_loop_clean by done.
  assert (chunker_spec.total_from
            (chunker_spec.segments (length data)
               (Z.to_nat (chunker.chunkSize (WriteHandler.chunker wh))) data) 0
          = Z.of_nat (length data)) as ->.
  { rewrite total_from_sum; rewrite ?segments_total; lia. }
  rewrite app_nil_l. fold (chunks_of wh data).
  unfold_M. cbv beta iota zeta. unfold WriteHandler.uploadChunks.
  set (fileID := uuids w (uuid_next w)).
  set (cs := chunks_of wh data).
  match goal with
  | |- context [WriteHandler.uploadChunks_loop fileID cs [] ?w0] =>
    pose proof (uploadChunks_loop_succeeds fileID cs [] w0) as Hup;
    pose proof (uploadChunks_loop_frame fileID cs [] w0) as Hframe;
    destruct (WriteHandler.uploadChunks_loop fileID cs [] w0) as [r wa]
  end.
  unfold set_logs, set_uuid_next in Hup, Hframe. simpl in Hup, Hframe.
  destruct Hup as (-> & Hb & Hc & Hu); [by intros |].
  destruct Hframe as (Hf & Hch & Hca & Hfa & Huu & Hnow & Hlogs).
  cbv beta iota zeta.
  change (zip_with _ _ cs) with (rows_of wh data w).
  destruct (rows_of_constraints wh data w Hs Hmax Hfresh Hdb)
    as (Hnew & Hbelong & Hids & Hkeys).
  match goal with
  | |- context [WriteHandler.saveMetadata ?f ?ms ?w0] =>
    pose proof (saveMetadata_succeeds f ms w0) as Hsave;
    destruct (WriteHandler.saveMetadata f ms w0) as [r wb]
  end.
  unfold set_logs in Hsave. simpl in Hsave.
  rewrite Hfa, Hf, Hch in Hsave.
  destruct Hsave as (-> & Hf' & Hch' & Hc' & Hb' & Hca' & Hfa' & _ & Huu' & Hu' & _);
    try done.
  cbv beta iota zeta.
  unfold WriteHandler.invalidateCache, storage.InvalidateFileMetadata. unfold_M.
  unfold set_calls, set_cache, set_logs. simpl.
  rewrite Hfa'. rewrite Hnow in Hf'.
  assert (calls wb ++ [RedisDel (storage.cache_key fileID)]
          = calls w ++ write_calls wh data w) as Hcalls.
  { rewrite Hc', Hc. unfold write_calls.
    rewrite <- (rows_of_ids wh data w), <- list_fmap_compose, <- !app_assoc. done. }
  destruct (redis_del_fault (faults w) (storage.cache_key fileID)); simpl;
    rewrite Hcalls, Hb', Hb, Hf', Hch', Hca', Hca, Huu', Huu, Hu', Hu; done.
Qed.

End write_more.

(** ** The read handler *)

Section read_more.
Import models handlers handlers.ReadHandler.
Context {H : Sha256}.

Lemma resolve_frame fileID w : read_frame w (resolve fileID w).2.
Proof.
  unfold resolve. unfold_M. cbv beta iota zeta.
  set (w0 := set_logs (λ ls, ls ++ ["Reading file: " +:+ fileID]) w).
  pose proof (getFileMetadata_frame fileID w0) as Hf1.
  destruct (getFileMetadata fileID w0) as [[[file|]|err] w1]; simpl in Hf1;
    cbv beta iota zeta; [|exact Hf1|exact Hf1].
  pose proof (getChunkMetadata_spec fileID w1) as [Hf2 _].
  destruct (getChunkMetadata fileID w1) as [[metas|err] w2]; simpl in Hf2;
    cbv beta iota zeta.
  - eapply read_frame_trans; [exact Hf1 |].
    eapply read_frame_trans; [exact Hf2 | apply read_frame_logs].
  - eapply read_frame_trans; [exact Hf1 | exact Hf2].
Qed.

(** With the cache and the tables answering, the steps before the fan-out
    find the File record, in the cache or else in the table, and the chunk
    records of the file in the order of their index. *)
Lemma resolve_found fileID w :
  redis_get_fault (faults w) (storage.cache_key fileID) = None →
  tidb_select_fault (faults w) fileID = None →
  tidb_rows_fault (faults w) fileID = None →
  is_Some (cache w !! storage.cache_key fileID) ∨ is_Some (files w !! fileID) →
  ∃ file,
    (resolve fileID w).1 = inr (file, storage.select_chunks fileID (chunks w))
    ∧ match cache w !! storage.cache_key fileID with
      | Some (cached, _) => file = storage.json_File cached
      | None => files w !! fileID = Some file
      end.
Proof.
  intros Hget Hsel Hrows Hsome.
  unfold resolve, getFileMetadata, getChunkMetadata, storage.GetFileMetadata,
    storage.GetFile, storage.SetFileMetadata, storage.GetChunks.
  unfold_M. unfold set_calls, set_logs, set_cache. simpl. rewrite Hget.
  destruct (cache w !! storage.cache_key fileID) as [[cached ttl]|] eqn:Hc; simpl.
  - rewrite Hsel, Hrows. simpl. by exists (storage.json_File cached).
  - rewrite Hsel. destruct Hsome as [[? ?]|[file Hfile]]; [done |].
    rewrite Hfile. simpl.
    destruct (redis_set_fault (faults w) (storage.cache_key fileID)); simpl;
      rewrite Hsel, Hrows; simpl; by exists file.
Qed.

(** When the metadata is found and no unit of the fan-out fails, the read
    answers 200. *)
Lemma ServeHTTP_succeeds sched fileID w :
  fileID ≠ "" →
  (∀ n, sched n ≡ₚ seq 0 n) →
  redis_get_fault (faults w) (storage.cache_key fileID) = None →
  tidb_select_fault (faults w) fileID = None →
  tidb_rows_fault (faults w) fileID = None →
  is_Some (cache w !! storage.cache_key fileID) ∨ is_Some (files w !! fileID) →
  (∀ m, m ∈ storage.select_chunks fileID (chunks w) → ¬ unit_fails w m) →
  ∃ file slots,
    (ServeHTTP sched fileID w).1 = ok_response file (chunker.ReassembleChunks slots)
    ∧ match cache w !! storage.cache_key fileID with
      | Some (cached, _) => file = storage.json_File cached
      | None => files w !! fileID = Some file
      end.
Proof.
  intros Hid Hsched Hget Hsel Hrows Hsome Hunits.
  rewrite ServeHTTP_resolve by done. unfold_M.
  destruct (resolve_found fileID w Hget Hsel Hrows Hsome) as (file & Hres & Hfile).
  pose proof (resolve_frame fileID w) as Hframe.
  destruct (resolve fileID w) as [r w2]. simpl in Hres, Hframe. subst r.
  cbv beta iota zeta. unfold respond. unfold_M.
  set (metas := storage.select_chunks fileID (chunks w)).
  destruct (fetchChunksParallel_succeeds (sched (length metas)) metas w2 (Hsched _))
    as (slots & Hslots & _).
  { intros i meta Hmeta.
    rewrite <- (unit_fails_same_blobs w w2 meta (read_frame_same_blobs _ _ Hframe)).
    apply Hunits. by apply list_elem_of_lookup_2 in Hmeta. }
  destruct (fetchChunksParallel (sched (length metas)) metas w2) as [r w3].
  simpl in Hslots. subst r. cbv beta iota zeta. simpl.
  by exists file, slots.
Qed.

End read_more.

(** ** A write no service refuses *)

Section handlers_more.
Import models handlers.
Context {H : Sha256}.

Lemma chunks_from_hash segs orderIndex c :
  c ∈ chunker_spec.chunks_from segs orderIndex →
  Hash c = chunker.ComputeHash (Data c) ∧ CD_Size c = Z.of_nat (length (Data c)).
Proof.
  revert orderIndex. induction segs as [|d segs IH]; intros orderIndex Hin.
  - by apply not_elem_of_nil in Hin.
  - simpl in Hin. apply elem_of_cons in Hin as [->|Hin]; [done | by eapply IH].
Qed.

Lemma rows_of_indexed wh data w i m :
  1 ≤ chunker.chunkSize (WriteHandler.chunker wh) ≤ maxAlloc →
  Z.of_nat (length data) ≤ max_int64 →
  rows_of wh data w !! i = Some m →
  Chunk_OrderIndex m = Z.of_nat i.
Proof.
  intros Hs Hmax Hm. apply rows_of_lookup in Hm as (c & Hc & ->). simpl.
  by apply (chunks_of_indexed wh data i c).
Qed.

(** The chunk records of the new file, as a read selects them, are the
    rows the write built. *)
Lemma select_rows_of wh data w :
  1 ≤ chunker.chunkSize (WriteHandler.chunker wh) ≤ maxAlloc →
  Z.of_nat (length data) ≤ max_int64 →
  fresh_uuids w →
  db_ok w →
  storage.select_chunks (uuids w (uuid_next w)) (chunks w ++ rows_of wh data w)
  = rows_of wh data w.
Proof.
  intros Hs Hmax Hfresh Hdb.
  destruct (rows_of_constraints wh data w Hs Hmax Hfresh Hdb) as (Hnew & Hbelong & _).
  apply select_chunks_fresh; [|done|].
  - intros c Hc Heq. destruct Hdb as (Hfk & _). destruct (Hfk c Hc) as [f Hf].
    rewrite Heq, Hnew in Hf. done.
  - intros i m Hm. by apply (rows_of_indexed wh data w).
Qed.

(** The object of each row is in the bucket the uploads leave, with the
    recorded hash. *)
Lemma rows_of_stored wh data w b m :
  1 ≤ chunker.chunkSize (WriteHandler.chunker wh) ≤ maxAlloc →
  Z.of_nat (length data) ≤ max_int64 →
  m ∈ rows_of wh data w →
  ∃ d, foldl (put_chunk (uuids w (uuid_next w))) b (chunks_of wh data)
         !! Chunk_MinioObjectKey m = Some d
       ∧ chunker.ComputeHash d = Chunk_Hash m
       ∧ Z.of_nat (length d) = Chunk_Size m.
Proof.
  intros Hs Hmax Hm. apply list_elem_of_lookup in Hm as [i Hm].
  apply rows_of_lookup in Hm as (c & Hc & ->). simpl.
  exists (Data c). split.
  - apply (foldl_put_chunk_lookup _ _ _ i); [by apply chunks_of_NoDup | done].
  - apply list_elem_of_lookup_2 in Hc. apply chunks_from_hash in Hc as [-> ->]. done.
Qed.

Lemma total_size_rows_of wh data w :
  1 ≤ chunker.chunkSize (WriteHandler.chunker wh) ≤ maxAlloc →
  total_size (rows_of wh data w) = Z.of_nat (length data).
Proof.
  intros Hs.
  assert (∀ ids cs fileID,
            length ids = length cs →
            total_size (zip_with (λ id c, chunk_model id fileID c) ids cs)
            = foldr (λ ch acc, CD_Size ch + acc) 0 cs) as Hsum.
  { intros ids cs fileID. revert ids.
    induction cs as [|c cs IH]; intros [|id ids] Hlen; try done.
    simpl in *. rewrite IH by lia. done. }
  unfold rows_of. rewrite Hsum by (by rewrite chunk_ids_length).
  unfold chunks_of. rewrite chunks_from_sizes, segments_total; [done | lia | done].
Qed.

Lemma fresh_uuids_empty_world : fresh_uuids empty_world.
Proof.
  split.
  - intros i j Heq. simpl in Heq. apply String.app_inj in Heq.
    by apply (inj pretty) in Heq.
  - intros k _. split; [done |]. split; [done |]. simpl. apply not_elem_of_nil.
Qed.

Lemma db_ok_empty_world : db_ok empty_world.
Proof.
  split; [apply fk_ok_empty |]. split; simpl; apply NoDup_nil_2.
Qed.

(** X12. A write no service refuses answers 201 and stores consistent
    metadata: the File record under the returned identifier has the byte
    count of the body as its size and, as its chunk count, the number of
    chunk records stored for the file, which is the body length divided by
    the chunk size, rounded up; the recorded chunk sizes add up to the file
    size, every chunk record names an object of the bucket with the recorded
    hash and size, and the tables still satisfy their constraints.  (For a
    handler whose chunk size the runtime can allocate, from 1 to [maxAlloc]
    bytes: above it the handler panics in [ChunkStream].) *)
Theorem WriteHandler_ServeHTTP_consistent_metadata
    (wh : WriteHandler.WriteHandler) (fuel : nat) (filename : string)
    (data : list byte) (w : World) :
  filename ≠ "" →
  1 ≤ chunker.chunkSize (WriteHandler.chunker wh) ≤ maxAlloc →
  Z.of_nat (length data) ≤ max_int64 →
  (length data < fuel)%nat →
  (∀ key, minio_put_fault (faults w) key = None) →
  (∀ id, tidb_insert_fault (faults w) id = None) →
  fresh_uuids w →
  db_ok w →
  let run := WriteHandler.ServeHTTP wh fuel filename (mkReader data EOF) w in
  let fileID := uuids w (uuid_next w) in
  let rows := storage.select_chunks fileID (chunks run.2) in
  let chunkSize := chunker.chunkSize (WriteHandler.chunker wh) in
  ∃ file,
    run.1 = Done (mkResponse StatusCreated [("Content-Type", "application/json")]
                    (Json (mkWriteResponse fileID filename (Size file) (ChunkCount file)
                             "File uploaded successfully")))
    ∧ files run.2 !! fileID = Some file
    ∧ ID file = fileID
    ∧ Name file = filename
    ∧ Size file = Z.of_nat (length data)
    ∧ ChunkCount file = Z.of_nat (length rows)
    ∧ ChunkCount file = (Z.of_nat (length data) + chunkSize - 1) / chunkSize
    ∧ total_size rows = Size file
    ∧ (∀ m, m ∈ rows →
         ∃ d, bucket run.2 !! Chunk_MinioObjectKey m = Some d
              ∧ chunker.ComputeHash d = Chunk_Hash m
              ∧ Z.of_nat (length d) = Chunk_Size m)
    ∧ db_ok run.2.
Proof.
  intros Hname Hs Hmax Hfuel Hput Hins Hfresh Hdb. cbv zeta.
  destruct (WriteHandler_ServeHTTP_run wh fuel filename data w
              Hname Hs Hmax Hfuel Hput Hins Hfresh Hdb)
    as (Hresp & Hb & Hf & Hc & _).
  destruct (rows_of_constraints wh data w Hs Hmax Hfresh Hdb)
    as (Hnew & Hbelong & Hids & Hkeys).
  rewrite Hc, Hb, Hf, select_rows_of by done.
  exists (file_of wh filename data w).
  split; [exact Hresp |]. split; [by rewrite lookup_insert_eq |].
  split; [done |]. split; [done |]. split; [done |].
  split; [simpl; by rewrite rows_of_length |].
  split.
  { simpl. unfold chunks_of. rewrite chunks_from_length, segments_length by lia.
    by rewrite Z2Nat.id by lia. }
  split; [by apply total_size_rows_of |].
  split; [intros m Hm; by apply rows_of_stored |].
  split; [|split].
  - intros c Hin. rewrite Hc in Hin. rewrite Hf.
    apply lookup_insert_is_Some'. apply elem_of_app in Hin as [Hin|Hin].
    + right. destruct Hdb as (Hfk & _). by apply Hfk.
    + left. symmetry. by apply Hbelong.
  - by rewrite Hc, fmap_app.
  - by rewrite Hc, fmap_app.
Qed.

(** X13. The effects of a write no service but the cache refuses come in
    a fixed order: one upload per chunk in the order of the chunks, then the
    insert of the File record, then one insert per chunk record in the same
    order, then one removal of the cache entry of the new identifier, and
    nothing else.  A cache that refuses the removal does not fail the write:
    the answer is the same and the cache is left as it was.  (For a handler
    whose chunk size the runtime can allocate, from 1 to [maxAlloc]
    bytes.) *)
Theorem WriteHandler_ServeHTTP_effects
    (wh : WriteHandler.WriteHandler) (fuel : nat) (filename : string)
    (data : list byte) (w : World) :
  filename ≠ "" →
  1 ≤ chunker.chunkSize (WriteHandler.chunker wh) ≤ maxAlloc →
  Z.of_nat (length data) ≤ max_int64 →
  (length data < fuel)%nat →
  (∀ key, minio_put_fault (faults w) key = None) →
  (∀ id, tidb_insert_fault (faults w) id = None) →
  fresh_uuids w →
  db_ok w →
  let run := WriteHandler.ServeHTTP wh fuel filename (mkReader data EOF) w in
  let fileID := uuids w (uuid_next w) in
  new_calls w run.2
  = (put_call fileID <$> chunks_of wh data)
    ++ [TidbInsertFile fileID]
    ++ (TidbInsertChunk <$> chunk_ids w (length (chunks_of wh data)))
    ++ [RedisDel (storage.cache_key fileID)]
  ∧ (∃ resp, run.1 = Done resp ∧ StatusCode resp = StatusCreated)
  ∧ cache run.2 = match redis_del_fault (faults w) (storage.cache_key fileID) with
                  | Some _ => cache w
                  | None => delete (storage.cache_key fileID) (cache w)
                  end.
Proof.
  intros Hname Hs Hmax Hfuel Hput Hins Hfresh Hdb. cbv zeta.
  destruct (WriteHandler_ServeHTTP_run wh fuel filename data w
              Hname Hs Hmax Hfuel Hput Hins Hfresh Hdb)
    as (Hresp & _ & _ & _ & Hcache & Hcalls & _).
  split; [|split; [|exact Hcache]].
  - unfold new_calls. rewrite Hcalls, drop_app_length. done.
  - eexists. split; [exact Hresp | done].
Qed.

End handlers_more.

(** ** Writes that fail *)

Section failures_more.
Import models handlers.
Context {H : Sha256}.

(** The upload loop stops at the first upload MinIO refuses: the chunks
    before it are in the bucket, the ones after it were not sent. *)
Lemma uploadChunks_loop_fails_at fileID cs acc w k c e :
  cs !! k = Some c →
  minio_put_fault (faults w) (WriteHandler.objectKey fileID (OrderIndex c)) = Some e →
  (∀ j c', (j < k)%nat → cs !! j = Some c' →
           minio_put_fault (faults w) (WriteHandler.objectKey fileID (OrderIndex c')) = None) →
  let run := WriteHandler.uploadChunks_loop fileID cs acc w in
  run.1 = Err (Errorf ("failed to upload chunk " +:+ pretty (OrderIndex c)
                       +:+ ": failed to upload chunk: " +:+ Error e))
  ∧ bucket run.2 = foldl (put_chunk fileID) (bucket w) (take k cs)
  ∧ calls run.2 = calls w ++ (put_call fileID <$> take (S k) cs).
Proof.
  revert k acc w. induction cs as [|c0 cs IH]; intros k acc w Hk He Hbefore; [done |].
  cbv zeta. cbn [WriteHandler.uploadChunks_loop]. unfold storage.UploadChunk. unfold_M.
  unfold set_uuid_next, set_calls, set_bucket. simpl.
  destruct k as [|k].
  - injection Hk as ->. rewrite He. simpl. done.
  - rewrite (Hbefore 0%nat c0) by (done || lia). simpl.
    match goal with
    | |- context [WriteHandler.uploadChunks_loop fileID cs ?a ?w0] =>
      destruct (IH k a w0) as (-> & -> & ->)
    end; simpl; try done.
    + intros j c' Hj Hc'. apply (Hbefore (S j) c'); [lia | done].
    + split; [done |]. split; [done |]. by rewrite <- app_assoc.
Qed.

(** The inserts of the chunk records stop at the first one TiDB refuses:
    the rows before it stay in the table. *)
Lemma createChunks_loop_stops pre m rest w e :
  tidb_insert_fault (faults w) (Chunk_ID m) = Some e →
  (∀ m', m' ∈ pre → tidb_insert_fault (faults w) (Chunk_ID m') = None) →
  (∀ m', m' ∈ pre → is_Some (files w !! Chunk_FileID m')) →
  NoDup ((Chunk_ID <$> chunks w) ++ (Chunk_ID <$> pre)) →
  NoDup ((chunk_key <$> chunks w) ++ (chunk_key <$> pre)) →
  let run := WriteHandler.createChunks_loop (pre ++ m :: rest) w in
  run.1 = Some (Errorf ("failed to create chunk record: failed to insert chunk: "
                        +:+ Error e))
  ∧ chunks run.2 = chunks w ++ pre
  ∧ calls run.2 = calls w ++ ((λ m, TidbInsertChunk (Chunk_ID m)) <$> pre ++ [m]).
Proof.
  revert w. induction pre as [|p pre IH]; intros w He Hpre Hfile Hids Hkeys; cbv zeta.
  - simpl. unfold storage.CreateChunk, storage.insert_into_chunks. unfold_M.
    unfold set_calls. simpl. rewrite He. simpl. by rewrite app_nil_r.
  - cbn [app WriteHandler.createChunks_loop].
    unfold storage.CreateChunk, storage.insert_into_chunks. unfold_M.
    unfold set_calls, set_chunks. simpl.
    rewrite Hpre by (by left).
    rewrite fmap_cons in Hids. rewrite fmap_cons in Hkeys.
    rewrite decide_False.
    2:{ intros Hex. apply Exists_exists in Hex as (c & Hin & Heq).
        apply NoDup_app in Hids as (_ & Hdisj & _).
        apply (Hdisj (Chunk_ID p)); [|by left].
        apply list_elem_of_fmap. by exists c. }
    rewrite decide_False.
    2:{ intros Hex. apply Exists_exists in Hex as (c & Hin & Hf & Hi).
        apply NoDup_app in Hkeys as (_ & Hdisj & _).
        apply (Hdisj (chunk_key p)); [|by left].
        apply list_elem_of_fmap. exists c. split; [|done].
        unfold chunk_key. by rewrite Hf, Hi. }
    rewrite decide_False.
    2:{ intros Hnone. destruct (Hfile p) as [f Hf]; [by left |]. by rewrite Hnone in Hf. }
    simpl.
    match goal with
    | |- context [WriteHandler.createChunks_loop ?l ?w0] =>
      destruct (IH w0) as (-> & -> & ->)
    end; simpl; try done.
    + intros m' Hin. apply Hpre. by right.
    + intros m' Hin. apply Hfile. by right.
    + rewrite fmap_app. simpl. by rewrite <- app_assoc.
    + rewrite fmap_app. simpl. by rewrite <- app_assoc.
    + split; [done |]. by rewrite <- !app_assoc.
Qed.

Lemma saveMetadata_stops file pre m rest w e :
  tidb_insert_fault (faults w) (ID file) = None →
  files w !! ID file = None →
  tidb_insert_fault (faults w) (Chunk_ID m) = Some e →
  (∀ m', m' ∈ pre → tidb_insert_fault (faults w) (Chunk_ID m') = None) →
  (∀ m', m' ∈ pre → Chunk_FileID m' = ID file) →
  NoDup ((Chunk_ID <$> chunks w) ++ (Chunk_ID <$> pre)) →
  NoDup ((chunk_key <$> chunks w) ++ (chunk_key <$> pre)) →
  let run := WriteHandler.saveMetadata file (pre ++ m :: rest) w in
  run.1 = Some (Errorf ("failed to create chunk record: failed to insert chunk: "
                        +:+ Error e))
  ∧ files run.2 = <[ID file := file]> (files w)
  ∧ chunks run.2 = chunks w ++ pre
  ∧ calls run.2
    = calls w ++ TidbInsertFile (ID file)
                 :: ((λ m, TidbInsertChunk (Chunk_ID m)) <$> pre ++ [m])
  ∧ bucket run.2 = bucket w
  ∧ cache run.2 = cache w.
Proof.
  intros Hfile Hnew He Hpre Hbelong Hids Hkeys. cbv zeta.
  unfold WriteHandler.saveMetadata, storage.CreateFile, storage.insert_into_files.
  unfold_M. unfold set_calls, set_files. simpl. rewrite Hfile.
  rewrite decide_False by (rewrite Hnew; by intros [? ?]). simpl.
  match goal with
  | |- context [WriteHandler.createChunks_loop _ ?w0] =>
    pose proof (createChunks_loop_stops pre m rest w0 e) as Hstop;
    pose proof (createChunks_loop_frame (pre ++ m :: rest) w0) as Hframe;
    destruct (WriteHandler.createChunks_loop (pre ++ m :: rest) w0) as [r w1]
  end.
  simpl in Hstop, Hframe. cbn [fst snd].
  destruct Hstop as (-> & -> & ->); try done.
  { intros m' Hm. rewrite (Hbelong m' Hm). rewrite lookup_insert_eq. by eexists. }
  destruct Hframe as (-> & -> & -> & _).
  rewrite <- app_assoc. done.
Qed.

(** X15. A request body that breaks while it is read (with an error
    other than the two end-of-file errors) makes the write answer 500 with
    the error in the message, before any service is called: nothing is
    uploaded, inserted or removed, whatever had been read.  (For a handler
    whose chunk size the runtime can allocate, from 1 to [maxAlloc]
    bytes.) *)
Theorem WriteHandler_ServeHTTP_broken_body
    (wh : WriteHandler.WriteHandler) (fuel : nat) (filename : string)
    (data : list byte) (fin : error) (w : World) :
  filename ≠ "" →
  1 ≤ chunker.chunkSize (WriteHandler.chunker wh) ≤ maxAlloc →
  (length data < fuel)%nat →
  fin ≠ EOF →
  fin ≠ ErrUnexpectedEOF →
  let run := WriteHandler.ServeHTTP wh fuel filename (mkReader data fin) w in
  run.1 = Done (http_Error ("failed to chunk file: error reading chunk: " +:+ Error fin)
                           StatusInternalServerError)
  ∧ new_calls w run.2 = []
  ∧ bucket run.2 = bucket w
  ∧ files run.2 = files w
  ∧ chunks run.2 = chunks w
  ∧ cache run.2 = cache w.
Proof.
  intros Hname Hs Hfuel Hne1 Hne2. cbv zeta.
  unfold WriteHandler.ServeHTTP. rewrite decide_False by done.
  unfold WriteHandler.chunkStream, chunker.ChunkStream.
  rewrite ChunkStream_loop_broken by done.
  unfold_M. unfold set_logs, set_uuid_next, new_calls. simpl.
  by rewrite drop_all.
Qed.

(** X16. An upload MinIO refuses ends the write with status 500 and the
    index of the chunk in the message.  The chunks after it are not sent and
    no metadata is written: the tables and the cache are untouched.  The
    chunks uploaded before it are not removed: they stay in the bucket with
    no record pointing at them.  (For a handler whose chunk size the runtime
    can allocate, from 1 to [maxAlloc] bytes.) *)
Theorem WriteHandler_ServeHTTP_upload_failure
    (wh : WriteHandler.WriteHandler) (fuel : nat) (filename : string)
    (data : list byte) (w : World) (k : nat) (c : ChunkData) (e : error) :
  filename ≠ "" →
  1 ≤ chunker.chunkSize (WriteHandler.chunker wh) ≤ maxAlloc →
  (length data < fuel)%nat →
  let fileID := uuids w (uuid_next w) in
  let cs := chunks_of wh data in
  cs !! k = Some c →
  minio_put_fault (faults w) (WriteHandler.objectKey fileID (OrderIndex c)) = Some e →
  (∀ j c', (j < k)%nat → cs !! j = Some c' →
           minio_put_fault (faults w) (WriteHandler.objectKey fileID (OrderIndex c'))
           = None) →
  let run := WriteHandler.ServeHTTP wh fuel filename (mkReader data EOF) w in
  run.1 = Done (http_Error ("failed to upload chunks: failed to upload chunk "
                            +:+ pretty (OrderIndex c)
                            +:+ ": failed to upload chunk: " +:+ Error e)
                           StatusInternalServerError)
  ∧ new_calls w run.2 = (put_call fileID <$> take (S k) cs)
  ∧ bucket run.2 = foldl (put_chunk fileID) (bucket w) (take k cs)
  ∧ files run.2 = files w
  ∧ chunks run.2 = chunks w
  ∧ cache run.2 = cache w.
Proof.
  intros Hname Hs Hfuel fileID cs Hk He Hbefore. cbv zeta.
  unfold WriteHandler.ServeHTTP. rewrite decide_False by done.
  unfold WriteHandler.chunkStream, chunker.ChunkStream.
  rewrite ChunkStream_loop_clean by done.
  rewrite app_nil_l. fold (chunks_of wh data). fold cs.
  unfold_M. cbv beta iota zeta. unfold WriteHandler.uploadChunks. fold fileID.
  match goal with
  | |- context [WriteHandler.uploadChunks_loop fileID cs [] ?w0] =>
    pose proof (uploadChunks_loop_fails_at fileID cs [] w0 k c e Hk He Hbefore) as Hup;
    pose proof (uploadChunks_loop_frame fileID cs [] w0) as Hframe;
    destruct (WriteHandler.uploadChunks_loop fileID cs [] w0) as [r wa]
  end.
  unfold set_logs, set_uuid_next in Hup, Hframe. simpl in Hup, Hframe.
  destruct Hup as (-> & Hb & Hc).
  destruct Hframe as (Hf & Hch & Hca & _).
  cbv beta iota zeta. cbn [fst snd].
  split; [done |]. unfold new_calls. rewrite Hc, drop_app_length. done.
Qed.

(** X17. The metadata is not written atomically and a failed write is
    not rolled back.  When TiDB refuses the insert of the chunk record at
    position [j], the write answers 500, but the File record is stored and
    counts every chunk, only the [j] chunk records before the refused one
    are stored for it, every object is in the bucket, and the cache entry
    is not removed.  (For a handler whose chunk size the runtime can
    allocate, from 1 to [maxAlloc] bytes.) *)
Theorem WriteHandler_ServeHTTP_metadata_failure
    (wh : WriteHandler.WriteHandler) (fuel : nat) (filename : string)
    (data : list byte) (w : World) (j : nat) (id : string) (e : error) :
  filename ≠ "" →
  1 ≤ chunker.chunkSize (WriteHandler.chunker wh) ≤ maxAlloc →
  Z.of_nat (length data) ≤ max_int64 →
  (length data < fuel)%nat →
  (∀ key, minio_put_fault (faults w) key = None) →
  fresh_uuids w →
  db_ok w →
  let fileID := uuids w (uuid_next w) in
  let cs := chunks_of wh data in
  tidb_insert_fault (faults w) fileID = None →
  chunk_ids w (length cs) !! j = Some id →
  tidb_insert_fault (faults w) id = Some e →
  (∀ i id', (i < j)%nat → chunk_ids w (length cs) !! i = Some id' →
            tidb_insert_fault (faults w) id' = None) →
  let run := WriteHandler.ServeHTTP wh fuel filename (mkReader data EOF) w in
  run.1 = Done (http_Error ("failed to save metadata: failed to create chunk record: "
                            +:+ "failed to insert chunk: " +:+ Error e)
                           StatusInternalServerError)
  ∧ files run.2 !! fileID = Some (file_of wh filename data w)
  ∧ ChunkCount (file_of wh filename data w) = Z.of_nat (length cs)
  ∧ storage.select_chunks fileID (chunks run.2) = take j (rows_of wh data w)
  ∧ (j < length cs)%nat
  ∧ bucket run.2 = foldl (put_chunk fileID) (bucket w) cs
  ∧ cache run.2 = cache w
  ∧ new_calls w run.2
    = (put_call fileID <$> cs) ++ [TidbInsertFile fileID]
      ++ (TidbInsertChunk <$> take (S j) (chunk_ids w (length cs))).
Proof.
  intros Hname Hs Hmax Hfuel Hput Hfresh Hdb fileID cs Hfile Hj He Hbefore. cbv zeta.
  unfold WriteHandler.ServeHTTP. rewrite decide_False by done.
  unfold WriteHandler.chunkStream, chunker.ChunkStream.
  rewrite ChunkStream_loop_clean by done.
  assert (chunker_spec.total_from
            (chunker_spec.segments (length data)
               (Z.to_nat (chunker.chunkSize (WriteHandler.chunker wh))) data) 0
          = Z.of_nat (length data)) as ->.
  { rewrite total_from_sum; rewrite ?segments_total; lia. }
  rewrite app_nil_l. fold (chunks_of wh data). fold cs.
  unfold_M. cbv beta iota zeta. unfold WriteHandler.uploadChunks. fold fileID.
  match goal with
  | |- context [WriteHandler.uploadChunks_loop fileID cs [] ?w0] =>
    pose proof (uploadChunks_loop_succeeds fileID cs [] w0) as Hup;
    pose proof (uploadChunks_loop_frame fileID cs [] w0) as Hframe;
    destruct (WriteHandler.uploadChunks_loop fileID cs [] w0) as [r wa]
  end.
  unfold set_logs, set_uuid_next in Hup, Hframe. simpl in Hup, Hframe.
  destruct Hup as (-> & Hb & Hc & Hu); [by intros |].
  destruct Hframe as (Hf & Hch & Hca & Hfa & Huu & Hnow & Hlogs).
  cbv beta iota zeta.
  change (zip_with _ _ cs) with (rows_of wh data w).
  destruct (rows_of_constraints wh data w Hs Hmax Hfresh Hdb)
    as (Hnew & Hbelong & Hids & Hkeys).
  assert (j < length cs)%nat as Hlt.
  { apply lookup_lt_Some in Hj. by rewrite chunk_ids_length in Hj. }
  destruct (lookup_lt_is_Some_2 (rows_of wh data w) j) as [m Hm];
    [by rewrite rows_of_length |].
  assert (Chunk_ID m = id) as Hid.
  { pose proof (rows_of_ids wh data w) as Hrows. fold cs in Hrows.
    rewrite <- Hrows, list_lookup_fmap, Hm in Hj. by injection Hj. }
  assert (∀ m', m' ∈ take j (rows_of wh data w) →
                tidb_insert_fault (faults w) (Chunk_ID m') = None) as Hpre.
  { intros m' Hin. apply list_elem_of_lookup in Hin as [i Hi].
    apply lookup_take_Some in Hi as [Hi Hi'].
    apply (Hbefore i); [done |].
    pose proof (rows_of_ids wh data w) as Hrows. fold cs in Hrows.
    by rewrite <- Hrows, list_lookup_fmap, Hi. }
  assert (∀ m', m' ∈ take j (rows_of wh data w) → m' ∈ rows_of wh data w) as Hsub.
  { intros m' Hin. apply list_elem_of_lookup in Hin as [i Hi].
    apply lookup_take_Some in Hi as [Hi _]. by apply list_elem_of_lookup_2 in Hi. }
  pose proof (take_drop_middle (rows_of wh data w) j m Hm) as Hsplit.
  rewrite <- Hsplit in Hids. rewrite <- Hsplit in Hkeys.
  rewrite fmap_app, app_assoc in Hids. rewrite fmap_app, app_assoc in Hkeys.
  apply NoDup_app in Hids as (Hids & _). apply NoDup_app in Hkeys as (Hkeys & _).
  match goal with
  | |- context [WriteHandler.saveMetadata ?f _ ?w0] =>
    pose proof (saveMetadata_stops f (take j (rows_of wh data w)) m
                  (drop (S j) (rows_of wh data w)) w0 e) as Hsave;
    rewrite Hsplit in Hsave;
    destruct (WriteHandler.saveMetadata f (rows_of wh data w) w0) as [r wb]
  end.
  unfold set_logs in Hsave. simpl in Hsave.
  rewrite Hfa, Hf, Hch, Hid, Hnow in Hsave.
  destruct Hsave as (-> & Hf' & Hch' & Hc' & Hb' & Hca'); try done.
  { intros m' Hin. by apply Hbelong, Hsub. }
  cbv beta iota zeta. cbn [fst snd].
  split; [done |]. split; [by rewrite Hf', lookup_insert_eq |]. split; [done |].
  split.
  { rewrite Hch'. apply select_chunks_fresh.
    - intros c Hc0 Heq. destruct Hdb as (Hfk & _). destruct (Hfk c Hc0) as [f Hf0].
      rewrite Heq in Hf0. unfold fileID in Hf0. rewrite Hnew in Hf0. done.
    - intros m' Hin. by apply Hbelong, Hsub.
    - intros i m' Hi. apply lookup_take_Some in Hi as [Hi _].
      by apply (rows_of_indexed wh data w). }
  split; [done |]. split; [by rewrite Hb', Hb |]. split; [by rewrite Hca', Hca |].
  unfold new_calls. rewrite Hc', Hc, <- app_assoc, drop_app_length.
  f_equal. simpl. f_equal.
  pose proof (rows_of_ids wh data w) as Hrows. fold cs in Hrows.
  rewrite <- Hrows, <- fmap_take, (take_S_r _ j m) by done.
  by rewrite <- list_fmap_compose.
Qed.

End failures_more.

(** ** What a read does to the world *)

Section read_effects.
Import models handlers handlers.ReadHandler.
Context {H : Sha256}.

(** The calls of a read write nothing, but for the cache entry of the
    file read. *)
Lemma getFileMetadata_effects fileID w :
  let w' := (getFileMetadata fileID w).2 in
  let key := storage.cache_key fileID in
  bucket w' = bucket w ∧ files w' = files w ∧ chunks w' = chunks w
  ∧ faults w' = faults w ∧ uuids w' = uuids w ∧ uuid_next w' = uuid_next w
  ∧ (cache w' = cache w
     ∨ ∃ file, files w !! fileID = Some file
               ∧ cache w' = <[key := (file, storage.CacheTTL)]> (cache w))
  ∧ ∃ l, calls w' = calls w ++ l
         ∧ Forall (λ c, is_write_call c = true → c = RedisSet key storage.CacheTTL) l.
Proof.
  cbv zeta.
  unfold getFileMetadata, storage.GetFileMetadata, storage.GetFile,
    storage.SetFileMetadata. unfold_M. unfold set_calls, set_logs, set_cache. simpl.
  assert (∀ l : list Call,
            Forall (λ c, is_write_call c = true
                         → c = RedisSet (storage.cache_key fileID) storage.CacheTTL) l →
            ∃ l', calls w ++ l = calls w ++ l'
                  ∧ Forall (λ c, is_write_call c = true
                                 → c = RedisSet (storage.cache_key fileID)
                                                storage.CacheTTL) l') as Hl
    by (intros l Hl; by exists l).
  destruct (redis_get_fault (faults w) (storage.cache_key fileID)) as [[]|]; simpl.
  all: try (repeat split; try done; [by left | apply Hl; by repeat constructor]).
  2: destruct (cache w !! storage.cache_key fileID) as [[cached ttl]|]; simpl.
  2: repeat split; try done; [by left | apply Hl; by repeat constructor].
  all: destruct (tidb_select_fault (faults w) fileID) as [[]|]; simpl.
  all: try (repeat split; try done;
            [by left | rewrite <- app_assoc; apply Hl; by repeat constructor]).
  all: destruct (files w !! fileID) as [file|] eqn:Hfile; simpl.
  all: try (repeat split; try done;
            [by left | rewrite <- app_assoc; apply Hl; by repeat constructor]).
  all: destruct (redis_set_fault (faults w) (storage.cache_key fileID)); simpl.
  all: repeat split; try done;
         [first [by left | right; by exists file]
         | rewrite <- !app_assoc; apply Hl; by repeat constructor].
Qed.

Lemma getChunkMetadata_world fileID w :
  (getChunkMetadata fileID w).2 = set_calls (λ cs, cs ++ [TidbSelectChunks fileID]) w.
Proof.
  unfold getChunkMetadata, storage.GetChunks. unfold_M. simpl.
  by repeat case_match.
Qed.

Lemma get_calls_reads metas order :
  Forall (λ c, is_write_call c = false) (get_calls metas order).
Proof.
  apply Forall_forall. intros c Hin. unfold get_calls in Hin.
  apply list_elem_of_omap in Hin as (i & _ & Hc).
  destruct (metas !! i); [|done]. by injection Hc as <-.
Qed.

(** In whatever order the units complete, the fan-out asks for the object
    of every chunk record, once. *)
Lemma get_calls_seq (metas pre : list Chunk) :
  omap (λ idx, (λ meta, MinioGetObject (Chunk_MinioObjectKey meta))
               <$> (pre ++ metas) !! idx)
       (seq (length pre) (length metas))
  = (λ meta, MinioGetObject (Chunk_MinioObjectKey meta)) <$> metas.
Proof.
  revert pre. induction metas as [|m metas IH]; intros pre; [done |].
  cbn [length seq omap list_omap]. rewrite list_lookup_middle by done. simpl.
  f_equal. specialize (IH (pre ++ [m])).
  rewrite <- app_assoc, length_app, Nat.add_1_r in IH. exact IH.
Qed.

Lemma get_calls_permutation metas order :
  order ≡ₚ seq 0 (length metas) →
  get_calls metas order
  ≡ₚ (λ meta, MinioGetObject (Chunk_MinioObjectKey meta)) <$> metas.
Proof.
  intros Hperm. unfold get_calls. rewrite Hperm.
  by rewrite <- (get_calls_seq metas []).
Qed.

(** The world a read leaves. *)
Lemma ServeHTTP_world sched fileID w :
  let w' := (ServeHTTP sched fileID w).2 in
  let key := storage.cache_key fileID in
  bucket w' = bucket w ∧ files w' = files w ∧ chunks w' = chunks w
  ∧ faults w' = faults w ∧ uuids w' = uuids w ∧ uuid_next w' = uuid_next w
  ∧ (cache w' = cache w
     ∨ ∃ file, files w !! fileID = Some file
               ∧ cache w' = <[key := (file, storage.CacheTTL)]> (cache w))
  ∧ ∃ l, calls w' = calls w ++ l
         ∧ Forall (λ c, is_write_call c = true → c = RedisSet key storage.CacheTTL) l.
Proof.
  cbv zeta. unfold ServeHTTP. case_decide.
  { simpl. repeat split; try done; [by left |]. exists []. by rewrite app_nil_r. }
  unfold_M. cbv beta iota zeta.
  set (w0 := set_logs (λ ls, ls ++ ["Reading file: " +:+ fileID]) w).
  pose proof (getFileMetadata_effects fileID w0) as Heff.
  destruct (getFileMetadata fileID w0) as [[[file|]|err] w1]; cbv beta iota zeta;
    [|exact Heff|exact Heff].
  simpl in Heff.
  destruct Heff as (Hb & Hf & Hc & Hfa & Huu & Hun & Hcache & l & Hcalls & Hl).
  pose proof (getChunkMetadata_world fileID w1) as Hw2.
  destruct (getChunkMetadata fileID w1) as [[metas|err] w2]; simpl in Hw2; subst w2;
    cbv beta iota zeta.
  2:{ simpl. repeat split; try done. exists (l ++ [TidbSelectChunks fileID]).
      rewrite Hcalls, <- app_assoc. split; [done |].
      apply Forall_app. split; [done | by repeat constructor]. }
  rewrite fetchChunksParallel_spec.
  assert (Forall (λ c, is_write_call c = true
                       → c = RedisSet (storage.cache_key fileID) storage.CacheTTL)
                 ((l ++ [TidbSelectChunks fileID])
                  ++ get_calls metas (sched (length metas)))) as Hall.
  { apply Forall_app. split; [apply Forall_app; split; [done | by repeat constructor] |].
    eapply Forall_impl; [apply get_calls_reads |]. simpl. by intros c ->. }
  destruct (omap _ (sched (length metas))) as [|e es]; cbv beta iota zeta; simpl.
  all: repeat split; try done.
  all: exists ((l ++ [TidbSelectChunks fileID]) ++ get_calls metas (sched (length metas))).
  all: rewrite Hcalls, <- !app_assoc; split; [done |]; by rewrite <- !app_assoc in Hall.
Qed.

(** X18. The statuses of a read.  Whatever the state of the services,
    a read answers 200, 400 or 500, and never 404; it answers 400 exactly
    when the file identifier of the path is empty; every answer other than
    200 carries a plain-text message. *)
Theorem ReadHandler_ServeHTTP_status (sched : nat → list nat) (fileID : string)
    (w : World) :
  let resp := (ServeHTTP sched fileID w).1 in
  (StatusCode resp = StatusOK ∨ StatusCode resp = StatusBadRequest
   ∨ StatusCode resp = StatusInternalServerError)
  ∧ StatusCode resp ≠ StatusNotFound
  ∧ (StatusCode resp = StatusBadRequest ↔ fileID = "")
  ∧ (StatusCode resp ≠ StatusOK →
     ∃ msg, resp = http_Error msg (StatusCode resp)).
Proof.
  cbv zeta. destruct (decide (fileID = "")) as [Hempty|Hid].
  { unfold ServeHTTP. rewrite decide_True by done. simpl.
    split; [by right; left |]. split; [done |]. split; [done |]. by eexists. }
  destruct (ServeHTTP_inv sched fileID w Hid)
    as [(msg & -> & _)|(file & w2 & _ & _ & Hfetch)].
  { simpl. split; [by right; right |]. split; [done |]. split; [done |]. by eexists. }
  destruct (fetchChunksParallel _ _ w2).1 as [slots|e]; rewrite Hfetch; simpl.
  - split; [by left |]. split; [done |]. split; [done |]. done.
  - split; [by right; right |]. split; [done |]. split; [done |]. by eexists.
Qed.

(** X19. A read is read-only on the stores.  Whatever it answers and
    whatever fails, the bucket and the two tables are as before; the only
    call that writes is the [SET] of the cache entry of the file read, and
    when the cache changes, what it gains is the File record of the table
    under that key, with the fixed TTL. *)
Theorem ReadHandler_ServeHTTP_read_only (sched : nat → list nat) (fileID : string)
    (w : World) :
  let w' := (ServeHTTP sched fileID w).2 in
  let key := storage.cache_key fileID in
  bucket w' = bucket w
  ∧ files w' = files w
  ∧ chunks w' = chunks w
  ∧ (cache w' = cache w
     ∨ ∃ file, files w !! fileID = Some file
               ∧ cache w' = <[key := (file, storage.CacheTTL)]> (cache w))
  ∧ calls w' = calls w ++ new_calls w w'
  ∧ ∀ c, c ∈ new_calls w w' → is_write_call c = true →
         c = RedisSet key storage.CacheTTL.
Proof.
  cbv zeta.
  destruct (ServeHTTP_world sched fileID w)
    as (Hb & Hf & Hc & _ & _ & _ & Hcache & l & Hcalls & Hl).
  unfold new_calls. rewrite Hcalls, drop_app_length.
  split; [done |]. split; [done |]. split; [done |]. split; [done |]. split; [done |].
  intros c Hin. by apply (proj1 (Forall_forall _ _) Hl).
Qed.

(** X20. When the metadata of the file is found, the read asks the Blob
    Store for the object of every chunk record of the file, once each, and
    for nothing else, whether the fetches succeed or not and in whatever
    order they complete: a failed fetch neither stops the others nor is
    tried again. *)
Theorem ReadHandler_ServeHTTP_fetches_once (sched : nat → list nat) (fileID : string)
    (w : World) :
  fileID ≠ "" →
  (∀ n, sched n ≡ₚ seq 0 n) →
  redis_get_fault (faults w) (storage.cache_key fileID) = None →
  tidb_select_fault (faults w) fileID = None →
  tidb_rows_fault (faults w) fileID = None →
  is_Some (cache w !! storage.cache_key fileID) ∨ is_Some (files w !! fileID) →
  filter is_minio_call (new_calls w (ServeHTTP sched fileID w).2)
  ≡ₚ (λ meta, MinioGetObject (Chunk_MinioObjectKey meta))
     <$> storage.select_chunks fileID (chunks w).
Proof.
  intros Hid Hsched Hget Hsel Hrows Hsome.
  destruct (ServeHTTP_world sched fileID w)
    as (_ & _ & _ & _ & _ & _ & _ & l & Hcalls & _).
  unfold new_calls. rewrite Hcalls, drop_app_length.
  assert (filter is_minio_call (calls (ServeHTTP sched fileID w).2)
          = filter is_minio_call (calls w)
            ++ get_calls (storage.select_chunks fileID (chunks w))
                 (sched (length (storage.select_chunks fileID (chunks w))))) as Hminio.
  { rewrite ServeHTTP_resolve by done. unfold_M.
    destruct (resolve_found fileID w Hget Hsel Hrows Hsome) as (file & Hres & _).
    pose proof (resolve_frame fileID w) as (_ & _ & _ & _ & Hframe).
    destruct (resolve fileID w) as [r w2]. simpl in Hres, Hframe. subst r.
    cbv beta iota zeta. unfold respond. unfold_M.
    rewrite fetchChunksParallel_spec.
    destruct (omap _ _) as [|e es]; cbv beta iota zeta; simpl;
      by rewrite filter_app, Hframe, get_calls_minio. }
  rewrite Hcalls, filter_app in Hminio. apply app_inv_head in Hminio.
  rewrite Hminio. by apply get_calls_permutation.
Qed.

(** X21. The cache is not optional on the read path.  When the cache
    lookup fails with an error other than a miss, the read answers 500 with
    that error and stops there: the table of files is not queried, even if
    it holds the file. *)
Theorem ReadHandler_ServeHTTP_cache_outage (sched : nat → list nat) (fileID : string)
    (w : World) (e : error) :
  fileID ≠ "" →
  redis_get_fault (faults w) (storage.cache_key fileID) = Some e →
  e ≠ RedisNil →
  (ServeHTTP sched fileID w).1
  = http_Error ("failed to get file metadata: failed to get from cache: " +:+ Error e)
               StatusInternalServerError
  ∧ new_calls w (ServeHTTP sched fileID w).2 = [RedisGet (storage.cache_key fileID)].
Proof.
  intros Hid Hget Hne. unfold ServeHTTP. rewrite decide_False by done.
  unfold getFileMetadata, storage.GetFileMetadata. unfold_M.
  unfold set_calls, set_logs, new_calls. simpl. rewrite Hget.
  destruct e; try done; simpl; by rewrite drop_app_length.
Qed.

(** X22. A read succeeds when nothing stands in its way: if the cache and
    the tables answer, the File record is in the cache or in the table, and
    the object of every chunk record of the file can be fetched and has the
    recorded hash, the read answers 200 with the objects concatenated in the
    order of the chunk index, their total length as [Content-Length], and
    the name of the File record found (on a hit the cached one, as its JSON
    decodes). *)
Theorem ReadHandler_ServeHTTP_serves (sched : nat → list nat) (fileID : string)
    (w : World) :
  fileID ≠ "" →
  (∀ n, sched n ≡ₚ seq 0 n) →
  redis_get_fault (faults w) (storage.cache_key fileID) = None →
  tidb_select_fault (faults w) fileID = None →
  tidb_rows_fault (faults w) fileID = None →
  is_Some (cache w !! storage.cache_key fileID) ∨ is_Some (files w !! fileID) →
  (∀ m, m ∈ storage.select_chunks fileID (chunks w) →
        minio_get_fault (faults w) (Chunk_MinioObjectKey m) = None
        ∧ minio_read_fault (faults w) (Chunk_MinioObjectKey m) = None
        ∧ ∃ d, bucket w !! Chunk_MinioObjectKey m = Some d
               ∧ chunker.ComputeHash d = Chunk_Hash m) →
  ∃ file slots,
    (ServeHTTP sched fileID w).1 = ok_response file (concat slots)
    ∧ match cache w !! storage.cache_key fileID with
      | Some (cached, _) => file = storage.json_File cached
      | None => files w !! fileID = Some file
      end
    ∧ Forall2 (λ meta data, bucket w !! Chunk_MinioObjectKey meta = Some data)
              (storage.select_chunks fileID (chunks w)) slots.
Proof.
  intros Hid Hsched Hget Hsel Hrows Hsome Hobjects.
  destruct (ServeHTTP_succeeds sched fileID w Hid Hsched Hget Hsel Hrows Hsome)
    as (file & slots & Hresp & Hfile).
  { intros m Hm. destruct (Hobjects m Hm) as (Hg & Hr & d & Hd & Hh).
    unfold unit_fails, download, storage.DownloadChunk. unfold_M. simpl.
    rewrite Hg, Hr, Hd. by intros []. }
  destruct (ServeHTTP_ok_verified sched fileID w Hid Hsched) as (slots' & Hbody & Hall).
  { by rewrite Hresp. }
  rewrite Hresp in Hbody. simpl in Hbody. injection Hbody as Hbody.
  exists file, slots'. rewrite Hresp, Hbody. split; [done |]. split; [done |].
  eapply Forall2_impl; [exact Hall |]. by intros m d [? _].
Qed.

End read_effects.

(** ** Concrete runs for the further properties *)

Lemma ChunkStream_broken_stream_witness :
  chunker.ChunkStream (H := example_digest) 11 (chunker.NewChunker 4)
    (mkReader bytes10 (Errorf "connection reset by peer"))
  = Failed (Errorf "error reading chunk: connection reset by peer").
Proof.
  apply (ChunkStream_broken_stream (H := example_digest) (chunker.NewChunker 4)
           bytes10 (Errorf "connection reset by peer") 11);
    [cbv [maxAlloc]; simpl; lia | cbv [maxAlloc]; simpl; lia | discriminate | discriminate].
Defined.

Lemma ChunkStream_chunk_slices_witness :
  ∃ chunks totalSize,
    chunker.ChunkStream (H := example_digest) 11 (chunker.NewChunker 4)
      (mkReader bytes10 EOF) = Done (chunks, totalSize)
    ∧ ∀ i ch, chunks !! i = Some ch →
        models.Data ch = take 4 (drop (i * 4) bytes10)
        ∧ models.CD_Size ch = Z.of_nat (length (models.Data ch)).
Proof.
  apply (ChunkStream_chunk_slices (H := example_digest) (chunker.NewChunker 4)
           bytes10 11); cbv [maxAlloc]; simpl; lia.
Defined.

Lemma ChunkStream_chunks_verify_witness :
  ∃ chunks totalSize,
    chunker.ChunkStream (H := example_digest) 11 (chunker.NewChunker 4)
      (mkReader bytes10 EOF) = Done (chunks, totalSize)
    ∧ ∀ ch, ch ∈ chunks →
        models.Hash ch = chunker.ComputeHash (H := example_digest) (models.Data ch)
        ∧ chunker.VerifyChunkHash (H := example_digest) (models.Data ch) (models.Hash ch)
          = true.
Proof.
  apply (ChunkStream_chunks_verify (H := example_digest) (chunker.NewChunker 4)
           bytes10 11); cbv [maxAlloc]; simpl; lia.
Defined.


Lemma tidb_create_get_file_witness :
  let ins := storage.CreateFile test_file empty_world in
  ins.1 = None
  ∧ (storage.GetFile "uuid-0" ins.2).1 = Ok test_file
  ∧ (storage.GetFile "uuid-0" empty_world).1 = Err (Errorf "file not found: uuid-0")
  ∧ ∃ err, (storage.CreateFile test_file ins.2).1 = Some err.
Proof.
  apply (tidb_create_get_file test_file empty_world); reflexivity.
Defined.

Lemma GetChunks_sorted_rows_witness :
  ∃ rows,
    (storage.GetChunks "uuid-0" written_world).1 = Ok rows
    ∧ rows ≡ₚ filter (λ c, models.Chunk_FileID c = "uuid-0") (chunks written_world)
    ∧ StronglySorted (λ a b, models.Chunk_OrderIndex a ≤ models.Chunk_OrderIndex b) rows
    ∧ (NoDup (chunk_key <$> chunks written_world)
       → NoDup (models.Chunk_OrderIndex <$> rows))
    ∧ chunks (storage.GetChunks "uuid-0" written_world).2 = chunks written_world
    ∧ files (storage.GetChunks "uuid-0" written_world).2 = files written_world.
Proof.
  apply (GetChunks_sorted_rows "uuid-0" written_world); vm_compute; reflexivity.
Defined.

Lemma db_ok_file_world : db_ok file_world.
Proof.
  split; [|split].
  - intros c Hc. by apply not_elem_of_nil in Hc.
  - apply NoDup_nil_2.
  - apply NoDup_nil_2.
Qed.

Lemma CreateChunk_constraints_witness :
  let chunk := models.mkChunk "uuid-1" "uuid-0" 0 "00010203" "chunks/uuid-0/0" 4 in
  let ins := storage.CreateChunk chunk file_world in
  let again := storage.CreateChunk chunk ins.2 in
  (* the first insert goes through *)
  ins.1 = None
  ∧ chunks ins.2 = [chunk]
  ∧ db_ok ins.2
  (* the same row again is refused *)
  ∧ again.1 ≠ None
  ∧ chunks again.2 = [chunk]
  ∧ db_ok again.2.
Proof.
  cbv zeta.
  set (chunk := models.mkChunk "uuid-1" "uuid-0" 0 "00010203" "chunks/uuid-0/0" 4).
  destruct (CreateChunk_constraints chunk file_world eq_refl db_ok_file_world)
    as (Hdb & Hiff & Hrows & _).
  assert ((storage.CreateChunk chunk file_world).1 = None) as Hins
    by (vm_compute; reflexivity).
  rewrite Hins in Hrows.
  destruct (CreateChunk_constraints chunk (storage.CreateChunk chunk file_world).2
              eq_refl Hdb) as (Hdb' & Hiff' & Hrows' & _).
  assert ((storage.CreateChunk chunk (storage.CreateChunk chunk file_world).2).1 ≠ None)
    as Hagain.
  { intros Hnone. apply Hiff' in Hnone as (Hnew & _). apply Hnew.
    rewrite Hrows. simpl. by left. }
  split; [exact Hins |]. split; [exact Hrows |]. split; [exact Hdb |].
  split; [exact Hagain |]. split; [|exact Hdb'].
  rewrite Hrows'.
  destruct (storage.CreateChunk chunk (storage.CreateChunk chunk file_world).2).1;
    [exact Hrows | by destruct Hagain].
Defined.

Lemma WriteHandler_ServeHTTP_consistent_metadata_witness :
  let run := handlers.WriteHandler.ServeHTTP (H := example_digest) small_chunks 11
               "test.bin" (mkReader bytes10 EOF) empty_world in
  let rows := storage.select_chunks "uuid-0" (chunks run.2) in
  ∃ file,
    run.1 = Done (handlers.mkResponse handlers.StatusCreated
                    [("Content-Type", "application/json")]
                    (handlers.Json
                       (handlers.mkWriteResponse "uuid-0" "test.bin" (models.Size file)
                          (models.ChunkCount file) "File uploaded successfully")))
    ∧ files run.2 !! "uuid-0" = Some file
    ∧ models.ID file = "uuid-0"
    ∧ models.Name file = "test.bin"
    ∧ models.Size file = 10
    ∧ models.ChunkCount file = Z.of_nat (length rows)
    ∧ models.ChunkCount file = 3
    ∧ total_size rows = models.Size file
    ∧ (∀ m, m ∈ rows →
         ∃ d, bucket run.2 !! models.Chunk_MinioObjectKey m = Some d
              ∧ chunker.ComputeHash (H := example_digest) d = models.Chunk_Hash m
              ∧ Z.of_nat (length d) = models.Chunk_Size m)
    ∧ db_ok run.2.
Proof.
  apply (WriteHandler_ServeHTTP_consistent_metadata (H := example_digest)
           small_chunks 11 "test.bin" bytes10 empty_world);
    [discriminate | cbv [maxAlloc]; simpl; lia | unfold max_int64; simpl; lia | cbv [maxAlloc]; simpl; lia
    | reflexivity | reflexivity | exact fresh_uuids_empty_world
    | exact db_ok_empty_world].
Defined.

Lemma WriteHandler_ServeHTTP_effects_witness :
  let run := handlers.WriteHandler.ServeHTTP (H := example_digest) small_chunks 11
               "test.bin" (mkReader bytes10 EOF) empty_world in
  new_calls empty_world run.2
  = [MinioPutObject "chunks/uuid-0/0" [x00; x01; x02; x03];
     MinioPutObject "chunks/uuid-0/1" [x04; x05; x06; x07];
     MinioPutObject "chunks/uuid-0/2" [x08; x09];
     TidbInsertFile "uuid-0";
     TidbInsertChunk "uuid-1"; TidbInsertChunk "uuid-2"; TidbInsertChunk "uuid-3";
     RedisDel "file:uuid-0"]
  ∧ (∃ resp, run.1 = Done resp ∧ handlers.StatusCode resp = handlers.StatusCreated)
  ∧ cache run.2 = delete "file:uuid-0" (cache empty_world).
Proof.
  apply (WriteHandler_ServeHTTP_effects (H := example_digest)
           small_chunks 11 "test.bin" bytes10 empty_world);
    [discriminate | cbv [maxAlloc]; simpl; lia | unfold max_int64; simpl; lia | cbv [maxAlloc]; simpl; lia
    | reflexivity | reflexivity | exact fresh_uuids_empty_world
    | exact db_ok_empty_world].
Defined.

Lemma WriteHandler_ServeHTTP_broken_body_witness :
  let run := handlers.WriteHandler.ServeHTTP (H := example_digest) small_chunks 11
               "test.bin" (mkReader bytes10 (Errorf "connection reset by peer"))
               written_world in
  run.1 = Done (handlers.http_Error
                  "failed to chunk file: error reading chunk: connection reset by peer"
                  handlers.StatusInternalServerError)
  ∧ new_calls written_world run.2 = []
  ∧ bucket run.2 = bucket written_world
  ∧ files run.2 = files written_world
  ∧ chunks run.2 = chunks written_world
  ∧ cache run.2 = cache written_world.
Proof.
  apply (WriteHandler_ServeHTTP_broken_body (H := example_digest) small_chunks 11
           "test.bin" bytes10 (Errorf "connection reset by peer") written_world);
    [discriminate | cbv [maxAlloc]; simpl; lia | cbv [maxAlloc]; simpl; lia | discriminate | discriminate].
Defined.

Lemma WriteHandler_ServeHTTP_upload_failure_witness :
  let w := with_faults second_upload_refused empty_world in
  let run := handlers.WriteHandler.ServeHTTP (H := example_digest) small_chunks 11
               "test.bin" (mkReader bytes10 EOF) w in
  run.1 = Done (handlers.http_Error
                  ("failed to upload chunks: failed to upload chunk 1"
                   +:+ ": failed to upload chunk: connection refused")
                  handlers.StatusInternalServerError)
  ∧ new_calls w run.2
    = [MinioPutObject "chunks/uuid-0/0" [x00; x01; x02; x03];
       MinioPutObject "chunks/uuid-0/1" [x04; x05; x06; x07]]
  ∧ bucket run.2 = <["chunks/uuid-0/0" := [x00; x01; x02; x03]]> (bucket w)
  ∧ files run.2 = files w
  ∧ chunks run.2 = chunks w
  ∧ cache run.2 = cache w.
Proof.
  apply (WriteHandler_ServeHTTP_upload_failure (H := example_digest) small_chunks 11
           "test.bin" bytes10 (with_faults second_upload_refused empty_world)
           1 second_chunk (Errorf "connection refused"));
    [discriminate | cbv [maxAlloc]; simpl; lia | cbv [maxAlloc]; simpl; lia | reflexivity | reflexivity |].
  intros j c' Hj Hc'. destruct j as [|j]; [|lia].
  vm_compute in Hc'. injection Hc' as <-. reflexivity.
Defined.

Lemma WriteHandler_ServeHTTP_metadata_failure_witness :
  let w := with_faults second_insert_refused empty_world in
  let run := handlers.WriteHandler.ServeHTTP (H := example_digest) small_chunks 11
               "test.bin" (mkReader bytes10 EOF) w in
  run.1 = Done (handlers.http_Error
                  ("failed to save metadata: failed to create chunk record: "
                   +:+ "failed to insert chunk: connection refused")
                  handlers.StatusInternalServerError)
  (* the File record is there and counts three chunks *)
  ∧ files run.2 !! "uuid-0" = Some test_file
  ∧ models.ChunkCount test_file = 3
  (* one chunk record only *)
  ∧ length (storage.select_chunks "uuid-0" (chunks run.2)) = 1%nat
  (* the three objects *)
  ∧ dom (bucket run.2)
    = ({["chunks/uuid-0/0"; "chunks/uuid-0/1"; "chunks/uuid-0/2"]} : gset string)
  ∧ new_calls w run.2
    = [MinioPutObject "chunks/uuid-0/0" [x00; x01; x02; x03];
       MinioPutObject "chunks/uuid-0/1" [x04; x05; x06; x07];
       MinioPutObject "chunks/uuid-0/2" [x08; x09];
       TidbInsertFile "uuid-0";
       TidbInsertChunk "uuid-1"; TidbInsertChunk "uuid-2"].
Proof.
  cbv zeta.
  destruct (WriteHandler_ServeHTTP_metadata_failure (H := example_digest) small_chunks 11
              "test.bin" bytes10 (with_faults second_insert_refused empty_world)
              1 "uuid-2" (Errorf "connection refused"))
    as (Hresp & Hfile & Hcount & Hrows & _ & Hbucket & _ & Hcalls);
    [discriminate | cbv [maxAlloc]; simpl; lia | unfold max_int64; simpl; lia | cbv [maxAlloc]; simpl; lia
    | reflexivity | exact fresh_uuids_empty_world | exact db_ok_empty_world
    | reflexivity | reflexivity | reflexivity | |].
  { intros i id' Hi Hid'. destruct i as [|i]; [|lia].
    vm_compute in Hid'. injection Hid' as <-. reflexivity. }
  split; [exact Hresp |]. split; [exact Hfile |]. split; [exact Hcount |].
  split; [exact (f_equal length Hrows) |]. split; [|exact Hcalls].
  exact (f_equal dom Hbucket).
Defined.

Lemma ReadHandler_ServeHTTP_fetches_once_witness :
  filter is_minio_call
    (new_calls corrupted_world
       (handlers.ReadHandler.ServeHTTP (H := example_digest) (λ n, reverse (seq 0 n))
          "uuid-0" corrupted_world).2)
  ≡ₚ [MinioGetObject "chunks/uuid-0/0"; MinioGetObject "chunks/uuid-0/1";
      MinioGetObject "chunks/uuid-0/2"].
Proof.
  assert ((λ meta, MinioGetObject (models.Chunk_MinioObjectKey meta))
          <$> storage.select_chunks "uuid-0" (chunks corrupted_world)
          = [MinioGetObject "chunks/uuid-0/0"; MinioGetObject "chunks/uuid-0/1";
             MinioGetObject "chunks/uuid-0/2"]) as <- by (vm_compute; reflexivity).
  apply (ReadHandler_ServeHTTP_fetches_once (H := example_digest)
           (λ n, reverse (seq 0 n)) "uuid-0" corrupted_world);
    [discriminate | intros n; apply reverse_Permutation
    | vm_compute; reflexivity | vm_compute; reflexivity | vm_compute; reflexivity |].
  right. exists test_file. vm_compute. reflexivity.
Defined.

Lemma ReadHandler_ServeHTTP_cache_outage_witness :
  let w := with_faults cache_down written_world in
  files w !! "uuid-0" = Some test_file
  ∧ (handlers.ReadHandler.ServeHTTP (H := example_digest) in_order "uuid-0" w).1
    = handlers.http_Error
        "failed to get file metadata: failed to get from cache: connection refused"
        handlers.StatusInternalServerError
  ∧ new_calls w (handlers.ReadHandler.ServeHTTP (H := example_digest) in_order
                   "uuid-0" w).2
    = [RedisGet "file:uuid-0"].
Proof.
  split; [vm_compute; reflexivity |].
  apply (ReadHandler_ServeHTTP_cache_outage (H := example_digest) in_order "uuid-0"
           (with_faults cache_down written_world) (Errorf "connection refused"));
    [discriminate | reflexivity | discriminate].
Defined.

Lemma ReadHandler_ServeHTTP_serves_witness :
  ∃ file slots,
    (handlers.ReadHandler.ServeHTTP (H := example_digest) in_order "uuid-0"
       written_world).1 = ok_response file (concat slots)
    ∧ files written_world !! "uuid-0" = Some file
    ∧ Forall2 (λ meta data,
                 bucket written_world !! models.Chunk_MinioObjectKey meta = Some data)
              (storage.select_chunks "uuid-0" (chunks written_world)) slots.
Proof.
  destruct (ReadHandler_ServeHTTP_serves (H := example_digest) in_order "uuid-0"
              written_world) as (file & slots & Hresp & Hfile & Hall);
    [discriminate | intros n; reflexivity
    | vm_compute; reflexivity | vm_compute; reflexivity | vm_compute; reflexivity | | |].
  { right. exists test_file. vm_compute. reflexivity. }
  { intros m Hm. apply list_elem_of_lookup in Hm as [i Hi].
    destruct i as [|[|[|i]]]; vm_compute in Hi; try discriminate Hi;
      injection Hi as <-;
      (split; [vm_compute; reflexivity |]); (split; [vm_compute; reflexivity |]);
      eexists; (split; vm_compute; reflexivity). }
  exists file, slots. split; [exact Hresp |]. split; [|exact Hall].
  assert (cache written_world !! storage.cache_key "uuid-0" = None) as Hmiss
    by (vm_compute; reflexivity).
  rewrite Hmiss in Hfile. exact Hfile.
Defined.

(** ** A written file and the requests that follow *)

Section isolation_more.
Import models handlers.
Context {H : Sha256}.

Lemma slash_free_pretty_N_go (x : N) (s : string) :
  slash_free s = true → slash_free (pretty_N_go x s) = true.
Proof.
  revert s. induction (N.lt_wf_0 x) as [x _ IH]; intros s Hs.
  destruct (decide (x = 0%N)) as [->|Hx]; [by rewrite pretty_N_go_0 |].
  rewrite pretty_N_go_step by lia. apply IH.
  - apply N.div_lt; lia.
  - simpl. rewrite Hs, andb_true_r.
    assert (x `mod` 10 < 10)%N as Hlt by (apply N.mod_lt; lia).
    destruct (x `mod` 10)%N as [|p] eqn:Hmod; [done |].
    do 4 (destruct p as [p|p|]; try done).
Qed.

Lemma slash_free_pretty_Z (z : Z) : slash_free (pretty z) = true.
Proof.
  assert (∀ p : positive, slash_free (pretty p) = true) as Hpos.
  { intros p. unfold pretty, pretty_positive, pretty, pretty_N.
    case_decide; [done |]. by apply slash_free_pretty_N_go. }
  destruct z as [|p|p]; [done | apply Hpos |].
  unfold pretty, pretty_Z. simpl. apply Hpos.
Qed.

Lemma slash_free_split (f1 f2 p1 p2 : string) :
  slash_free p1 = true → slash_free p2 = true →
  f1 +:+ String "/" p1 = f2 +:+ String "/" p2 →
  f1 = f2 ∧ p1 = p2.
Proof.
  intros Hp1 Hp2. revert f2.
  assert (∀ a s t, String a s +:+ t = String a (s +:+ t)) as Hcons by done.
  assert (∀ t, "" +:+ t = t) as Hnil by done.
  assert (∀ f p, slash_free (f +:+ String "/" p) = false) as Hslash.
  { intros f p. induction f as [|a f IH]; [done |].
    rewrite Hcons. simpl. by rewrite IH, andb_false_r. }
  induction f1 as [|a f1 IH]; intros [|b f2] Heq; rewrite ?Hcons, ?Hnil in Heq.
  - by injection Heq.
  - injection Heq as <- ->. by rewrite Hslash in Hp1.
  - injection Heq as -> <-. by rewrite Hslash in Hp2.
  - injection Heq as -> Heq. by destruct (IH f2 Heq) as [-> ->].
Qed.

(** Object keys tell files apart. *)
Lemma objectKey_inj_file f1 f2 i j :
  WriteHandler.objectKey f1 i = WriteHandler.objectKey f2 j → f1 = f2.
Proof.
  unfold WriteHandler.objectKey. intros Heq. apply String.app_inj in Heq.
  by destruct (slash_free_split f1 f2 (pretty i) (pretty j)
                 (slash_free_pretty_Z i) (slash_free_pretty_Z j) Heq).
Qed.

(** What the upload loop does in general: it touches the objects of the
    file only, and the records it returns carry the file identifier and
    identifiers drawn during the loop. *)
Lemma uploadChunks_loop_general fileID cs acc w :
  let run := WriteHandler.uploadChunks_loop fileID cs acc w in
  (∀ key, (∀ i, key ≠ WriteHandler.objectKey fileID i) →
          bucket run.2 !! key = bucket w !! key)
  ∧ (uuid_next w ≤ uuid_next run.2)%nat
  ∧ ∀ ms, run.1 = Ok ms →
      ∃ new, ms = acc ++ new
        ∧ ∀ m, m ∈ new →
            Chunk_FileID m = fileID
            ∧ ∃ k, (uuid_next w ≤ k < uuid_next run.2)%nat ∧ Chunk_ID m = uuids w k.
Proof.
  revert acc w. induction cs as [|c cs IH]; intros acc w; cbv zeta.
  - simpl. split; [done |]. split; [done |]. intros ms [= <-].
    exists []. rewrite app_nil_r. split; [done |]. intros m Hm.
    by apply not_elem_of_nil in Hm.
  - cbn [WriteHandler.uploadChunks_loop]. unfold storage.UploadChunk. unfold_M.
    unfold set_uuid_next, set_calls, set_bucket. simpl.
    destruct (minio_put_fault (faults w) (WriteHandler.objectKey fileID (OrderIndex c))).
    { simpl. split; [done |]. split; [lia | done]. }
    simpl.
    match goal with
    | |- context [WriteHandler.uploadChunks_loop fileID cs ?a ?w0] =>
      destruct (IH a w0) as (Hb & Hu & Hms)
    end.
    simpl in Hb, Hu, Hms. split; [|split; [lia |]].
    + intros key Hkey. rewrite Hb by done. by apply lookup_insert_ne.
    + intros ms Hrun. destruct (Hms ms Hrun) as (new & -> & Hnew).
      eexists (_ :: new). rewrite <- app_assoc. split; [done |].
      intros m Hm. apply elem_of_cons in Hm as [->|Hm].
      * simpl. split; [done |]. exists (uuid_next w). split; [lia | done].
      * destruct (Hnew m Hm) as (Hf & k & Hk & Hid). split; [done |].
        exists k. split; [lia | done].
Qed.

Lemma createChunks_loop_general ms w :
  ∃ k, chunks (WriteHandler.createChunks_loop ms w).2 = chunks w ++ take k ms.
Proof.
  revert w. induction ms as [|m ms IH]; intros w.
  - exists 0%nat. simpl. by rewrite app_nil_r.
  - cbn [WriteHandler.createChunks_loop].
    unfold storage.CreateChunk, storage.insert_into_chunks. unfold_M.
    unfold set_calls, set_chunks. simpl.
    assert (∃ k, chunks w = chunks w ++ take k (m :: ms)) as Hstop
      by (exists 0%nat; by rewrite app_nil_r).
    destruct (tidb_insert_fault (faults w) (Chunk_ID m)); [done |].
    case_decide; [done |]. case_decide; [done |]. case_decide; [done |]. simpl.
    match goal with
    | |- context [WriteHandler.createChunks_loop ms ?w0] =>
      destruct (IH w0) as [k Hk]
    end.
    exists (S k). rewrite Hk. simpl. by rewrite <- app_assoc.
Qed.

Lemma saveMetadata_general file ms w :
  let w' := (WriteHandler.saveMetadata file ms w).2 in
  (∀ id, id ≠ ID file → files w' !! id = files w !! id)
  ∧ (∃ k, chunks w' = chunks w ++ take k ms)
  ∧ bucket w' = bucket w ∧ cache w' = cache w ∧ faults w' = faults w
  ∧ uuids w' = uuids w ∧ uuid_next w' = uuid_next w.
Proof.
  cbv zeta.
  unfold WriteHandler.saveMetadata, storage.CreateFile, storage.insert_into_files.
  unfold_M. unfold set_calls, set_files. simpl.
  assert (∃ k, chunks w = chunks w ++ take k ms) as Hstop
    by (exists 0%nat; by rewrite app_nil_r).
  destruct (tidb_insert_fault (faults w) (ID file)); [done |].
  case_decide; [done |]. simpl.
  match goal with
  | |- context [WriteHandler.createChunks_loop ms ?w0] =>
    pose proof (createChunks_loop_general ms w0) as Hk;
    pose proof (createChunks_loop_frame ms w0) as Hframe;
    destruct (WriteHandler.createChunks_loop ms w0) as [r w1]
  end.
  simpl in Hk, Hframe. cbn [fst snd].
  destruct Hframe as (-> & -> & -> & -> & _ & -> & -> & _).
  split; [|done]. intros id Hid. by apply lookup_insert_ne.
Qed.

(** What a write does to the world, whatever its body, whatever fails and
    whatever it answers: either nothing, or it draws identifiers and
    touches only the objects, the records and the cache entry of the file
    identifier it drew first. *)
Lemma WriteHandler_ServeHTTP_frame wh fuel filename body w :
  let w' := (WriteHandler.ServeHTTP wh fuel filename body w).2 in
  let fileID := uuids w (uuid_next w) in
  w' = w
  ∨ (uuids w' = uuids w
     ∧ (S (uuid_next w) ≤ uuid_next w')%nat
     ∧ (∀ key, (∀ i, key ≠ WriteHandler.objectKey fileID i) →
               bucket w' !! key = bucket w !! key)
     ∧ (∀ id, id ≠ fileID → files w' !! id = files w !! id)
     ∧ (∃ new, chunks w' = chunks w ++ new
               ∧ ∀ m, m ∈ new →
                   Chunk_FileID m = fileID
                   ∧ ∃ k, (S (uuid_next w) ≤ k < uuid_next w')%nat
                          ∧ Chunk_ID m = uuids w k)
     ∧ (∀ key, key ≠ storage.cache_key fileID → cache w' !! key = cache w !! key)).
Proof.
  cbv zeta. unfold WriteHandler.ServeHTTP. case_decide; [by left |]. right.
  unfold_M. cbv beta iota zeta.
  assert (∀ new : list Chunk, new = [] →
            chunks w = chunks w ++ new
            ∧ ∀ m, m ∈ new →
                Chunk_FileID m = uuids w (uuid_next w)
                ∧ ∃ k, (S (uuid_next w) ≤ k < S (uuid_next w))%nat
                       ∧ Chunk_ID m = uuids w k) as Hnone.
  { intros new ->. rewrite app_nil_r. split; [done |]. intros m Hm.
    by apply not_elem_of_nil in Hm. }
  destruct (WriteHandler.chunkStream wh fuel body) as [[cs total]|e|msg|];
    cbv beta iota zeta;
    try (simpl; repeat split; try done; exists []; by apply Hnone).
  unfold WriteHandler.uploadChunks.
  match goal with
  | |- context [WriteHandler.uploadChunks_loop ?f cs [] ?w0] =>
    pose proof (uploadChunks_loop_general f cs [] w0) as (Hb & Hu & Hms);
    pose proof (uploadChunks_loop_frame f cs [] w0) as (Hf & Hch & Hca & Hfa & Huu & _);
    destruct (WriteHandler.uploadChunks_loop f cs [] w0) as [[ms|err] wa]
  end; unfold set_logs, set_uuid_next in *; simpl in *.
  2:{ repeat split; try done; try congruence.
      exists []. rewrite app_nil_r. split; [done |]. intros m Hm.
      by apply not_elem_of_nil in Hm. }
  destruct (Hms ms eq_refl) as (new & -> & Hnew).
  match goal with
  | |- context [WriteHandler.saveMetadata ?f new ?w0] =>
    pose proof (saveMetadata_general f new w0) as (Hf' & [k Hk] & Hb' & Hca' & Hfa' & Huu' & Hu');
    destruct (WriteHandler.saveMetadata f new w0) as [[err|] wb]
  end; simpl in *.
  all: assert (∀ m, m ∈ take k new →
                 Chunk_FileID m = uuids w (uuid_next w)
                 ∧ ∃ k0, (S (uuid_next w) ≤ k0 < uuid_next wa)%nat
                         ∧ Chunk_ID m = uuids w k0) as Hnew'
    by (intros m Hm; apply Hnew; apply list_elem_of_lookup in Hm as [i Hi];
        apply lookup_take_Some in Hi as [Hi _]; by apply list_elem_of_lookup_2 in Hi).
  - split; [congruence |]. split; [lia |]. split; [intros; rewrite Hb'; by apply Hb |].
    split; [intros; rewrite Hf', Hf; done |].
    split; [exists (take k new); rewrite Hk, Hch, Hu'; done |].
    intros. by rewrite Hca', Hca.
  - unfold WriteHandler.invalidateCache, storage.InvalidateFileMetadata. unfold_M.
    unfold set_calls, set_cache, set_logs. simpl.
    destruct (redis_del_fault (faults wb) _); simpl.
    all: split; [congruence |]; split; [lia |];
         split; [intros; rewrite Hb'; by apply Hb |];
         split; [intros; rewrite Hf', Hf; done |];
         split; [exists (take k new); rewrite Hk, Hch, Hu'; done |].
    + intros. by rewrite Hca', Hca.
    + intros key Hkey. rewrite lookup_delete_ne by done. by rewrite Hca', Hca.
Qed.

Lemma select_chunks_app_other fileID rows new :
  (∀ m, m ∈ new → Chunk_FileID m ≠ fileID) →
  storage.select_chunks fileID (rows ++ new) = storage.select_chunks fileID rows.
Proof.
  intros Hnew. unfold storage.select_chunks. rewrite filter_app.
  assert (filter (λ c, Chunk_FileID c = fileID) new = []) as ->.
  { induction new as [|m new IH]; [done |].
    rewrite filter_cons_False by (apply Hnew; by left).
    apply IH. intros m' Hm'. apply Hnew. by right. }
  by rewrite app_nil_r.
Qed.

(** The identifiers to come stay new through a write. *)
Lemma fresh_uuids_write wh fuel filename body w :
  fresh_uuids w → fresh_uuids (WriteHandler.ServeHTTP wh fuel filename body w).2.
Proof.
  intros Hfresh.
  destruct (WriteHandler_ServeHTTP_frame wh fuel filename body w)
    as [->|(Huu & Hu & _ & Hf & (new & Hch & Hnew) & _)]; [done |].
  set (w' := (WriteHandler.ServeHTTP wh fuel filename body w).2) in *.
  destruct Hfresh as [Hinj Hfree].
  split; [by rewrite Huu |]. intros k Hk. rewrite Huu.
  destruct (Hfree k ltac:(lia)) as (Hnonempty & Hnone & Hold).
  split; [done |]. split.
  - rewrite Hf; [done |]. intros Heq. apply Hinj in Heq. lia.
  - rewrite Hch, fmap_app. intros Hin. apply elem_of_app in Hin as [Hin|Hin]; [done |].
    apply list_elem_of_fmap in Hin as (m & Hid & Hm).
    destruct (Hnew m Hm) as (_ & k' & Hk' & Hid'). rewrite Hid' in Hid.
    apply Hinj in Hid. lia.
Qed.

Lemma db_ok_ext w w' :
  files w' = files w → chunks w' = chunks w → db_ok w → db_ok w'.
Proof. unfold db_ok, fk_ok. by intros -> ->. Qed.

(** The constraints of the tables hold through a write. *)
Lemma db_ok_write wh fuel filename body w :
  db_ok w → db_ok (WriteHandler.ServeHTTP wh fuel filename body w).2.
Proof.
  intros Hdb. unfold WriteHandler.ServeHTTP.
  case_decide; [done |]. unfold_M. cbv beta iota zeta.
  destruct (WriteHandler.chunkStream wh fuel body) as [[cs total]|e|msg|];
    cbv beta iota zeta; try done.
  unfold WriteHandler.uploadChunks.
  match goal with
  | |- context [WriteHandler.uploadChunks_loop ?f cs ?a ?w0] =>
    pose proof (uploadChunks_loop_tables f cs a w0) as [Hf Hc];
    destruct (WriteHandler.uploadChunks_loop f cs a w0) as [[ms|err] wa]
  end; cbv beta iota zeta; simpl in Hf, Hc.
  2: by apply (db_ok_ext w).
  match goal with
  | |- context [WriteHandler.saveMetadata ?f ms ?w0] =>
    pose proof (saveMetadata_db_ok f ms w0) as Hsave;
    destruct (WriteHandler.saveMetadata f ms w0) as [[err|] wb]
  end; cbv beta iota zeta; simpl in Hsave.
  1: by apply Hsave, (db_ok_ext w).
  assert (db_ok wb) as Hwb by (by apply Hsave, (db_ok_ext w)).
  unfold WriteHandler.invalidateCache, storage.InvalidateFileMetadata. unfold_M.
  unfold set_calls, set_cache, set_logs. simpl.
  by destruct (redis_del_fault (faults wb) _).
Qed.

(** A write leaves the files written before as they are. *)
Lemma keeps_file_write wh fuel filename body fileID file w1 w :
  (∀ m, m ∈ storage.select_chunks fileID (chunks w1) →
        ∃ i, Chunk_MinioObjectKey m = WriteHandler.objectKey fileID i) →
  keeps_file fileID file w1 w →
  keeps_file fileID file w1 (WriteHandler.ServeHTTP wh fuel filename body w).2.
Proof.
  intros Hkeys (Hfresh & [Hrows Hobjs] & Hfile & Hcache).
  pose proof (fresh_uuids_write wh fuel filename body w Hfresh) as Hfresh'.
  destruct (WriteHandler_ServeHTTP_frame wh fuel filename body w)
    as [->|(Huu & Hu & Hb & Hf & (new & Hch & Hnew) & Hca)]; [done |].
  set (w' := (WriteHandler.ServeHTTP wh fuel filename body w).2) in *.
  destruct Hfresh as [Hinj Hfree].
  assert (fileID ≠ uuids w (uuid_next w)) as Hne.
  { intros ->. destruct (Hfree (uuid_next w) (le_n _)) as (_ & Hnone & _).
    by rewrite Hnone in Hfile. }
  split; [done |]. split; [|split].
  - split.
    + rewrite Hch, select_chunks_app_other; [done |].
      intros m Hm. destruct (Hnew m Hm) as [-> _]. done.
    + intros m Hm. rewrite <- (Hobjs m Hm). destruct (Hkeys m Hm) as [i ->].
      apply Hb. intros j Heq. by apply objectKey_inj_file in Heq.
  - by rewrite Hf.
  - intros cached ttl. rewrite Hca; [apply Hcache |].
    unfold storage.cache_key. intros Heq. by apply String.app_inj in Heq.
Qed.

(** So does a read. *)
Lemma keeps_file_read sched fileID' fileID file w1 w :
  keeps_file fileID file w1 w →
  keeps_file fileID file w1 (ReadHandler.ServeHTTP sched fileID' w).2.
Proof.
  intros (Hfresh & [Hrows Hobjs] & Hfile & Hcache).
  destruct (ServeHTTP_world sched fileID' w)
    as (Hb & Hf & Hc & _ & Huu & Hu & Hca & _).
  split; [|split; [|split]].
  - destruct Hfresh as [Hinj Hfree]. split; [by rewrite Huu |].
    intros k Hk. rewrite Huu, Hf, Hc. apply Hfree. lia.
  - split; [by rewrite Hc |]. intros m Hm. by rewrite Hb, <- (Hobjs m Hm).
  - by rewrite Hf.
  - intros cached ttl. destruct Hca as [->|(file' & Hfile' & ->)]; [apply Hcache |].
    destruct (decide (storage.cache_key fileID' = storage.cache_key fileID)) as [Heq|Hne].
    + rewrite Heq, lookup_insert_eq. intros [= <- _].
      unfold storage.cache_key in Heq. apply String.app_inj in Heq. subst fileID'.
      rewrite Hfile in Hfile'. by injection Hfile'.
    + rewrite lookup_insert_ne by done. apply Hcache.
Qed.

(** So does any sequence of requests. *)
Lemma keeps_file_serve_all wh reqs fileID file w1 w :
  (∀ m, m ∈ storage.select_chunks fileID (chunks w1) →
        ∃ i, Chunk_MinioObjectKey m = WriteHandler.objectKey fileID i) →
  keeps_file fileID file w1 w →
  keeps_file fileID file w1 (serve_all wh reqs w).
Proof.
  intros Hkeys. revert w. induction reqs as [|req reqs IH]; intros w Hkeep; [done |].
  unfold serve_all. cbn [foldl]. apply IH.
  destruct req as [filename body fuel f|fileID' sched f]; cbn [serve].
  - by apply keeps_file_write.
  - by apply keeps_file_read.
Qed.

(** X23. The tables only grow, and the preconditions of the write path
    are invariants of the service.  Through any sequence of requests served
    one after the other, with any failures of the services, the tables keep
    satisfying their constraints and the identifiers to come stay new;
    every File record stays as it is and the chunk records already stored
    stay, in the same order: no request alters or deletes a record. *)
Theorem serve_all_invariants
    (wh : WriteHandler.WriteHandler) (reqs : list Request) (w : World) :
  fresh_uuids w →
  db_ok w →
  let w' := serve_all wh reqs w in
  fresh_uuids w'
  ∧ db_ok w'
  ∧ (∀ id file, files w !! id = Some file → files w' !! id = Some file)
  ∧ (∃ new, chunks w' = chunks w ++ new).
Proof.
  revert w. induction reqs as [|req reqs IH]; intros w Hfresh Hdb; cbv zeta.
  { split; [done |]. split; [done |]. split; [done |]. exists []. by rewrite app_nil_r. }
  unfold serve_all. cbn [foldl].
  assert (fresh_uuids (serve wh w req) ∧ db_ok (serve wh w req)
          ∧ (∀ id file, files w !! id = Some file
                        → files (serve wh w req) !! id = Some file)
          ∧ ∃ new, chunks (serve wh w req) = chunks w ++ new) as (Hfresh' & Hdb' & Hf & Hc).
  { destruct req as [filename body fuel f|fileID sched f]; cbn [serve].
    - split; [by apply fresh_uuids_write |]. split; [by apply db_ok_write |].
      destruct (WriteHandler_ServeHTTP_frame wh fuel filename body (with_faults f w))
        as [->|(_ & _ & _ & Hf & (new & Hch & _) & _)].
      { split; [done |]. exists []. simpl. by rewrite app_nil_r. }
      split; [|by exists new].
      intros id file Hfile. rewrite Hf; [done |]. simpl. intros ->.
      destruct Hfresh as [_ Hfree].
      destruct (Hfree (uuid_next w) (le_n _)) as (_ & Hnone & _).
      by rewrite Hnone in Hfile.
    - destruct (ServeHTTP_world sched fileID (with_faults f w))
        as (_ & Hf & Hc & _ & Huu & Hu & _).
      simpl in Hf, Hc, Huu, Hu.
      split; [|split; [by apply (db_ok_ext w) |split]].
      + destruct Hfresh as [Hinj Hfree]. split; [by rewrite Huu |].
        intros k Hk. rewrite Huu, Hf, Hc. apply Hfree. lia.
      + intros id file. by rewrite Hf.
      + exists []. by rewrite Hc, app_nil_r. }
  destruct (IH (serve wh w req) Hfresh' Hdb') as (Hfresh'' & Hdb'' & Hf' & new' & Hc').
  split; [done |]. split; [done |]. split; [by intros id file Hfile; apply Hf', Hf |].
  destruct Hc as [new Hc]. exists (new ++ new').
  unfold serve_all in Hc'. by rewrite Hc', Hc, <- app_assoc.
Qed.

(** X14. A written file survives what follows.  When no service fails
    during the write, the file stays readable with the bytes written after
    any sequence of further requests served one after the other, whatever
    they are: writes of any body under any name and reads of any
    identifier, each with any failures of the services and whatever it
    answers.  A read of the identifier, when no service fails, answers 200
    with exactly the bytes written, and with the name written: as it was
    written or, for a name that is not valid UTF-8 once a read has put the
    record in the cache, with U+FFFD for its invalid bytes.  (For a handler
    whose chunk size the runtime can allocate, from 1 to [maxAlloc]
    bytes.) *)
Theorem written_file_survives
    (wh : WriteHandler.WriteHandler) (fuel : nat) (filename : string)
    (data : list byte) (w : World) (reqs : list Request) (sched : nat → list nat) :
  filename ≠ "" →
  1 ≤ chunker.chunkSize (WriteHandler.chunker wh) ≤ maxAlloc →
  Z.of_nat (length data) ≤ max_int64 →
  (length data < fuel)%nat →
  faults w = no_faults →
  fresh_uuids w →
  db_ok w →
  (∀ n, sched n ≡ₚ seq 0 n) →
  let write := WriteHandler.ServeHTTP wh fuel filename (mkReader data EOF) w in
  let fileID := uuids w (uuid_next w) in
  let later := with_faults no_faults (serve_all wh reqs write.2) in
  (∃ wresp r, write.1 = Done wresp ∧ StatusCode wresp = StatusCreated
              ∧ ResponseBody wresp = Json r ∧ FileID r = fileID)
  ∧ ∃ name,
      (name = filename ∨ name = json_string filename)
      ∧ (valid_utf8 filename → name = filename)
      ∧ (ReadHandler.ServeHTTP sched fileID later).1
        = mkResponse StatusOK
            [("Content-Type", "application/octet-stream");
             ("Content-Disposition",
              "attachment; filename=" +:+ dquote +:+ name +:+ dquote);
             ("Content-Length", pretty (Z.of_nat (length data)))]
            (Bytes data).
Proof.
  intros Hname Hs Hmax Hfuel Hnf Hfresh Hdb Hsched. cbv zeta.
  assert (∀ key, minio_put_fault (faults w) key = None) as Hput by (by rewrite Hnf).
  assert (∀ id, tidb_insert_fault (faults w) id = None) as Hins by (by rewrite Hnf).
  destruct (WriteHandler_ServeHTTP_run wh fuel filename data w
              Hname Hs Hmax Hfuel Hput Hins Hfresh Hdb)
    as (Hresp & Hb & Hf & Hc & Hcache & _ & Hfaults & Huu & Hu).
  set (fileID := uuids w (uuid_next w)) in *.
  assert (fileID ≠ "") as Hid by (destruct Hfresh as [_ Hnew]; by apply Hnew).
  destruct (WriteHandler.ServeHTTP wh fuel filename (mkReader data EOF) w)
    as [o w1] eqn:Hwrite.
  cbn [fst snd] in *. subst o.
  split; [by eexists _, _ |].
  rewrite Hnf in Hcache. simpl in Hcache.
  pose proof (select_rows_of wh data w Hs Hmax Hfresh Hdb) as Hsel.
  fold fileID in Hsel. rewrite <- Hc in Hsel.
  (* the file is kept by the requests that follow *)
  assert (keeps_file fileID (file_of wh filename data w) w1 w1) as Hkeep.
  { split; [|split; [apply same_file_refl |split]].
    - destruct Hfresh as [Hinj Hfree]. split; [by rewrite Huu |].
      intros k Hk. rewrite Huu. destruct (Hfree k ltac:(lia)) as (Hne & Hnone & Hold).
      split; [done |]. split.
      + rewrite Hf, lookup_insert_ne; [done |]. intros Heq. apply Hinj in Heq. lia.
      + rewrite Hc, fmap_app, rows_of_ids. intros Hin.
        apply elem_of_app in Hin as [Hin|Hin]; [done |].
        unfold chunk_ids in Hin. apply list_elem_of_fmap in Hin as (i & Heq & Hi).
        apply Hinj in Heq. apply elem_of_seq in Hi. lia.
    - by rewrite Hf, lookup_insert_eq.
    - intros cached ttl. by rewrite Hcache, lookup_delete_eq. }
  apply (keeps_file_serve_all wh reqs) in Hkeep.
  2:{ intros m Hm. rewrite Hsel in Hm. apply list_elem_of_lookup in Hm as [i Hm].
      apply rows_of_lookup in Hm as (c & _ & ->). by eexists. }
  set (w2 := serve_all wh reqs w1) in *.
  destruct Hkeep as (_ & Hsame & Hfile & Hcached).
  (* the read *)
  destruct (ServeHTTP_succeeds sched fileID (with_faults no_faults w2) Hid Hsched)
    as (file & slots & Hread & Hfound); try done.
  { right. simpl. rewrite Hfile. by eexists. }
  { simpl. destruct Hsame as [-> Hobjs]. intros m Hm.
    pose proof (Hobjs m Hm) as Hobj. rewrite Hsel in Hm.
    destruct (rows_of_stored wh data w (bucket w) m Hs Hmax Hm) as (d & Hd & Hh & _).
    unfold unit_fails, download, storage.DownloadChunk. unfold_M. simpl.
    rewrite Hobj, Hb. fold fileID in Hd. rewrite Hd. by intros []. }
  assert (Name file = filename ∨ Name file = json_string filename) as Hserved.
  { simpl in Hfound.
    destruct (cache w2 !! storage.cache_key fileID) as [[cached ttl]|] eqn:Hc2.
    - subst file. rewrite (Hcached cached ttl eq_refl). by right.
    - rewrite Hfile in Hfound. injection Hfound as <-. by left. }
  pose proof (write_then_read wh fuel filename data w sched _ w1 _
                (with_faults no_faults w2)
                Hs Hmax Hfuel (proj1 Hdb) Hsched Hwrite eq_refl eq_refl Hsame) as Hbody.
  cbn [FileID] in Hbody. fold fileID in Hbody. rewrite Hread in Hbody.
  specialize (Hbody eq_refl). simpl in Hbody. injection Hbody as Hbody.
  exists (Name file). split; [exact Hserved |]. split.
  - intros Hvalid. destruct Hserved as [->| ->]; [done | exact Hvalid].
  - rewrite Hread. unfold ok_response. by rewrite Hbody.
Qed.

End isolation_more.

Lemma written_file_survives_witness :
  let later := serve_all (H := example_digest) small_chunks later_requests
                 written_world in
  (* the requests in between left their marks *)
  length (chunks later) = 6%nat
  ∧ dom (files later) = ({["uuid-0"; "uuid-4"; "uuid-8"]} : gset string)
  ∧ dom (cache later) = ({["file:uuid-0"]} : gset string)
  (* the first file is read back as written *)
  ∧ (handlers.ReadHandler.ServeHTTP (H := example_digest) (λ n, reverse (seq 0 n))
       "uuid-0" (with_faults no_faults later)).1
    = handlers.mkResponse handlers.StatusOK
        [("Content-Type", "application/octet-stream");
         ("Content-Disposition",
          "attachment; filename=" +:+ handlers.dquote +:+ "test.bin"
          +:+ handlers.dquote);
         ("Content-Length", "10")]
        (handlers.Bytes bytes10)
  (* a name that is not valid UTF-8: the first read takes it from the table,
     the second from the cache *)
  ∧ (let odd := String "a" (String "255" (String "b" EmptyString)) in
     let written := (handlers.WriteHandler.ServeHTTP (H := example_digest)
                       small_chunks 11 odd (mkReader bytes10 EOF) empty_world).2 in
     let first := handlers.ReadHandler.ServeHTTP (H := example_digest) in_order
                    "uuid-0" written in
     let second := handlers.ReadHandler.ServeHTTP (H := example_digest) in_order
                     "uuid-0" first.2 in
     handlers.Header first.1 !! 1%nat
     = Some ("Content-Disposition",
             "attachment; filename=" +:+ handlers.dquote +:+ odd +:+ handlers.dquote)
     ∧ handlers.Header second.1 !! 1%nat
       = Some ("Content-Disposition",
               "attachment; filename=" +:+ handlers.dquote
               +:+ ("a" +:+ RuneError +:+ "b") +:+ handlers.dquote)
     ∧ handlers.ResponseBody second.1 = handlers.Bytes bytes10).
Proof.
  cbv zeta. split; [vm_compute; reflexivity |]. split; [vm_compute; reflexivity |].
  split; [vm_compute; reflexivity |].
  split; [|vm_compute; repeat split; reflexivity].
  destruct (written_file_survives (H := example_digest) small_chunks 11 "test.bin"
              bytes10 empty_world later_requests (λ n, reverse (seq 0 n)))
    as (_ & name & _ & Hvalid & Hread);
    [discriminate | cbv [maxAlloc]; simpl; lia | unfold max_int64; simpl; lia
    | simpl; lia | reflexivity | exact fresh_uuids_empty_world
    | exact db_ok_empty_world | intros n; apply reverse_Permutation |].
  rewrite (Hvalid eq_refl) in Hread. exact Hread.
Defined.

Lemma serve_all_invariants_witness :
  let w' := serve_all (H := example_digest) small_chunks later_requests empty_world in
  fresh_uuids w'
  ∧ db_ok w'
  ∧ (∀ id file, files empty_world !! id = Some file → files w' !! id = Some file)
  ∧ (∃ new, chunks w' = chunks empty_world ++ new).
Proof.
  apply (serve_all_invariants (H := example_digest) small_chunks later_requests
           empty_world); [exact fresh_uuids_empty_world | exact db_ok_empty_world].
Defined.
